(** * Static-site generator: [lib/builder/generator.js]

    A shallow embedding of [Generator.generate]: the merge of static and
    dynamic routes ([decorateWithPayloads]), the batch loop that renders,
    minifies and writes every route, and the report that is returned.

    Conventions of the embedding.
    - JavaScript values that the code only passes around or tests for
      truthiness (payloads, error objects, the minifier configuration) are
      values of [JsValue]; numbers are restricted to integers.
    - [routeMap] is a plain JavaScript object: its own properties are kept in
      creation order and enumerated the way [Object.keys] does (array-index
      keys first, in ascending numeric order, then the other string keys in
      creation order).
    - The collaborators that are imported and only called (the renderer, the
      minifier, [promisifyRoute], [flatRoutes], the clock) are fields of an
      environment record; [path.join], [path.normalize] and [path.dirname]
      are modelled on POSIX paths.
    - Effects are threaded through a state that holds the [errors] array, the
      log of effects in program order and the file-system operations that
      were started without being awaited.  The file-system primitives and the
      readiness/build steps are taken to settle successfully.
    - The callbacks of one batch run interleaved: [map] runs each of them up
      to its first [await], and from then on a callback is a task that is
      resumed one [await] at a time.  The order in which the suspended tasks
      of a batch are resumed is a parameter of the run ([schedule]); every
      order is allowed, since it is decided by [waitFor], the renderer and
      the file system, which the code only calls.  What the schedule leaves
      unfinished is completed in list order before [Promise.all] settles.
    - Building the error report reads [error.stack] of every unhandled
      failure: on [null] and [undefined] this throws a TypeError, which
      [generate] does not catch.
    - The loop of [generate] is run with as much fuel as there are routes;
      [run_total] shows that this is always enough. *)

From Stdlib Require Import String Ascii List ZArith NArith Lia Bool Arith.
From Stdlib Require Import Permutation DecimalString Sorted.
Import ListNotations.

Local Open Scope string_scope.
Local Open Scope list_scope.

(** ** JavaScript values *)

Module Js.

#[local] Set Warnings "-register-all".

Inductive JsValue : Type :=
| JUndefined
| JNull
| JBool (b : bool)
| JNum (z : Z)
| JStr (s : string)
| JError (message : string)
| JObject (fields : list (string * JsValue)).

(** ToBoolean. *)
Definition truthy (v : JsValue) : bool :=
  match v with
  | JUndefined | JNull => false
  | JBool b => b
  | JNum z => negb (Z.eqb z 0)
  | JStr s => negb (String.eqb s "")
  | JError _ | JObject _ => true
  end.

(** [a || b]. *)
Definition or_else (a b : JsValue) : JsValue :=
  if truthy a then a else b.

End Js.
Import Js.

(** ** Plain objects used as maps *)

Module JsObject.

Definition digit_of (c : ascii) : option N :=
  let n := N_of_ascii c in
  if ((48 <=? n) && (n <=? 57))%N then Some (n - 48)%N else None.

Fixpoint parse_digits (s : string) (acc : N) : option N :=
  match s with
  | EmptyString => Some acc
  | String c r =>
      match digit_of c with
      | Some d => parse_digits r (10 * acc + d)%N
      | None => None
      end
  end.

(** A property key is an array index when it is the canonical decimal
    form of an integer below 2^32 - 1. *)
Definition array_index (k : string) : option N :=
  match k with
  | EmptyString => None
  | String c r =>
      if Ascii.eqb c "0"%char then
        match r with EmptyString => Some 0%N | _ => None end
      else
        match parse_digits k 0 with
        | Some n => if (n <? 4294967295)%N then Some n else None
        | None => None
        end
  end.

Definition is_array_index (k : string) : bool :=
  match array_index k with Some _ => true | None => false end.

(** Keys that behave as ordinary insertion-ordered own properties. *)
Definition ordinary_key (k : string) : bool :=
  negb (is_array_index k) && negb (String.eqb k "__proto__").

Section Props.
Context {V : Type}.

(** Own enumerable properties, in creation order. *)
Definition t := list (string * V).

Definition empty : t := [].

Fixpoint has (k : string) (o : t) : bool :=
  match o with
  | [] => false
  | (k', _) :: r => String.eqb k k' || has k r
  end.

Fixpoint get (k : string) (o : t) : option V :=
  match o with
  | [] => None
  | (k', v) :: r => if String.eqb k k' then Some v else get k r
  end.

Fixpoint overwrite (k : string) (v : V) (o : t) : t :=
  match o with
  | [] => []
  | (k', v') :: r =>
      if String.eqb k k' then (k', v) :: r else (k', v') :: overwrite k v r
  end.

(** [o[k] = v] on an object created by [{}].  Assigning an object to
    [__proto__] goes through the accessor of [Object.prototype] and
    creates no own property. *)
Definition set (k : string) (v : V) (o : t) : t :=
  if String.eqb k "__proto__" then o
  else if has k o then overwrite k v o
  else o ++ [(k, v)].

Fixpoint insert_sorted (i : N) (p : string * V)
         (l : list (N * (string * V))) : list (N * (string * V)) :=
  match l with
  | [] => [(i, p)]
  | (j, q) :: r =>
      if (i <=? j)%N then (i, p) :: l else (j, q) :: insert_sorted i p r
  end.

Fixpoint index_props (o : t) : list (N * (string * V)) :=
  match o with
  | [] => []
  | (k, v) :: r =>
      match array_index k with
      | Some i => insert_sorted i (k, v) (index_props r)
      | None => index_props r
      end
  end.

Definition string_props (o : t) : t :=
  filter (fun p => negb (is_array_index (fst p))) o.

(** Own properties in the order of [Object.keys]. *)
Definition entries (o : t) : t :=
  map snd (index_props o) ++ string_props o.

Definition keys (o : t) : list string := map fst (entries o).

(** [_.values(o)]. *)
Definition values (o : t) : list V := map snd (entries o).

End Props.
Arguments t V : clear implicits.

End JsObject.

(** ** Data model *)

(** An element of the resolved [generate.routes]: a string, or an object
    with a [route] and an optional [payload] ([JUndefined] when absent). *)
Inductive DynamicRouteItem : Type :=
| ItemString (path : string)
| ItemObject (route : string) (payload : JsValue).

Record RouteSpec : Type := mkRouteSpec {
  route : string;
  payload : JsValue
}.

(** [_.isString(route) ? route : route.route] *)
Definition item_path (it : DynamicRouteItem) : string :=
  match it with
  | ItemString s => s
  | ItemObject r _ => r
  end.

(** [route.payload]; a string has no such property. *)
Definition item_raw_payload (it : DynamicRouteItem) : JsValue :=
  match it with
  | ItemString _ => JUndefined
  | ItemObject _ p => p
  end.

(** [route.payload || null] *)
Definition item_payload (it : DynamicRouteItem) : JsValue :=
  Js.or_else (item_raw_payload it) JNull.

(** ** Route merger *)

Definition fill_known (routes : list string) (routeMap : JsObject.t RouteSpec)
  : JsObject.t RouteSpec :=
  fold_left
    (fun m r => JsObject.set r (mkRouteSpec r JNull) m)
    routes routeMap.

Definition fill_generated (generateRoutes : list DynamicRouteItem)
           (routeMap : JsObject.t RouteSpec) : JsObject.t RouteSpec :=
  fold_left
    (fun m it =>
       let path := item_path it in
       JsObject.set path (mkRouteSpec path (item_payload it)) m)
    generateRoutes routeMap.

Definition decorateWithPayloads (generateRoutes : list DynamicRouteItem)
           (routes : list string) : list RouteSpec :=
  let routeMap := JsObject.empty in
  let routeMap := fill_known routes routeMap in
  let routeMap := fill_generated generateRoutes routeMap in
  JsObject.values routeMap.

(** ** POSIX paths: [path.sep], [path.normalize], [path.join],
    [path.resolve], [path.dirname] *)

Module Path.

Definition slash : ascii := "/"%char.

Definition sep : string := "/".

(** [s.split('/')] *)
Fixpoint split (s : string) : list string :=
  match s with
  | EmptyString => [EmptyString]
  | String c r =>
      if Ascii.eqb c slash then EmptyString :: split r
      else
        match split r with
        | x :: xs => String c x :: xs
        | [] => [String c EmptyString]
        end
  end.

(** [segs.join('/')] *)
Fixpoint intercalate (segs : list string) : string :=
  match segs with
  | [] => ""
  | [x] => x
  | x :: r => (x ++ "/" ++ intercalate r)%string
  end.

Definition is_absolute (p : string) : bool :=
  match p with
  | String c _ => Ascii.eqb c slash
  | EmptyString => false
  end.

Fixpoint ends_with_slash (p : string) : bool :=
  match p with
  | EmptyString => false
  | String c EmptyString => Ascii.eqb c slash
  | String _ r => ends_with_slash r
  end.

(** One segment of [normalizeString]; [res] holds the segments kept so
    far, last one first. *)
Definition step (allowAboveRoot : bool) (res : list string) (seg : string)
  : list string :=
  if String.eqb seg "" || String.eqb seg "." then res
  else if String.eqb seg ".." then
    match res with
    | top :: below =>
        if String.eqb top ".." then
          (if allowAboveRoot then ".." :: res else res)
        else below
    | [] => if allowAboveRoot then [".."] else []
    end
  else seg :: res.

Definition normalizeSegments (allowAboveRoot : bool) (segs : list string)
  : list string :=
  rev (fold_left (step allowAboveRoot) segs []).

Definition normalizeString (p : string) (allowAboveRoot : bool) : string :=
  intercalate (normalizeSegments allowAboveRoot (split p)).

Definition normalize (p : string) : string :=
  if String.eqb p "" then "."
  else
    let isAbsolute := is_absolute p in
    let trailingSeparator := ends_with_slash p in
    let q := normalizeString p (negb isAbsolute) in
    if String.eqb q "" then
      (if isAbsolute then "/" else if trailingSeparator then "./" else ".")
    else
      let q := if trailingSeparator then (q ++ "/")%string else q in
      if isAbsolute then ("/" ++ q)%string else q.

Definition join (args : list string) : string :=
  match filter (fun a => negb (String.eqb a "")) args with
  | [] => "."
  | parts => normalize (intercalate parts)
  end.

(** The right-to-left scan of [resolve]: the accumulated path and whether
    an absolute argument was reached. *)
Fixpoint resolve_scan (rargs : list string) (acc : string) : string * bool :=
  match rargs with
  | [] => (acc, false)
  | a :: r =>
      if String.eqb a "" then resolve_scan r acc
      else
        let acc := (a ++ "/" ++ acc)%string in
        if is_absolute a then (acc, true) else resolve_scan r acc
  end.

Definition resolve (cwd : string) (args : list string) : string :=
  let '(resolvedPath, resolvedAbsolute) := resolve_scan (rev (cwd :: args)) "" in
  let q := normalizeString resolvedPath (negb resolvedAbsolute) in
  if resolvedAbsolute then ("/" ++ q)%string
  else if String.eqb q "" then "." else q.

Fixpoint drop_while (f : ascii -> bool) (l : list ascii) : list ascii :=
  match l with
  | [] => []
  | c :: r => if f c then drop_while f r else l
  end.

Definition dirname (p : string) : string :=
  match list_ascii_of_string p with
  | [] => "."
  | c0 :: rest =>
      let hasRoot := Ascii.eqb c0 slash in
      let back := drop_while (fun c => Ascii.eqb c slash) (rev rest) in
      let back := drop_while (fun c => negb (Ascii.eqb c slash)) back in
      match back with
      | [] => if hasRoot then "/" else "."
      | _ :: before =>
          match before with
          | [] => if hasRoot then "//" else String c0 EmptyString
          | _ => string_of_list_ascii (c0 :: rev before)
          end
      end
  end.

End Path.

(** ** Failure records, effects and the state of a run *)

Inductive ErrorType : Type := handled | unhandled.

Module Failure.
Record t : Type := mk {
  type : ErrorType;
  route : string;
  error : JsValue
}.
End Failure.

Inductive FsOp : Type :=
| Remove (p : string)
| Copy (src dst : string)
| Mkdirp (p : string)
| WriteFile (p : string) (data : string).

Inductive Effect : Type :=
| NuxtReady
| BuilderBuild
| Await (op : FsOp)              (* [await op] *)
| Detach (op : FsOp)             (* [op] started, its promise dropped *)
| ConsoleLog (text : string)
| ConsoleError (v : JsValue)
| ErrorReport (entries : list Failure.t)
| PromisifyRoute
| WaitFor (ms : Z)
| RenderRoute (path : string) (payload : JsValue)
| Minify (html : string)
| AwaitAll.                      (* [await Promise.all(...)] settled *)

(** An effect of the body of [generate], or of the callback of a route. *)
Inductive Event : Type :=
| Main (e : Effect)
| Callback (route : string) (e : Effect).

Record State : Type := mkState {
  errors : list Failure.t;       (* the [errors] array *)
  log : list Event;              (* effects, in program order *)
  pending : list FsOp            (* operations started and not awaited *)
}.

Definition initial : State := mkState [] [] [].

(** ** A state monad with exceptions *)

Inductive Completion (A : Type) : Type :=
| Normal (a : A)
| Throw (e : JsValue).
Arguments Normal {A} a.
Arguments Throw {A} e.

Definition Gen (A : Type) : Type := State -> Completion A * State.

Definition ret {A} (a : A) : Gen A := fun st => (Normal a, st).

Definition bind {A B} (m : Gen A) (k : A -> Gen B) : Gen B :=
  fun st =>
    match m st with
    | (Normal a, st') => k a st'
    | (Throw e, st') => (Throw e, st')
    end.

Definition throw {A} (e : JsValue) : Gen A := fun st => (Throw e, st).

Definition try_catch {A} (m : Gen A) (h : JsValue -> Gen A) : Gen A :=
  fun st =>
    match m st with
    | (Normal a, st') => (Normal a, st')
    | (Throw e, st') => h e st'
    end.

Declare Scope gen_scope.
Delimit Scope gen_scope with gen.
Notation "x <- m ;; k" := (bind m (fun x => k))
  (at level 61, m at next level, right associativity) : gen_scope.
Notation "m ;; k" := (bind m (fun _ => k))
  (at level 61, right associativity) : gen_scope.

Definition emit (ev : Event) : Gen unit :=
  fun st => (Normal tt, mkState (errors st) (log st ++ [ev]) (pending st)).

(** [errors.push(entry)] *)
Definition push_error (entry : Failure.t) : Gen unit :=
  fun st => (Normal tt, mkState (errors st ++ [entry]) (log st) (pending st)).

Definition get_errors : Gen (list Failure.t) :=
  fun st => (Normal (errors st), st).

(** A file-system call whose promise is not awaited. *)
Definition start_detached (ev : FsOp -> Event) (op : FsOp) : Gen unit :=
  fun st =>
    (Normal tt, mkState (errors st) (log st ++ [ev op]) (pending st ++ [op])).

(** ** The collaborators and options of a run *)

Inductive RenderResult : Type :=
  mkRenderResult { html : string; res_error : JsValue }.

Record Env : Type := mkEnv {
  (* this.options *)
  rootDir : string;
  srcDir : string;
  buildDir : string;
  generate_dir : string;
  generate_interval : Z;
  generate_minify : JsValue;
  build_publicPath : string;
  router_mode : string;
  (* collaborators *)
  cwd_dirs : list string;       (* the directories of process.cwd() *)
  has_builder : bool;                            (* this.builder is set *)
  isUrl_publicPath : bool;                       (* isUrl(build.publicPath) *)
  static_exists : bool;                          (* fs.existsSync(srcStaticPath) *)
  flat_routes : list string;                     (* flatRoutes(router.routes) *)
  promisify_routes : Completion (list DynamicRouteItem);
                            (* await promisifyRoute(generate.routes || []) *)
  renderRoute : string -> JsValue -> Completion RenderResult;
  minify : string -> JsValue -> Completion string;
  schedule : list (list nat);
      (* for each batch in turn, the suspended callbacks in the order in
         which they are resumed, by position in the batch *)
  now_start : Z;                                 (* first Date.now() *)
  now_end : Z                                    (* second Date.now() *)
}.

Record Report : Type := mkReport {
  duration_tenths : Z;           (* [duration] is this many tenths of a second *)
  report_errors : list Failure.t
}.

Definition batch_size : nat := 500.

(** [error.stack] throws a TypeError on [null] and on [undefined]. *)
Definition is_nullish (v : JsValue) : bool :=
  match v with
  | JUndefined | JNull => true
  | _ => false
  end.

(** An entry of [errors] on which line 131 throws. *)
Definition stack_throws (f : Failure.t) : bool :=
  match Failure.type f with
  | unhandled => is_nullish (Failure.error f)
  | handled => false
  end.

(** The TypeError thrown by [error.stack]; its message depends on the
    engine. *)
Definition type_error : JsValue := JError "TypeError".

Definition minify_message (html : string) : string :=
  ("HTML minification failed. Make sure the route generates valid HTML. Failed HTML:"
   ++ String (ascii_of_nat 10) (" " ++ html))%string.

Local Open Scope gen_scope.

(** [process.cwd()]: an absolute path. *)
Definition cwd (env : Env) : string :=
  ("/" ++ Path.intercalate (cwd_dirs env))%string.

Section Run.
Variable env : Env.

Definition srcStaticPath : string := Path.resolve (cwd env) [srcDir env; "static"].
Definition srcBuiltPath : string := Path.resolve (cwd env) [buildDir env; "dist"].
Definition distPath : string := Path.resolve (cwd env) [rootDir env; generate_dir env].
Definition distNuxtPath : string :=
  Path.join [distPath; if isUrl_publicPath env then "" else build_publicPath env].

(** [join(distPath, join(route, sep, 'index.html'))] *)
Definition output_path (dist route : string) : string :=
  Path.join [dist; Path.join [route; Path.sep; "index.html"]].

(** Line 94, the call. *)
Definition render_call (route : string) (payload : JsValue) : Gen unit :=
  emit (Callback route (RenderRoute route payload)).

(** Lines 93-102, once the call has settled: [Some html] when the callback
    goes on, [None] when it has returned from the catch clause. *)
Definition render_settled (route : string) (payload : JsValue)
  : Gen (option string) :=
  match renderRoute env route payload with
  | Normal res =>
      (if truthy (res_error res)
       then push_error (Failure.mk handled route (res_error res))
       else ret tt) ;;
      ret (Some (html res))
  | Throw err =>
      push_error (Failure.mk unhandled route err) ;;
      ret None
  end.

Definition render_step (route : string) (payload : JsValue) : Gen (option string) :=
  render_call route payload ;;
  render_settled route payload.

(** Lines 103-110. *)
Definition minify_step (route : string) (html : string) : Gen string :=
  if truthy (generate_minify env) then
    emit (Callback route (Minify html)) ;;
    match minify env html (generate_minify env) with
    | Normal html' => ret html'
    | Throw _ =>
        let minifyErr := JError (minify_message html) in
        push_error (Failure.mk unhandled route minifyErr) ;;
        ret html
    end
  else ret html.

(** Lines 111-115. *)
Definition mkdirp_step (route : string) : Gen unit :=
  let path := output_path distPath route in
  emit (Callback route (Await (Mkdirp (Path.dirname path)))).

(** Line 116. *)
Definition writeFile_step (route : string) (html : string) : Gen unit :=
  let path := output_path distPath route in
  emit (Callback route (Await (WriteFile path html))).

Definition write_step (route : string) (html : string) : Gen unit :=
  mkdirp_step route ;;
  writeFile_step route html.

(** The callback given to [map], for the route at position [n] of its
    batch, read straight through. *)
Definition callback (n : nat) (r : RouteSpec) : Gen unit :=
  emit (Callback (route r) (WaitFor (Z.of_nat n * generate_interval env))) ;;
  rendered <- render_step (route r) (payload r) ;;
  match rendered with
  | None => ret tt
  | Some html =>
      html <- minify_step (route r) html ;;
      write_step (route r) html
  end.

(** The same callback cut at its [await]s: where a started callback is
    suspended. *)
Inductive Task : Type :=
| Waiting (r : RouteSpec)                  (* in [await waitFor(...)] *)
| Rendering (r : RouteSpec)                (* in [await renderRoute(...)] *)
| MakingDir (r : RouteSpec) (html : string)   (* in [await mkdirp(...)] *)
| Writing (r : RouteSpec)                  (* in [await writeFile(...)] *)
| Finished.

(** [map] calls the callback, which runs up to its first [await]. *)
Definition start (n : nat) (r : RouteSpec) : Gen Task :=
  emit (Callback (route r) (WaitFor (Z.of_nat n * generate_interval env))) ;;
  ret (Waiting r).

Fixpoint start_all (n : nat) (batch : list RouteSpec) : Gen (list Task) :=
  match batch with
  | [] => ret []
  | r :: rest =>
      t <- start n r ;;
      ts <- start_all (S n) rest ;;
      ret (t :: ts)
  end.

(** A suspended callback runs from the [await] that has settled to the
    next one. *)
Definition resume (t : Task) : Gen Task :=
  match t with
  | Waiting r =>
      render_call (route r) (payload r) ;;
      ret (Rendering r)
  | Rendering r =>
      rendered <- render_settled (route r) (payload r) ;;
      match rendered with
      | None => ret Finished
      | Some html =>
          html <- minify_step (route r) html ;;
          mkdirp_step (route r) ;;
          ret (MakingDir r html)
      end
  | MakingDir r html =>
      writeFile_step (route r) html ;;
      ret (Writing r)
  | Writing _ => ret Finished
  | Finished => ret Finished
  end.

(** Resume the callback at position [i], if there is one. *)
Fixpoint resume_nth (i : nat) (tasks : list Task) {struct tasks}
  : Gen (list Task) :=
  match tasks with
  | [] => ret []
  | t :: ts =>
      match i with
      | O => t' <- resume t ;; ret (t' :: ts)
      | S i' => ts' <- resume_nth i' ts ;; ret (t :: ts')
      end
  end.

Fixpoint follow (picks : list nat) (tasks : list Task) : Gen (list Task) :=
  match picks with
  | [] => ret tasks
  | i :: rest =>
      tasks' <- resume_nth i tasks ;;
      follow rest tasks'
  end.

(** A callback has four [await]s at most. *)
Definition finish (t : Task) : Gen unit :=
  t <- resume t ;;
  t <- resume t ;;
  t <- resume t ;;
  t <- resume t ;;
  ret tt.

Fixpoint drain (tasks : list Task) : Gen unit :=
  match tasks with
  | [] => ret tt
  | t :: ts => finish t ;; drain ts
  end.

(** [await Promise.all(batch.map(callback))]: every callback is started, the
    suspended callbacks are resumed in the order [picks] gives, and those
    still unfinished are then completed. *)
Definition run_batch (picks : list nat) (batch : list RouteSpec) : Gen unit :=
  tasks <- start_all 0 batch ;;
  tasks <- follow picks tasks ;;
  drain tasks.

(** [while (routes.length) { await Promise.all(routes.splice(0, 500).map(...)) }];
    [None] when [fuel] iterations did not empty [routes]. *)
Fixpoint batch_loop (fuel : nat) (sched : list (list nat))
         (routes : list RouteSpec) : Gen (option unit) :=
  match routes with
  | [] => ret (Some tt)
  | _ :: _ =>
      match fuel with
      | O => ret None
      | S fuel' =>
          run_batch (hd [] sched) (firstn batch_size routes) ;;
          emit (Main AwaitAll) ;;
          batch_loop fuel' (tl sched) (skipn batch_size routes)
      end
  end.

(** Lines 52-61. *)
Definition resolve_generate_routes : Gen (list DynamicRouteItem) :=
  if negb (String.eqb (router_mode env) "hash") then
    try_catch
      (emit (Main (ConsoleLog "Generating routes")) ;;
       emit (Main PromisifyRoute) ;;
       match promisify_routes env with
       | Normal items => ret items
       | Throw e => throw e
       end)
      (fun e =>
         emit (Main (ConsoleError (JStr "Could not resolve routes"))) ;;
         emit (Main (ConsoleError e)) ;;
         throw e)
  else ret [].

(** Lines 85-86. *)
Definition work_list (generateRoutes : list DynamicRouteItem) : list RouteSpec :=
  let routes :=
    if String.eqb (router_mode env) "hash" then ["/"] else flat_routes env in
  decorateWithPayloads generateRoutes routes.

(** [Math.round((Date.now() - s) / 100)]: the duration in tenths of a second. *)
Definition duration_of (s now : Z) : Z := ((now - s + 50) / 100)%Z.

(** Lines 31-49: readiness, build, cleaning and copies. *)
Definition prepare (doBuild : bool) : Gen unit :=
  emit (Main NuxtReady) ;;
  (if has_builder env && doBuild then emit (Main BuilderBuild) else ret tt) ;;
  emit (Main (Await (Remove distPath))) ;;
  (if static_exists env
   then emit (Main (Await (Copy srcStaticPath distPath)))
   else ret tt) ;;
  emit (Main (Await (Copy srcBuiltPath distNuxtPath))).

Definition nojekyllPath : string := Path.resolve (cwd env) [distPath; ".nojekyll"].

(** Lines 127-137: building the report reads [error.stack] of every
    unhandled entry, which throws when that error is [null] or [undefined];
    nothing is printed then. *)
Definition report_errors_found (errors : list Failure.t) : Gen unit :=
  match errors with
  | [] => ret tt
  | _ :: _ =>
      if existsb stack_throws errors then throw type_error
      else emit (Main (ErrorReport errors))
  end.

Definition generate (doBuild : bool) : Gen (option Report) :=
  let s := now_start env in
  prepare doBuild ;;
  generateRoutes <- resolve_generate_routes ;;
  let routes := work_list generateRoutes in
  done <- batch_loop (length routes) (schedule env) routes ;;
  match done with
  | None => ret None
  | Some _ =>
      start_detached (fun op => Main (Detach op)) (WriteFile nojekyllPath "") ;;
      let duration := duration_of s (now_end env) in
      errors <- get_errors ;;
      report_errors_found errors ;;
      ret (Some (mkReport duration errors))
  end.

(** A whole run, from the initial state. *)
Definition run (doBuild : bool) : Completion (option Report) * State :=
  generate doBuild initial.

End Run.


(** ** Vocabulary of the statements *)

Definition mem (p : string) (l : list string) : bool :=
  existsb (String.eqb p) l.

(** The first occurrence of every element, in order. *)
Fixpoint dedup (l : list string) : list string :=
  match l with
  | [] => []
  | x :: r => x :: filter (fun y => negb (String.eqb y x)) (dedup r)
  end.

(** The last dynamic item that names [p]. *)
Fixpoint last_item (p : string) (items : list DynamicRouteItem)
  : option DynamicRouteItem :=
  match items with
  | [] => None
  | it :: r =>
      match last_item p r with
      | Some x => Some x
      | None => if String.eqb (item_path it) p then Some it else None
      end
  end.

(** The payload the merged list is expected to carry for [p]. *)
Definition merged_payload (items : list DynamicRouteItem) (p : string) : JsValue :=
  match last_item p items with
  | Some it => item_payload it
  | None => JNull
  end.

(** The order of the merged list described by the specification: static
    paths first, then the paths only the dynamic items introduce. *)
Definition merged_paths (static : list string) (items : list DynamicRouteItem)
  : list string :=
  dedup static
  ++ dedup (filter (fun p => negb (mem p static)) (map item_path items)).

(** One assignment [m[key a] = val a] of a [forEach] over [a]. *)
Definition upsert {A V : Type} (key : A -> string) (val : A -> V)
           (m : JsObject.t V) (a : A) : JsObject.t V :=
  JsObject.set (key a) (val a) m.

(** The object built by [decorateWithPayloads], before [_.values]. *)
Definition route_map (items : list DynamicRouteItem) (static : list string)
  : JsObject.t RouteSpec :=
  fill_generated items (fill_known static JsObject.empty).

(** What the callback of a route appends to [errors] and to the log. *)
Definition route_errors (env : Env) (r : RouteSpec) : list Failure.t :=
  errors (snd (callback env 0 r initial)).

Definition route_log (env : Env) (n : nat) (r : RouteSpec) : list Event :=
  log (snd (callback env n r initial)).

Fixpoint batch_log (env : Env) (n : nat) (batch : list RouteSpec) : list Event :=
  match batch with
  | [] => []
  | r :: rest => route_log env n r ++ batch_log env (S n) rest
  end.

(** The successive [splice(0, k)] of a list, for at most [fuel] rounds. *)
Fixpoint chunks {A : Type} (k fuel : nat) (l : list A) : list (list A) :=
  match l with
  | [] => []
  | _ :: _ =>
      match fuel with
      | O => []
      | S fuel' => firstn k l :: chunks k fuel' (skipn k l)
      end
  end.

Definition batches {A : Type} (l : list A) : list (list A) :=
  chunks batch_size (length l) l.

Definition loop_log (env : Env) (routes : list RouteSpec) : list Event :=
  flat_map (fun b => batch_log env 0 b ++ [Main AwaitAll]) (batches routes).

(** The dynamic items of a run: none in hash mode, else what
    [promisifyRoute] resolves to. *)
Definition resolved_items (env : Env) : Completion (list DynamicRouteItem) :=
  if String.eqb (router_mode env) "hash" then Normal [] else promisify_routes env.

Definition prepare_log (env : Env) (doBuild : bool) : list Event :=
  log (snd (prepare env doBuild initial)).

Definition resolve_log (env : Env) : list Event :=
  if String.eqb (router_mode env) "hash" then []
  else [Main (ConsoleLog "Generating routes"); Main PromisifyRoute].

Definition report_log (errs : list Failure.t) : list Event :=
  match errs with
  | [] => []
  | _ :: _ => if existsb stack_throws errs then [] else [Main (ErrorReport errs)]
  end.

(** What [generate] does once the loop is over and [errs] were recorded:
    it returns the report, unless building the error report throws. *)
Definition report_outcome (env : Env) (errs : list Failure.t)
  : Completion (option Report) :=
  if existsb stack_throws errs then Throw type_error
  else Normal (Some (mkReport (duration_of (now_start env) (now_end env)) errs)).

(** The steps of a callback after its initial [waitFor]. *)
Definition route_steps (env : Env) (r : RouteSpec) : list Event :=
  tl (route_log env 0 r).

(** The markup handed to the writer after a successful render. *)
Definition final_html (env : Env) (res : RenderResult) : string :=
  if truthy (generate_minify env) then
    match minify env (html res) (generate_minify env) with
    | Normal html' => html'
    | Throw _ => html res
    end
  else html res.

(** Observations on the outcome of a run. *)
Definition failures_of (p : string) (errs : list Failure.t) : list Failure.t :=
  filter (fun f => String.eqb (Failure.route f) p) errs.

Definition is_type (ty : ErrorType) (f : Failure.t) : bool :=
  match ty, Failure.type f with
  | handled, handled | unhandled, unhandled => true
  | _, _ => false
  end.

Definition write_of (p : string) (ev : Event) : list (string * string) :=
  match ev with
  | Callback q (Await (WriteFile path data)) =>
      if String.eqb q p then [(path, data)] else []
  | _ => []
  end.

(** The files written by the callback of route [p]: path and content. *)
Definition written_by (p : string) (l : list Event) : list (string * string) :=
  flat_map (write_of p) l.

Definition render_of (ev : Event) : list (string * JsValue) :=
  match ev with
  | Callback _ (RenderRoute path payload) => [(path, payload)]
  | _ => []
  end.

(** The calls of [renderRoute], in order. *)
Definition render_calls (l : list Event) : list (string * JsValue) :=
  flat_map render_of l.

Definition await_of (ev : Event) : list FsOp :=
  match ev with
  | Main (Await op) | Callback _ (Await op) => [op]
  | _ => []
  end.

(** The file-system operations that were awaited, in order. *)
Definition awaited (l : list Event) : list FsOp := flat_map await_of l.

Definition is_main (ev : Event) : bool :=
  match ev with Main _ => true | Callback _ _ => false end.

(** [hay.includes(needle)] *)
Fixpoint includes (needle hay : string) : bool :=
  String.prefix needle hay
  || match hay with
     | EmptyString => false
     | String _ rest => includes needle rest
     end.

(** ** A sample site

    Static routes [/], [/x], [/y], [/z] and the dynamic routes
    [{route: '/y', payload: 3}] and ['/w'].  Rendering [/x] throws, the
    renderer reports an in-band error for [/y], and the minifier throws on
    the markup of [/y] and of [/z]. *)

Definition sample_render (path : string) (payload : JsValue) : Completion RenderResult :=
  if String.eqb path "/x" then Throw (JError "render failed")
  else if String.eqb path "/y" then
    Normal (mkRenderResult "<y>" (JObject [("statusCode", JNum 500)]))
  else if String.eqb path "/z" then Normal (mkRenderResult "<z>" JNull)
  else Normal (mkRenderResult "<p>page</p>" JNull).

Definition sample_minify (html : string) (options : JsValue) : Completion string :=
  if String.eqb html "<y>" || String.eqb html "<z>"
  then Throw (JError "Parse Error")
  else Normal ("min:" ++ html)%string.

Definition sample_env (mode : string)
           (dynamic : Completion (list DynamicRouteItem)) : Env :=
  {| rootDir := "/site"; srcDir := "/site"; buildDir := "/site/.nuxt";
     generate_dir := "dist"; generate_interval := 10;
     generate_minify := JObject [("collapseWhitespace", JBool true)];
     build_publicPath := "/_nuxt/"; router_mode := mode;
     cwd_dirs := ["home"; "user"]; has_builder := true; isUrl_publicPath := false;
     static_exists := true;
     flat_routes := ["/"; "/x"; "/y"; "/z"];
     promisify_routes := dynamic;
     renderRoute := sample_render; minify := sample_minify;
     schedule := [[0; 1; 2; 3; 4; 0; 1; 2; 3; 4; 0; 1; 2; 3; 4]];
     now_start := 1000; now_end := 2449 |}.

Definition sample_items : list DynamicRouteItem :=
  [ItemObject "/y" (JNum 3); ItemString "/w"].

Definition sample_site : Env := sample_env "history" (Normal sample_items).

(** The same run with another outcome of [promisifyRoute]. *)
Definition with_dynamic (env : Env)
           (dynamic : Completion (list DynamicRouteItem)) : Env :=
  {| rootDir := rootDir env; srcDir := srcDir env; buildDir := buildDir env;
     generate_dir := generate_dir env;
     generate_interval := generate_interval env;
     generate_minify := generate_minify env;
     build_publicPath := build_publicPath env;
     router_mode := router_mode env;
     cwd_dirs := cwd_dirs env; has_builder := has_builder env;
     isUrl_publicPath := isUrl_publicPath env;
     static_exists := static_exists env;
     flat_routes := flat_routes env;
     promisify_routes := dynamic;
     renderRoute := renderRoute env; minify := minify env;
     schedule := schedule env;
     now_start := now_start env; now_end := now_end env |}.

(** The same run with the callbacks resumed in another order. *)
Definition with_schedule (env : Env) (sched : list (list nat)) : Env :=
  {| rootDir := rootDir env; srcDir := srcDir env; buildDir := buildDir env;
     generate_dir := generate_dir env;
     generate_interval := generate_interval env;
     generate_minify := generate_minify env;
     build_publicPath := build_publicPath env;
     router_mode := router_mode env;
     cwd_dirs := cwd_dirs env; has_builder := has_builder env;
     isUrl_publicPath := isUrl_publicPath env;
     static_exists := static_exists env;
     flat_routes := flat_routes env;
     promisify_routes := promisify_routes env;
     renderRoute := renderRoute env; minify := minify env;
     schedule := sched;
     now_start := now_start env; now_end := now_end env |}.

(** The sample site with a renderer that rejects with [undefined] on
    [/x]. *)
Definition rejecting_site : Env :=
  {| rootDir := "/site"; srcDir := "/site"; buildDir := "/site/.nuxt";
     generate_dir := "dist"; generate_interval := 10;
     generate_minify := JUndefined;
     build_publicPath := "/_nuxt/"; router_mode := "history";
     cwd_dirs := ["home"; "user"]; has_builder := true;
     isUrl_publicPath := false; static_exists := true;
     flat_routes := ["/"; "/x"];
     promisify_routes := Normal [];
     renderRoute := fun path payload =>
       if String.eqb path "/x" then Throw JUndefined
       else sample_render path payload;
     minify := sample_minify;
     schedule := [[1; 0; 1; 0]];
     now_start := 0; now_end := 300 |}.

(** A site of 1001 static pages [/p/0] ... [/p/1000], no minification. *)
Definition numbered_page (n : nat) : string :=
  ("/p/" ++ NilEmpty.string_of_uint (Nat.to_uint n))%string.

Definition large_site : Env :=
  {| rootDir := "/site"; srcDir := "/site"; buildDir := "/site/.nuxt";
     generate_dir := "dist"; generate_interval := 0;
     generate_minify := JUndefined;
     build_publicPath := "/_nuxt/"; router_mode := "history";
     cwd_dirs := ["home"; "user"]; has_builder := false; isUrl_publicPath := false;
     static_exists := false;
     flat_routes := map numbered_page (seq 0 1001);
     promisify_routes := Normal [];
     renderRoute := fun path _ => Normal (mkRenderResult path JNull);
     minify := fun html _ => Normal html;
     schedule := [];
     now_start := 0; now_end := 0 |}.

(** Vocabulary for paths. *)
Fixpoint slash_free (s : string) : bool :=
  match s with
  | EmptyString => true
  | String c r => negb (Ascii.eqb c Path.slash) && slash_free r
  end.

(** A directory or file name: not empty, not [.], not [..], without slash. *)
Definition segment (s : string) : bool :=
  negb (String.eqb s "") && negb (String.eqb s ".")
  && negb (String.eqb s "..") && slash_free s.

(** The segments that normalisation keeps when there is no [..]. *)
Definition kept (segs : list string) : list string :=
  filter (fun s => negb (String.eqb s "" || String.eqb s ".")) segs.

Definition no_dotdot (p : string) : bool :=
  forallb (fun s => negb (String.eqb s "..")) (Path.split p).

(** A route whose [..] segments never climb above the place where the
    route starts; [depth] counts the directories entered so far. *)
Fixpoint inside (depth : nat) (segs : list string) : bool :=
  match segs with
  | [] => true
  | s :: rest =>
      if String.eqb s "" || String.eqb s "." then inside depth rest
      else if String.eqb s ".." then
        match depth with
        | O => false
        | S d => inside d rest
        end
      else inside (S depth) rest
  end.

Definition stays_inside (p : string) : bool := inside 0 (Path.split p).

(** The absolute path made of the given segments. *)
Definition absolute (segs : list string) : string :=
  ("/" ++ Path.intercalate segs)%string.

(** The leading slash of an absolute path. *)
Definition root_prefix (p : string) : string :=
  if Path.is_absolute p then "/" else "".

(** ** Schedules

    The callbacks of a batch run interleaved.  [Merge l r out] says that
    [out] interleaves [l] and [r], each in its own order; [Schedule ls out]
    that [out] interleaves all the lists of [ls]. *)

Inductive Merge {A : Type} : list A -> list A -> list A -> Prop :=
| merge_nil : Merge [] [] []
| merge_left x l r out : Merge l r out -> Merge (x :: l) r (x :: out)
| merge_right x l r out : Merge l r out -> Merge l (x :: r) (x :: out).

Inductive Schedule {A : Type} : list (list A) -> list A -> Prop :=
| schedule_nil : Schedule [] []
| schedule_cons l ls rest out :
    Schedule ls rest -> Merge l rest out -> Schedule (l :: ls) out.

(** ** Further vocabulary: the report, the file system, the delays *)

(** A route whose callback records no failure. *)
Definition route_clean (env : Env) (r : RouteSpec) : bool :=
  match renderRoute env (route r) (payload r) with
  | Throw _ => false
  | Normal res =>
      negb (truthy (res_error res))
      && (if truthy (generate_minify env) then
            match minify env (html res) (generate_minify env) with
            | Normal _ => true
            | Throw _ => false
            end
          else true)
  end.

(** The file-system operations the callback of a route awaits. *)
Definition route_fs_ops (env : Env) (r : RouteSpec) : list FsOp :=
  match renderRoute env (route r) (payload r) with
  | Throw _ => []
  | Normal res =>
      let path := output_path (distPath env) (route r) in
      [Mkdirp (Path.dirname path); WriteFile path (final_html env res)]
  end.

Definition file_of (op : FsOp) : list (string * string) :=
  match op with
  | WriteFile path data => [(path, data)]
  | _ => []
  end.

(** The files written by awaited calls, path and content, in order. *)
Definition written_files (l : list Event) : list (string * string) :=
  flat_map file_of (awaited l).

Definition wait_of (ev : Event) : list (string * Z) :=
  match ev with
  | Callback p (WaitFor ms) => [(p, ms)]
  | _ => []
  end.

(** The calls of [waitFor]: route and delay. *)
Definition wait_calls (l : list Event) : list (string * Z) :=
  flat_map wait_of l.

(** The delays of a batch: position in the batch times the interval. *)
Definition batch_delays (env : Env) (batch : list RouteSpec) : list (string * Z) :=
  combine (map route batch)
          (map (fun i => (Z.of_nat i * generate_interval env)%Z)
               (seq 0 (length batch))).

(** The numeric value of an array-index key. *)
Definition index_of (k : string) : N :=
  match JsObject.array_index k with
  | Some i => i
  | None => 0%N
  end.

(** The sample site served from a CDN: [build.publicPath] is a URL. *)
Definition cdn_site : Env :=
  {| rootDir := "/site"; srcDir := "/site"; buildDir := "/site/.nuxt";
     generate_dir := "dist"; generate_interval := 10;
     generate_minify := JUndefined;
     build_publicPath := "https://cdn.example.org/_nuxt/";
     router_mode := "history";
     cwd_dirs := ["home"; "user"]; has_builder := true;
     isUrl_publicPath := true; static_exists := false;
     flat_routes := ["/"; "/about"];
     promisify_routes := Normal [];
     renderRoute := sample_render; minify := sample_minify;
     schedule := [];
     now_start := 0; now_end := 120 |}.

(** The order in which [index_props] keeps the array-index properties. *)
Definition by_index {V : Type} (e1 e2 : N * (string * V)) : Prop :=
  (fst e1 <= fst e2)%N.

(** ** Suspended callbacks and the batches of a run *)

(** The state after more entries of [errors] and more events. *)
Definition extend (st : State) (es : list Failure.t) (evs : list Event) : State :=
  mkState (errors st ++ es) (log st ++ evs) (pending st).

(** What resuming a suspended callback once appends, and where it is
    suspended next. *)
Definition step_errors (env : Env) (t : Task) : list Failure.t :=
  errors (snd (resume env t initial)).

Definition step_log (env : Env) (t : Task) : list Event :=
  log (snd (resume env t initial)).

Definition next_task (env : Env) (t : Task) : Task :=
  match fst (resume env t initial) with
  | Normal t' => t'
  | Throw _ => Finished
  end.

(** What a suspended callback still appends until it returns. *)
Definition rest_errors (env : Env) (t : Task) : list Failure.t :=
  errors (snd (finish env t initial)).

Definition rest_log (env : Env) (t : Task) : list Event :=
  log (snd (finish env t initial)).

(** The calls of [waitFor] made while [map] starts the callbacks of a
    batch, the first one at position [n]. *)
Fixpoint batch_waits (env : Env) (n : nat) (batch : list RouteSpec) : list Event :=
  match batch with
  | [] => []
  | r :: rest =>
      Callback (route r) (WaitFor (Z.of_nat n * generate_interval env))
      :: batch_waits env (S n) rest
  end.

(** [LoopRun env bs es evs]: the loop over the batches [bs] can append the
    failures [es] and the events [evs].  For each batch in turn: the calls
    of [waitFor], then an interleaving of what the callbacks do after their
    wait, then the settled [Promise.all]; the failures of a batch are
    pushed in an interleaving of what each callback pushes. *)
Inductive LoopRun (env : Env)
  : list (list RouteSpec) -> list Failure.t -> list Event -> Prop :=
| loop_done : LoopRun env [] [] []
| loop_batch b bs es evs es' evs' :
    Schedule (map (route_errors env) b) es ->
    Schedule (map (route_steps env) b) evs ->
    LoopRun env bs es' evs' ->
    LoopRun env (b :: bs) (es ++ es')
            (batch_waits env 0 b ++ evs ++ Main AwaitAll :: evs').

(** The events of the callback of route [p], in order. *)
Definition of_route (p : string) (ev : Event) : bool :=
  match ev with
  | Callback q _ => String.eqb q p
  | Main _ => false
  end.

Definition events_of (p : string) (l : list Event) : list Event :=
  filter (of_route p) l.

(** The log of the run in which every callback runs to its end before the
    next one starts. *)
Definition sequential_log (env : Env) (doBuild : bool)
           (routes : list RouteSpec) (errs : list Failure.t) : list Event :=
  prepare_log env doBuild ++ resolve_log env ++ loop_log env routes
  ++ [Main (Detach (WriteFile (nojekyllPath env) ""))] ++ report_log errs.

(** The callback events between two settled [Promise.all], batch by batch;
    [cur] holds the events of the open batch, last one first. *)
Fixpoint batch_events (cur : list Event) (l : list Event) : list (list Event) :=
  match l with
  | [] => []
  | Main AwaitAll :: rest => rev cur :: batch_events [] rest
  | Callback p e :: rest => batch_events (Callback p e :: cur) rest
  | Main _ :: rest => batch_events cur rest
  end.

(** * Properties *)

(** ** Plain objects *)

Section ObjectFacts.
Context {V : Type}.
Implicit Types (o : JsObject.t V) (k : string) (v : V).

Lemma has_In k o : JsObject.has k o = true <-> In k (map fst o).
Proof.
  induction o as [|[k' v'] r IH]; simpl.
  - split; [discriminate | tauto].
  - rewrite orb_true_iff, IH, String.eqb_eq. intuition congruence.
Qed.

Lemma has_mem k o : JsObject.has k o = mem k (map fst o).
Proof.
  induction o as [|[k' v'] r IH]; simpl; [reflexivity|].
  now rewrite IH.
Qed.

Lemma overwrite_keys k v o :
  map fst (JsObject.overwrite k v o) = map fst o.
Proof.
  induction o as [|[k' v'] r IH]; simpl; [reflexivity|].
  destruct (String.eqb k k'); simpl; [reflexivity | now rewrite IH].
Qed.

Lemma set_keys k v o :
  map fst (JsObject.set k v o) =
  if String.eqb k "__proto__" || JsObject.has k o
  then map fst o else map fst o ++ [k].
Proof.
  unfold JsObject.set.
  destruct (String.eqb k "__proto__"); simpl; [reflexivity|].
  destruct (JsObject.has k o).
  - apply overwrite_keys.
  - now rewrite map_app.
Qed.

Lemma set_NoDup k v o :
  NoDup (map fst o) -> NoDup (map fst (JsObject.set k v o)).
Proof.
  intros Hnd. rewrite set_keys.
  destruct (String.eqb k "__proto__"); simpl; [assumption|].
  destruct (JsObject.has k o) eqn:Hk; [assumption|].
  apply NoDup_app; [assumption | constructor; [tauto | constructor] |].
  intros x Hx [<-|[]].
  apply has_In in Hx. congruence.
Qed.

Lemma get_app_miss k o o' :
  JsObject.has k o = false -> JsObject.get k (o ++ o') = JsObject.get k o'.
Proof.
  induction o as [|[k' v'] r IH]; simpl; [reflexivity|].
  intros H. apply orb_false_iff in H as [-> H]. now apply IH.
Qed.

Lemma get_overwrite_same k v o :
  JsObject.has k o = true -> JsObject.get k (JsObject.overwrite k v o) = Some v.
Proof.
  induction o as [|[k' v'] r IH]; simpl; [discriminate|].
  destruct (String.eqb k k') eqn:E; simpl.
  - now rewrite E.
  - rewrite E. exact IH.
Qed.

Lemma get_overwrite_other k k' v o :
  k' <> k -> JsObject.get k' (JsObject.overwrite k v o) = JsObject.get k' o.
Proof.
  intros Hne.
  induction o as [|[k0 v0] r IH]; simpl; [reflexivity|].
  destruct (String.eqb k k0) eqn:E; simpl.
  - apply String.eqb_eq in E. subst k0.
    destruct (String.eqb k' k) eqn:E'; [|reflexivity].
    apply String.eqb_eq in E'. contradiction.
  - now rewrite IH.
Qed.

Lemma get_app_hit k o o' :
  JsObject.has k o = true -> JsObject.get k (o ++ o') = JsObject.get k o.
Proof.
  induction o as [|[k' v'] r IH]; simpl; [discriminate|].
  destruct (String.eqb k k'); simpl; [reflexivity | exact IH].
Qed.

Lemma get_set_same k v o :
  k <> "__proto__" -> JsObject.get k (JsObject.set k v o) = Some v.
Proof.
  intros Hk. unfold JsObject.set.
  apply String.eqb_neq in Hk. rewrite Hk.
  destruct (JsObject.has k o) eqn:H.
  - now apply get_overwrite_same.
  - rewrite get_app_miss by assumption. simpl. now rewrite String.eqb_refl.
Qed.

Lemma get_set_other k k' v o :
  k' <> k -> JsObject.get k' (JsObject.set k v o) = JsObject.get k' o.
Proof.
  intros Hne. unfold JsObject.set.
  destruct (String.eqb k "__proto__"); [reflexivity|].
  destruct (JsObject.has k o) eqn:H.
  - now apply get_overwrite_other.
  - destruct (JsObject.has k' o) eqn:H'.
    + now apply get_app_hit.
    + rewrite get_app_miss by assumption. simpl.
      apply String.eqb_neq in Hne. rewrite Hne.
      clear -H'. induction o as [|[k0 v0] r IH]; simpl in *; [reflexivity|].
      apply orb_false_iff in H' as [-> H']. now apply IH.
Qed.

Lemma get_In k v o : JsObject.get k o = Some v -> In (k, v) o.
Proof.
  induction o as [|[k' v'] r IH]; simpl; [discriminate|].
  destruct (String.eqb k k') eqn:E.
  - apply String.eqb_eq in E. intros [= ->]. left. now subst.
  - intros H. right. now apply IH.
Qed.

Lemma In_get k v o : NoDup (map fst o) -> In (k, v) o -> JsObject.get k o = Some v.
Proof.
  induction o as [|[k' v'] r IH]; simpl; [tauto|].
  intros Hnd [[= -> ->]|Hin].
  - now rewrite String.eqb_refl.
  - inversion_clear Hnd as [|? ? Hnotin Hnd'].
    destruct (String.eqb k k') eqn:E.
    + apply String.eqb_eq in E. subst k'. exfalso. apply Hnotin.
      change k with (fst (k, v)). now apply in_map.
    + now apply IH.
Qed.

Lemma insert_sorted_perm i (p : string * V) l :
  Permutation (JsObject.insert_sorted i p l) ((i, p) :: l).
Proof.
  induction l as [|[j q] r IH]; simpl; [reflexivity|].
  destruct (i <=? j)%N; [reflexivity|].
  rewrite IH. apply perm_swap.
Qed.

Lemma entries_perm o : Permutation (JsObject.entries o) o.
Proof.
  unfold JsObject.entries, JsObject.string_props.
  induction o as [|[k v] r IH]; simpl; [reflexivity|].
  unfold JsObject.is_array_index at 1. simpl.
  destruct (JsObject.array_index k) as [i|]; simpl.
  - rewrite insert_sorted_perm. simpl. now constructor.
  - rewrite <- Permutation_middle. now constructor.
Qed.

Lemma index_props_ordinary o :
  Forall (fun k => JsObject.is_array_index k = false) (map fst o) ->
  JsObject.index_props o = [].
Proof.
  induction o as [|[k v] r IH]; simpl; [reflexivity|].
  intros H. inversion_clear H as [|? ? Hk Hr].
  unfold JsObject.is_array_index in Hk.
  destruct (JsObject.array_index k); [discriminate | now apply IH].
Qed.

Lemma string_props_ordinary o :
  Forall (fun k => JsObject.is_array_index k = false) (map fst o) ->
  JsObject.string_props o = o.
Proof.
  unfold JsObject.string_props.
  induction o as [|[k v] r IH]; simpl; [reflexivity|].
  intros H. inversion_clear H as [|? ? Hk Hr].
  rewrite Hk. simpl. now rewrite IH.
Qed.

Lemma entries_ordinary o :
  Forall (fun k => JsObject.is_array_index k = false) (map fst o) ->
  JsObject.entries o = o.
Proof.
  intros H. unfold JsObject.entries.
  now rewrite index_props_ordinary, string_props_ordinary.
Qed.

End ObjectFacts.

(** ** Lists of paths *)

Lemma mem_In p l : mem p l = true <-> In p l.
Proof.
  unfold mem. rewrite existsb_exists. split.
  - intros (x & Hx & E). apply String.eqb_eq in E. now subst.
  - intros H. exists p. split; [assumption | apply String.eqb_refl].
Qed.

Lemma mem_app p l l' : mem p (l ++ l') = mem p l || mem p l'.
Proof. apply existsb_app. Qed.

Lemma filter_comm {A} (f g : A -> bool) l :
  filter f (filter g l) = filter g (filter f l).
Proof.
  induction l as [|x r IH]; simpl; [reflexivity|].
  destruct (f x) eqn:F, (g x) eqn:G; simpl; rewrite ?F, ?G, IH; reflexivity.
Qed.

Lemma filter_both {A} (f g : A -> bool) l :
  filter f (filter g l) = filter (fun x => g x && f x) l.
Proof.
  induction l as [|x r IH]; simpl; [reflexivity|].
  destruct (g x); simpl; [destruct (f x)|]; now rewrite IH.
Qed.

Lemma filter_absent (f : string -> bool) x l :
  f x = false ->
  filter f (filter (fun y => negb (String.eqb y x)) l) = filter f l.
Proof.
  intros Hx. induction l as [|y r IH]; simpl; [reflexivity|].
  destruct (String.eqb y x) eqn:E; simpl.
  - apply String.eqb_eq in E. subst y. now rewrite Hx.
  - now rewrite IH.
Qed.

Lemma filter_dedup f l : filter f (dedup l) = dedup (filter f l).
Proof.
  induction l as [|x r IH]; simpl; [reflexivity|].
  destruct (f x) eqn:F; simpl.
  - now rewrite filter_comm, IH.
  - now rewrite filter_absent.
Qed.

Lemma In_dedup x l : In x (dedup l) <-> In x l.
Proof.
  induction l as [|y r IH]; simpl; [tauto|].
  rewrite filter_In, IH, negb_true_iff, String.eqb_neq.
  destruct (string_dec y x); intuition congruence.
Qed.

Lemma NoDup_dedup l : NoDup (dedup l).
Proof.
  induction l as [|x r IH]; simpl; constructor.
  - rewrite filter_In, String.eqb_refl. intros [_ H]. discriminate.
  - now apply NoDup_filter.
Qed.

Lemma mem_dedup p l : mem p (dedup l) = mem p l.
Proof.
  apply eq_true_iff_eq. rewrite !mem_In. apply In_dedup.
Qed.

(** ** The route map *)

Section FoldSet.
Context {A V : Type} (key : A -> string) (val : A -> V).

Lemma fold_upsert_keys (l : list A) (o : JsObject.t V) :
  Forall (fun a => key a <> "__proto__") l ->
  map fst (fold_left (upsert key val) l o) =
  map fst o ++ dedup (filter (fun p => negb (mem p (map fst o))) (map key l)).
Proof.
  revert o. induction l as [|a r IH]; intros o Hl; simpl.
  - now rewrite app_nil_r.
  - inversion_clear Hl as [|? ? Ha Hr].
    rewrite IH by assumption.
    assert (Hs : map fst (upsert key val o a) =
                 if JsObject.has (key a) o then map fst o else map fst o ++ [key a]).
    { unfold upsert. rewrite set_keys.
      apply String.eqb_neq in Ha. now rewrite Ha. }
    rewrite Hs, <- has_mem.
    destruct (JsObject.has (key a) o) eqn:H; simpl; [reflexivity|].
    rewrite <- app_assoc. simpl. do 2 f_equal.
    rewrite filter_dedup, filter_both. f_equal.
    apply filter_ext. intros p.
    rewrite mem_app. simpl. now rewrite orb_false_r, negb_orb.
Qed.

Lemma fold_upsert_NoDup (l : list A) (o : JsObject.t V) :
  NoDup (map fst o) -> NoDup (map fst (fold_left (upsert key val) l o)).
Proof.
  revert o. induction l as [|a r IH]; intros o Ho; simpl; [assumption|].
  apply IH, set_NoDup, Ho.
Qed.

Lemma fold_upsert_In k (l : list A) (o : JsObject.t V) :
  In k (map fst (fold_left (upsert key val) l o)) <->
  In k (map fst o) \/ (In k (map key l) /\ k <> "__proto__").
Proof.
  revert o. induction l as [|a r IH]; intros o; simpl; [tauto|].
  rewrite IH. unfold upsert at 1. rewrite set_keys.
  destruct (String.eqb (key a) "__proto__") eqn:E; simpl.
  - apply String.eqb_eq in E. intuition congruence.
  - apply String.eqb_neq in E.
    destruct (JsObject.has (key a) o) eqn:H.
    + apply has_In in H. intuition congruence.
    + rewrite in_app_iff. simpl. intuition congruence.
Qed.

Lemma fold_upsert_Forall (P : string * V -> Prop) (l : list A) (o : JsObject.t V) :
  (forall a, P (key a, val a)) ->
  Forall P o -> Forall P (fold_left (upsert key val) l o).
Proof.
  intros HP. revert o. induction l as [|a r IH]; intros o Ho; simpl; [assumption|].
  apply IH. unfold upsert, JsObject.set.
  destruct (String.eqb (key a) "__proto__"); [assumption|].
  destruct (JsObject.has (key a) o).
  - clear IH. induction o as [|[k' v'] o' IHo]; simpl; [constructor|].
    inversion_clear Ho as [|? ? H1 H2].
    destruct (String.eqb (key a) k') eqn:E.
    + apply String.eqb_eq in E. subst k'. constructor; [apply HP | assumption].
    + constructor; [assumption | now apply IHo].
  - apply Forall_app. split; [assumption | constructor; [apply HP | constructor]].
Qed.

End FoldSet.

Lemma fill_known_get p static :
  p <> "__proto__" ->
  JsObject.get p (fill_known static JsObject.empty) =
  if mem p static then Some (mkRouteSpec p JNull) else None.
Proof.
  intros Hp. unfold fill_known.
  change (if mem p static then Some (mkRouteSpec p JNull) else None)
    with (if mem p static then Some (mkRouteSpec p JNull)
          else JsObject.get p (@JsObject.empty RouteSpec)).
  generalize (@JsObject.empty RouteSpec).
  induction static as [|r rest IH]; intros o; simpl; [reflexivity|].
  rewrite IH. destruct (mem p rest) eqn:M.
  - now rewrite orb_true_r.
  - rewrite orb_false_r. destruct (String.eqb p r) eqn:E.
    + apply String.eqb_eq in E. subst r. now rewrite get_set_same.
    + apply String.eqb_neq in E. now rewrite get_set_other.
Qed.

Lemma fill_generated_get p items o :
  p <> "__proto__" ->
  JsObject.get p (fill_generated items o) =
  match last_item p items with
  | Some it => Some (mkRouteSpec p (item_payload it))
  | None => JsObject.get p o
  end.
Proof.
  intros Hp. unfold fill_generated. revert o.
  induction items as [|it rest IH]; intros o; simpl; [reflexivity|].
  rewrite IH. destruct (last_item p rest); [reflexivity|].
  destruct (String.eqb (item_path it) p) eqn:E.
  - apply String.eqb_eq in E. rewrite E. now rewrite get_set_same.
  - apply String.eqb_neq in E. rewrite get_set_other; congruence.
Qed.

Lemma decorate_values items static :
  decorateWithPayloads items static = JsObject.values (route_map items static).
Proof. reflexivity. Qed.

Lemma route_map_NoDup items static : NoDup (map fst (route_map items static)).
Proof.
  unfold route_map, fill_generated, fill_known.
  apply (fold_upsert_NoDup item_path
           (fun it => mkRouteSpec (item_path it) (item_payload it))).
  apply (fold_upsert_NoDup (fun r => r) (fun r => mkRouteSpec r JNull)).
  constructor.
Qed.

Lemma route_map_keyed items static :
  Forall (fun e => route (snd e) = fst e /\ fst e <> "__proto__")
         (route_map items static).
Proof.
  unfold route_map, fill_generated, fill_known.
  assert (Hk : forall (l : list string) o,
    Forall (fun e : string * RouteSpec => route (snd e) = fst e) o ->
    Forall (fun e : string * RouteSpec => route (snd e) = fst e)
      (fold_left (fun m r => JsObject.set r (mkRouteSpec r JNull) m) l o)).
  { intros l o. now apply (fold_upsert_Forall (fun r => r) (fun r => mkRouteSpec r JNull)). }
  assert (Hg : forall (l : list DynamicRouteItem) o,
    Forall (fun e : string * RouteSpec => route (snd e) = fst e) o ->
    Forall (fun e : string * RouteSpec => route (snd e) = fst e)
      (fold_left (fun m it => JsObject.set (item_path it)
                    (mkRouteSpec (item_path it) (item_payload it)) m) l o)).
  { intros l o.
    now apply (fold_upsert_Forall item_path
                 (fun it => mkRouteSpec (item_path it) (item_payload it))). }
  specialize (Hg items _ (Hk static [] (Forall_nil _))).
  rewrite Forall_forall in *. intros [k v] Hin. split; [now apply Hg|].
  simpl. apply (in_map fst) in Hin. simpl in Hin.
  apply (fold_upsert_In item_path
           (fun it => mkRouteSpec (item_path it) (item_payload it))) in Hin.
  destruct Hin as [Hin|[_ H]]; [|assumption].
  apply (fold_upsert_In (fun r => r) (fun r => mkRouteSpec r JNull)) in Hin.
  destruct Hin as [[]|[_ H]]. assumption.
Qed.

Lemma route_map_get p items static :
  p <> "__proto__" ->
  JsObject.get p (route_map items static) =
  match last_item p items with
  | Some it => Some (mkRouteSpec p (item_payload it))
  | None => if mem p static then Some (mkRouteSpec p JNull) else None
  end.
Proof.
  intros Hp. unfold route_map.
  rewrite fill_generated_get by assumption.
  now rewrite fill_known_get.
Qed.

Lemma last_item_path p items it : last_item p items = Some it -> item_path it = p.
Proof.
  induction items as [|x r IH]; simpl; [discriminate|].
  destruct (last_item p r); [assumption|].
  destruct (String.eqb (item_path x) p) eqn:E; [|discriminate].
  intros [= <-]. now apply String.eqb_eq.
Qed.

Lemma last_item_In p items it : last_item p items = Some it -> In it items.
Proof.
  induction items as [|x r IH]; simpl; [discriminate|].
  destruct (last_item p r); [intros H; right; now apply IH|].
  destruct (String.eqb (item_path x) p); [|discriminate].
  intros [= <-]. now left.
Qed.

Lemma last_item_None p items :
  last_item p items = None <-> ~ In p (map item_path items).
Proof.
  induction items as [|x r IH]; simpl; [tauto|].
  destruct (last_item p r) eqn:L.
  - split; [discriminate|]. intros H. exfalso. apply H. right.
    destruct (in_dec string_dec p (map item_path r)) as [i|n]; [exact i|].
    apply IH in n. discriminate.
  - destruct (String.eqb (item_path x) p) eqn:E.
    + apply String.eqb_eq in E. split; [discriminate | intros H; tauto].
    + apply String.eqb_neq in E. split; [|reflexivity].
      intros _ [H|H]; [contradiction | now apply IH in H].
Qed.

Lemma decorate_routes items static :
  map route (decorateWithPayloads items static) =
  JsObject.keys (route_map items static).
Proof.
  rewrite decorate_values. unfold JsObject.values, JsObject.keys.
  rewrite map_map. apply map_ext_in. intros e He.
  pose proof (route_map_keyed items static) as Hk.
  rewrite Forall_forall in Hk. apply Hk.
  eapply Permutation_in; [apply entries_perm | exact He].
Qed.

Lemma decorate_NoDup items static :
  NoDup (map route (decorateWithPayloads items static)).
Proof.
  rewrite decorate_routes. unfold JsObject.keys.
  eapply Permutation_NoDup; [|apply route_map_NoDup].
  apply Permutation_map, Permutation_sym, entries_perm.
Qed.

Lemma decorate_In_get r items static :
  In r (decorateWithPayloads items static) <->
  JsObject.get (route r) (route_map items static) = Some r.
Proof.
  rewrite decorate_values. unfold JsObject.values.
  pose proof (route_map_keyed items static) as Hk.
  rewrite Forall_forall in Hk.
  split.
  - intros H. apply in_map_iff in H as ([k v] & <- & He).
    apply (Permutation_in _ (entries_perm _)) in He.
    destruct (Hk _ He) as [Hr _]. simpl in *. rewrite Hr.
    apply In_get; [apply route_map_NoDup | assumption].
  - intros H. apply get_In in H. apply in_map_iff.
    exists (route r, r). split; [reflexivity|].
    eapply Permutation_in; [apply Permutation_sym, entries_perm | exact H].
Qed.

Lemma decorate_payload r items static :
  In r (decorateWithPayloads items static) ->
  payload r = merged_payload items (route r).
Proof.
  intros H. pose proof H as Hget. apply decorate_In_get in Hget.
  assert (Hp : route r <> "__proto__").
  { apply get_In in Hget.
    pose proof (route_map_keyed items static) as Hk.
    rewrite Forall_forall in Hk. now destruct (Hk _ Hget). }
  rewrite route_map_get in Hget by assumption.
  unfold merged_payload. destruct (last_item (route r) items).
  - now injection Hget as <-.
  - destruct (mem (route r) static); [now injection Hget as <- | discriminate].
Qed.

Lemma ordinary_key_spec p :
  JsObject.ordinary_key p = true ->
  JsObject.is_array_index p = false /\ p <> "__proto__".
Proof.
  unfold JsObject.ordinary_key. rewrite andb_true_iff, !negb_true_iff.
  intros [H1 H2]. split; [assumption | now apply String.eqb_neq].
Qed.

Lemma leading_slash_ordinary rest :
  JsObject.ordinary_key (String Path.slash rest) = true.
Proof. reflexivity. Qed.

Lemma route_map_keys_ordinary static items :
  Forall (fun p => JsObject.ordinary_key p = true) (static ++ map item_path items) ->
  map fst (route_map items static) = merged_paths static items.
Proof.
  intros H. apply Forall_app in H as [Hs Hi].
  unfold route_map, fill_generated, fill_known, merged_paths.
  change (fun m it => JsObject.set (item_path it)
                        (mkRouteSpec (item_path it) (item_payload it)) m)
    with (upsert item_path (fun it => mkRouteSpec (item_path it) (item_payload it))).
  change (fun m r => JsObject.set r (mkRouteSpec r JNull) m)
    with (upsert (fun r : string => r) (fun r => mkRouteSpec r JNull)).
  rewrite fold_upsert_keys.
  - rewrite fold_upsert_keys.
    + simpl. rewrite map_id. f_equal.
      * f_equal. clear. induction static as [|x r IH]; simpl; congruence.
      * f_equal. apply filter_ext. intros p. f_equal.
        rewrite mem_dedup. f_equal.
        clear. induction static as [|x r IH]; simpl; congruence.
    + eapply Forall_impl; [|exact Hs]. intros p Hp.
      now apply ordinary_key_spec in Hp.
  - rewrite Forall_forall in *. intros it Hit.
    apply (ordinary_key_spec (item_path it)), Hi, in_map, Hit.
Qed.

(** C1, as stated, fails: the dynamic route ['7'] is an array-index key of
    [routeMap], so [_.values] lists it before the static route [/b]; and the
    payload [0] given for [/b] is merged as [null]. *)
Lemma index_key_is_listed_first :
  decorateWithPayloads [ItemString "7"; ItemObject "/b" (JNum 0)] ["/b"]
  = [mkRouteSpec "7" JNull; mkRouteSpec "/b" JNull] /\
  merged_paths ["/b"] [ItemString "7"; ItemObject "/b" (JNum 0)] = ["/b"; "7"] /\
  map route (decorateWithPayloads [ItemString "7"; ItemObject "/b" (JNum 0)] ["/b"])
  <> merged_paths ["/b"] [ItemString "7"; ItemObject "/b" (JNum 0)].
Proof. repeat split. discriminate. Qed.

(** C1, amended. On paths that are ordinary property keys (every path with
    a leading slash is one), the list returned by [decorateWithPayloads]
    holds exactly one RouteSpec per distinct path of the two inputs; the
    static paths come first, each at the position of its first occurrence,
    followed by the paths that only the dynamic items introduce, in the
    order of their first occurrence there; and every entry carries
    [route.payload || null] of the last dynamic item naming its path, or
    [null] when no dynamic item names it. *)
Theorem decorateWithPayloads_merged_list
        (static : list string) (items : list DynamicRouteItem) :
  Forall (fun p => JsObject.ordinary_key p = true)
         (static ++ map item_path items) ->
  let merged := decorateWithPayloads items static in
  NoDup (map route merged) /\
  (forall p, In p (map route merged) <->
             In p static \/ In p (map item_path items)) /\
  map route merged = merged_paths static items /\
  (forall r, In r merged -> payload r = merged_payload items (route r)).
Proof.
  intros Hord merged.
  assert (Hpaths : map route merged = merged_paths static items).
  { unfold merged. rewrite decorate_routes. unfold JsObject.keys.
    rewrite entries_ordinary.
    - now apply route_map_keys_ordinary.
    - rewrite route_map_keys_ordinary by assumption.
      rewrite Forall_forall in *. intros p Hp.
      apply ordinary_key_spec, Hord.
      unfold merged_paths in Hp.
      rewrite in_app_iff, !In_dedup, filter_In in Hp.
      rewrite in_app_iff. tauto. }
  split; [apply decorate_NoDup|].
  split; [|split; [exact Hpaths | intros r; apply decorate_payload]].
  intros p. rewrite Hpaths. unfold merged_paths.
  rewrite in_app_iff, !In_dedup, filter_In, negb_true_iff.
  destruct (mem p static) eqn:M.
  - apply mem_In in M. intuition congruence.
  - assert (~ In p static) by (rewrite <- mem_In; congruence). tauto.
Qed.

Lemma decorateWithPayloads_merged_list_witness :
  Forall (fun p => JsObject.ordinary_key p = true)
         (["/a"; "/b"]
          ++ map item_path [ItemObject "/b" (JNum 1); ItemObject "/c" (JNum 2)]) /\
  map route (decorateWithPayloads
               [ItemObject "/b" (JNum 1); ItemObject "/c" (JNum 2)] ["/a"; "/b"])
  = merged_paths ["/a"; "/b"] [ItemObject "/b" (JNum 1); ItemObject "/c" (JNum 2)].
Proof.
  assert (H : Forall (fun p => JsObject.ordinary_key p = true)
                (["/a"; "/b"]
                 ++ map item_path [ItemObject "/b" (JNum 1); ItemObject "/c" (JNum 2)])).
  { simpl. repeat constructor. }
  split; [exact H|].
  exact (proj1 (proj2 (proj2
    (decorateWithPayloads_merged_list ["/a"; "/b"]
       [ItemObject "/b" (JNum 1); ItemObject "/c" (JNum 2)] H)))).
Defined.

(** C4, as stated, fails on a falsy payload: the static path [/a] overridden
    by the dynamic item [{route: '/a', payload: 0}] is merged with payload
    [null]. *)
Lemma falsy_payload_not_kept :
  In "/a" ["/a"] /\
  In (ItemObject "/a" (JNum 0)) [ItemObject "/a" (JNum 0)] /\
  ~ (forall r,
        In r (decorateWithPayloads [ItemObject "/a" (JNum 0)] ["/a"]) ->
        route r = "/a" -> payload r = JNum 0).
Proof.
  split; [now left|]. split; [now left|].
  intros H. specialize (H (mkRouteSpec "/a" JNull)).
  simpl in H. discriminate H; auto.
Qed.

(** C4, amended. For a path that is both a static path and named by a
    dynamic item, the merged RouteSpec carries [payload || null] of the last
    dynamic item naming it: that item's payload when it is truthy, and
    [null] when it is falsy or absent. *)
Theorem decorateWithPayloads_payload_override
        (static : list string) (items : list DynamicRouteItem)
        (p : string) (it : DynamicRouteItem) :
  In p static ->
  last_item p items = Some it ->
  let merged := decorateWithPayloads items static in
  let expected := if truthy (item_raw_payload it) then item_raw_payload it else JNull in
  (forall r, In r merged -> route r = p -> payload r = expected) /\
  (p <> "__proto__" -> In (mkRouteSpec p expected) merged).
Proof.
  intros Hs Hl merged expected. split.
  - intros r Hr <-. rewrite (decorate_payload r items static Hr).
    unfold merged_payload. now rewrite Hl.
  - intros Hp. apply decorate_In_get. simpl.
    rewrite route_map_get by assumption. now rewrite Hl.
Qed.

Lemma decorateWithPayloads_payload_override_witness :
  In (mkRouteSpec "/b" (JNum 1))
     (decorateWithPayloads [ItemObject "/b" (JNum 1); ItemObject "/c" (JNum 2)]
                           ["/a"; "/b"]).
Proof.
  refine (proj2 (decorateWithPayloads_payload_override
            ["/a"; "/b"] [ItemObject "/b" (JNum 1); ItemObject "/c" (JNum 2)]
            "/b" (ItemObject "/b" (JNum 1)) _ _) _).
  - simpl. tauto.
  - reflexivity.
  - discriminate.
Defined.

(** ** Interleavings *)

Section Schedules.
Context {A B : Type} (f : A -> list B).

Lemma merge_empty_right (l out : list A) : Merge l [] out -> out = l.
Proof.
  remember (@nil A) as r eqn:Er. induction 1; try discriminate;
    [reflexivity | f_equal; auto].
Qed.

Lemma merge_empty_left (r out : list A) : Merge [] r out -> out = r.
Proof.
  remember (@nil A) as l eqn:El. induction 1; try discriminate;
    [reflexivity | f_equal; auto].
Qed.

Lemma merge_block (a l r out : list A) :
  Merge l r out -> Merge (a ++ l) r (a ++ out).
Proof. intros H. induction a; simpl; [assumption | now constructor]. Qed.

Lemma merge_block_right (a l r out : list A) :
  Merge l r out -> Merge l (a ++ r) (a ++ out).
Proof. intros H. induction a; simpl; [assumption | now constructor]. Qed.

Lemma merge_sequential (l r : list A) : Merge l r (l ++ r).
Proof.
  induction l as [|x l IH]; simpl; [|now constructor].
  induction r; now constructor.
Qed.

Lemma merge_perm (l r out : list A) : Merge l r out -> Permutation out (l ++ r).
Proof.
  induction 1; simpl; [constructor | now constructor |].
  now apply Permutation_cons_app.
Qed.

Lemma schedule_sequential (ls : list (list A)) : Schedule ls (concat ls).
Proof.
  induction ls as [|l ls IH]; simpl; [constructor|].
  econstructor; [exact IH | apply merge_sequential].
Qed.

Lemma schedule_perm (ls : list (list A)) out :
  Schedule ls out -> Permutation out (concat ls).
Proof.
  induction 1 as [|l ls rest out _ IH Hm]; simpl; [constructor|].
  apply merge_perm in Hm. rewrite Hm. now apply Permutation_app_head.
Qed.

(** A callback that runs a little further: what it appends comes first. *)
Lemma schedule_head (a l : list A) ls out :
  Schedule (l :: ls) out -> Schedule ((a ++ l) :: ls) (a ++ out).
Proof.
  inversion_clear 1 as [|? ? rest ? Hs Hm].
  econstructor; [exact Hs | now apply merge_block].
Qed.

Lemma schedule_tail (a l : list A) ls ls' out :
  (forall out', Schedule ls' out' -> Schedule ls (a ++ out')) ->
  Schedule (l :: ls') out -> Schedule (l :: ls) (a ++ out).
Proof.
  intros Hstep. inversion_clear 1 as [|? ? rest ? Hs Hm].
  econstructor; [apply Hstep, Hs | now apply merge_block_right].
Qed.

End Schedules.

Lemma merge_flat_map {A B} (f : A -> list B) (l r out : list A) :
  Merge l r out -> Merge (flat_map f l) (flat_map f r) (flat_map f out).
Proof.
  induction 1; simpl;
    [constructor | now apply merge_block | now apply merge_block_right].
Qed.

Lemma flat_map_nested {A B C} (f : B -> list C) (g : A -> list B) (l : list A) :
  flat_map f (flat_map g l) = flat_map (fun x => flat_map f (g x)) l.
Proof.
  induction l as [|x r IH]; simpl; [reflexivity|].
  now rewrite flat_map_app, IH.
Qed.

Lemma flat_map_nil {A B} (f : A -> list B) (l : list A) :
  (forall x, In x l -> f x = []) -> flat_map f l = [].
Proof.
  induction l as [|x r IH]; simpl; intros H; [reflexivity|].
  rewrite H by now left. apply IH. intros y Hy. apply H. now right.
Qed.

Lemma flat_map_only {A B} (key : A -> string) (g : A -> list B) (l : list A) (r : A) :
  NoDup (map key l) -> In r l ->
  (forall x, key x <> key r -> g x = []) ->
  flat_map g l = g r.
Proof.
  intros Hnd Hin Hg. induction l as [|x rest IH]; [contradiction|].
  simpl in *. inversion_clear Hnd as [|? ? Hx Hrest].
  destruct Hin as [->|Hin].
  - rewrite flat_map_nil; [apply app_nil_r|].
    intros y Hy. apply Hg. intros E. apply Hx. rewrite <- E. now apply in_map.
  - rewrite Hg, IH; try assumption; [reflexivity|].
    intros E. apply Hx. rewrite E. now apply in_map.
Qed.

Lemma filter_as_flat_map {A} (g : A -> bool) (l : list A) :
  filter g l = flat_map (fun x => if g x then [x] else []) l.
Proof.
  induction l as [|x l IH]; simpl; [reflexivity|].
  destruct (g x); simpl; now rewrite IH.
Qed.

(** A projection that only sees the callback of route [p] does not see how
    the callbacks of a batch are interleaved. *)
Lemma schedule_local {A B} (h : RouteSpec -> list A) (f : A -> list B) (p : string) :
  (forall r, route r <> p -> flat_map f (h r) = []) ->
  forall batch out,
    NoDup (map route batch) ->
    Schedule (map h batch) out ->
    flat_map f out = flat_map f (flat_map h batch).
Proof.
  intros Hlocal. induction batch as [|r rest IH]; intros out Hnd Hs.
  - inversion_clear Hs. reflexivity.
  - simpl in Hnd, Hs. inversion_clear Hnd as [|? ? Hr Hrest].
    inversion_clear Hs as [|? ? others ? Hs' Hm].
    apply (merge_flat_map f) in Hm. rewrite (IH _ Hrest Hs') in Hm.
    simpl. rewrite flat_map_app.
    destruct (string_dec (route r) p) as [Hp|Hp].
    + assert (Hnone : flat_map f (flat_map h rest) = []).
      { rewrite flat_map_nested. apply flat_map_nil. intros x Hx.
        apply Hlocal. intros E. apply Hr. rewrite Hp, <- E. now apply in_map. }
      rewrite Hnone in *. apply merge_empty_right in Hm.
      now rewrite Hm, app_nil_r.
    + rewrite (Hlocal r Hp) in *. now apply merge_empty_left in Hm.
Qed.

(** ** Suspended callbacks *)

Lemma extend_nil st : extend st [] [] = st.
Proof. unfold extend. rewrite !app_nil_r. now destruct st. Qed.

Lemma extend_extend st es evs es' evs' :
  extend (extend st es evs) es' evs' = extend st (es ++ es') (evs ++ evs').
Proof. unfold extend. simpl. now rewrite !app_assoc. Qed.

Section Tasks.
Variable env : Env.

Ltac run_cases :=
  repeat match goal with
         | |- context [renderRoute env ?p ?v] =>
             destruct (renderRoute env p v) as [?res|?err]; simpl
         | |- context [truthy ?v] => destruct (truthy v); simpl
         | |- context [minify env ?h ?c] =>
             destruct (minify env h c) as [?m|?e]; simpl
         end.

Lemma resume_frame t st :
  resume env t st =
  (Normal (next_task env t), extend st (step_errors env t) (step_log env t)).
Proof.
  unfold next_task, step_errors, step_log, extend.
  destruct t as [r|r|r h|r|]; unfold resume, render_call, render_settled,
    minify_step, mkdirp_step, writeFile_step, bind, emit, push_error, ret;
    simpl; run_cases; rewrite ?app_nil_r, <- ?app_assoc;
    try reflexivity; now destruct st.
Qed.

Lemma finish_frame t st :
  finish env t st = (Normal tt, extend st (rest_errors env t) (rest_log env t)).
Proof.
  unfold rest_errors, rest_log, extend.
  destruct t as [r|r|r h|r|]; unfold finish, resume, render_call, render_settled,
    minify_step, mkdirp_step, writeFile_step, bind, emit, push_error, ret;
    simpl; run_cases; rewrite ?app_nil_r, <- ?app_assoc;
    try reflexivity; now destruct st.
Qed.

Lemma rest_errors_step t :
  rest_errors env t = step_errors env t ++ rest_errors env (next_task env t).
Proof.
  unfold rest_errors, step_errors, next_task.
  destruct t as [r|r|r h|r|]; unfold finish, resume, render_call, render_settled,
    minify_step, mkdirp_step, writeFile_step, bind, emit, push_error, ret;
    simpl; run_cases; reflexivity.
Qed.

Lemma rest_log_step t :
  rest_log env t = step_log env t ++ rest_log env (next_task env t).
Proof.
  unfold rest_log, step_log, next_task.
  destruct t as [r|r|r h|r|]; unfold finish, resume, render_call, render_settled,
    minify_step, mkdirp_step, writeFile_step, bind, emit, push_error, ret;
    simpl; run_cases; reflexivity.
Qed.

(** A callback suspended in its first wait has its whole body left. *)
Lemma rest_errors_waiting r : rest_errors env (Waiting r) = route_errors env r.
Proof.
  unfold rest_errors, route_errors, callback, render_step, write_step.
  unfold finish, resume, render_call, render_settled,
    minify_step, mkdirp_step, writeFile_step, bind, emit, push_error, ret;
    simpl; run_cases; reflexivity.
Qed.

Lemma rest_log_waiting r : rest_log env (Waiting r) = route_steps env r.
Proof.
  unfold rest_log, route_steps, route_log, callback, render_step, write_step.
  unfold finish, resume, render_call, render_settled,
    minify_step, mkdirp_step, writeFile_step, bind, emit, push_error, ret;
    simpl; run_cases; reflexivity.
Qed.

Lemma resume_nth_frame tasks : forall i st,
  exists tasks' es evs,
    resume_nth env i tasks st = (Normal tasks', extend st es evs) /\
    (forall out, Schedule (map (rest_errors env) tasks') out ->
                 Schedule (map (rest_errors env) tasks) (es ++ out)) /\
    (forall out, Schedule (map (rest_log env) tasks') out ->
                 Schedule (map (rest_log env) tasks) (evs ++ out)).
Proof.
  induction tasks as [|t ts IH]; intros i st.
  - exists [], [], []. simpl. unfold ret. rewrite extend_nil.
    repeat split; auto.
  - destruct i as [|i]; simpl.
    + exists (next_task env t :: ts), (step_errors env t), (step_log env t).
      unfold bind. rewrite resume_frame. unfold ret.
      split; [reflexivity|]. simpl.
      split; intros out Hs;
        [rewrite rest_errors_step | rewrite rest_log_step];
        now apply schedule_head.
    + destruct (IH i st) as (ts' & es & evs & Hrun & Hes & Hevs).
      exists (t :: ts'), es, evs. unfold bind. rewrite Hrun. unfold ret.
      split; [reflexivity|]. simpl.
      split; intros out Hs; eapply schedule_tail; eauto.
Qed.

Lemma follow_frame picks : forall tasks st,
  exists tasks' es evs,
    follow env picks tasks st = (Normal tasks', extend st es evs) /\
    (forall out, Schedule (map (rest_errors env) tasks') out ->
                 Schedule (map (rest_errors env) tasks) (es ++ out)) /\
    (forall out, Schedule (map (rest_log env) tasks') out ->
                 Schedule (map (rest_log env) tasks) (evs ++ out)).
Proof.
  induction picks as [|i rest IH]; intros tasks st.
  - exists tasks, [], []. simpl. unfold ret. rewrite extend_nil.
    repeat split; auto.
  - destruct (resume_nth_frame tasks i st) as (ts1 & es1 & evs1 & H1 & Hes1 & Hevs1).
    destruct (IH ts1 (extend st es1 evs1)) as (ts2 & es2 & evs2 & H2 & Hes2 & Hevs2).
    exists ts2, (es1 ++ es2), (evs1 ++ evs2). simpl. unfold bind.
    rewrite H1, H2, extend_extend. split; [reflexivity|].
    split; intros out Hs; rewrite <- app_assoc; auto.
Qed.

Lemma drain_frame tasks : forall st,
  drain env tasks st =
  (Normal tt,
   extend st (concat (map (rest_errors env) tasks))
             (concat (map (rest_log env) tasks))).
Proof.
  induction tasks as [|t ts IH]; intros st; simpl.
  - unfold ret. now rewrite extend_nil.
  - unfold bind. rewrite finish_frame, IH. now rewrite extend_extend.
Qed.

Lemma start_all_frame batch : forall n st,
  start_all env n batch st =
  (Normal (map Waiting batch), extend st [] (batch_waits env n batch)).
Proof.
  induction batch as [|r rest IH]; intros n st; simpl.
  - unfold ret. now rewrite extend_nil.
  - unfold bind, start, emit, ret. simpl. rewrite IH.
    unfold extend. simpl. now rewrite !app_nil_r, <- app_assoc.
Qed.

(** A batch: the waits, then some interleaving of the callbacks. *)
Lemma run_batch_frame picks batch st :
  exists es evs,
    run_batch env picks batch st =
    (Normal tt, extend st es (batch_waits env 0 batch ++ evs)) /\
    Schedule (map (route_errors env) batch) es /\
    Schedule (map (route_steps env) batch) evs.
Proof.
  unfold run_batch, bind. rewrite start_all_frame.
  destruct (follow_frame picks (map Waiting batch)
              (extend st [] (batch_waits env 0 batch)))
    as (ts & es & evs & Hrun & Hes & Hevs).
  rewrite Hrun, drain_frame, !extend_extend.
  exists (es ++ concat (map (rest_errors env) ts)),
         (evs ++ concat (map (rest_log env) ts)).
  split; [reflexivity|].
  assert (He : map (route_errors env) batch = map (rest_errors env) (map Waiting batch)).
  { rewrite map_map. apply map_ext. intros r. now rewrite rest_errors_waiting. }
  assert (Hl : map (route_steps env) batch = map (rest_log env) (map Waiting batch)).
  { rewrite map_map. apply map_ext. intros r. now rewrite rest_log_waiting. }
  rewrite He, Hl. split; [apply Hes | apply Hevs]; apply schedule_sequential.
Qed.

End Tasks.

(** ** The loop *)

Section LoopFacts.
Variable env : Env.

Lemma emit_bind {A} ev (k : unit -> Gen A) st :
  bind (emit ev) k st = k tt (extend st [] [ev]).
Proof. unfold bind, emit, extend. simpl. now rewrite app_nil_r. Qed.

Lemma chunks_step {A} fuel (x : A) (r : list A) :
  chunks batch_size (S fuel) (x :: r) =
  firstn batch_size (x :: r) :: chunks batch_size fuel (skipn batch_size (x :: r)).
Proof. reflexivity. Qed.

Lemma batch_loop_frame fuel : forall sched routes st,
  length routes <= fuel ->
  exists es evs,
    batch_loop env fuel sched routes st = (Normal (Some tt), extend st es evs) /\
    LoopRun env (chunks batch_size fuel routes) es evs.
Proof.
  induction fuel as [|fuel IH]; intros sched routes st Hlen.
  - destruct routes; [|simpl in Hlen; lia].
    exists [], []. simpl. unfold ret. rewrite extend_nil.
    split; [reflexivity | constructor].
  - destruct routes as [|r rest].
    + exists [], []. simpl. unfold ret. rewrite extend_nil.
      split; [reflexivity | constructor].
    + rewrite chunks_step.
      remember (r :: rest) as routes eqn:E.
      assert (Hskip : length (skipn batch_size routes) <= fuel).
      { rewrite length_skipn. subst routes. simpl in *. unfold batch_size. lia. }
      assert (Hunf : batch_loop env (S fuel) sched routes =
                     bind (run_batch env (hd [] sched) (firstn batch_size routes))
                       (fun _ => bind (emit (Main AwaitAll))
                          (fun _ => batch_loop env fuel (tl sched)
                                      (skipn batch_size routes))))
        by (subst routes; reflexivity).
      rewrite Hunf. unfold bind at 1.
      destruct (run_batch_frame env (hd [] sched) (firstn batch_size routes) st)
        as (es & evs & Hrun & Hes & Hevs).
      rewrite Hrun. cbv beta iota. rewrite emit_bind, extend_extend.
      destruct (IH (tl sched) (skipn batch_size routes)
                  (extend st (es ++ [])
                     ((batch_waits env 0 (firstn batch_size routes) ++ evs)
                      ++ [Main AwaitAll])) Hskip)
        as (es' & evs' & Hloop & Hrest).
      exists (es ++ es'),
        (batch_waits env 0 (firstn batch_size routes) ++ evs ++ Main AwaitAll :: evs').
      split; [|now constructor].
      rewrite Hloop, extend_extend, app_nil_r, <- !app_assoc. reflexivity.
Qed.

End LoopFacts.

(** ** A whole run *)

Section WholeRun.
Variable env : Env.
Variable doBuild : bool.

Lemma prepare_frame st :
  prepare env doBuild st =
  (Normal tt, mkState (errors st) (log st ++ prepare_log env doBuild) (pending st)).
Proof.
  unfold prepare_log, prepare, bind, emit, ret.
  destruct (has_builder env && doBuild), (static_exists env); simpl;
    rewrite <- ?app_assoc; reflexivity.
Qed.

Lemma batches_chunks {A} (l : list A) fuel :
  length l <= fuel -> chunks batch_size fuel l = batches l.
Proof.
  unfold batches. remember (length l) as n eqn:En.
  revert l fuel En. induction n as [n IH] using lt_wf_ind.
  intros l fuel En Hle. destruct l as [|x r]; [now destruct fuel, n|].
  destruct fuel as [|fuel]; [simpl in En; lia|].
  destruct n as [|n]; [discriminate|].
  remember (x :: r) as l eqn:El.
  assert (Hch : forall f, chunks batch_size (S f) l =
                firstn batch_size l :: chunks batch_size f (skipn batch_size l))
    by (intros; subst l; reflexivity).
  rewrite !Hch. f_equal.
  assert (Hs : length (skipn batch_size l) <= n).
  { rewrite length_skipn. subst l. simpl in *. unfold batch_size. lia. }
  rewrite (IH (length (skipn batch_size l))) with (fuel := fuel) by lia.
  now rewrite (IH (length (skipn batch_size l))) with (fuel := n) by lia.
Qed.

Lemma run_rejected e :
  String.eqb (router_mode env) "hash" = false ->
  promisify_routes env = Throw e ->
  run env doBuild =
  (Throw e,
   mkState []
     (prepare_log env doBuild
      ++ [Main (ConsoleLog "Generating routes"); Main PromisifyRoute;
          Main (ConsoleError (JStr "Could not resolve routes"));
          Main (ConsoleError e)])
     []).
Proof.
  intros Hm Hp. unfold run, generate. unfold bind at 1.
  rewrite prepare_frame. unfold bind at 1.
  unfold resolve_generate_routes. rewrite Hm, Hp. simpl.
  unfold try_catch, bind, emit, throw. simpl.
  now rewrite <- !app_assoc.
Qed.

(** The shape of a run whose routes resolve: the loop appends what some
    interleaving of the callbacks of each batch appends, and the outcome is
    the report, or the TypeError of the error report. *)
Lemma run_resolved items :
  resolved_items env = Normal items ->
  let marker := WriteFile (nojekyllPath env) "" in
  exists es evs,
    LoopRun env (batches (work_list env items)) es evs /\
    run env doBuild =
    (report_outcome env es,
     mkState es
       (prepare_log env doBuild ++ resolve_log env ++ evs
        ++ [Main (Detach marker)] ++ report_log es)
       [marker]).
Proof.
  intros Hr marker. unfold run, generate. unfold bind at 1.
  rewrite prepare_frame. unfold bind at 1.
  assert (Hres : forall st, resolve_generate_routes env st =
                 (Normal items,
                  mkState (errors st) (log st ++ resolve_log env) (pending st))).
  { intros st. unfold resolve_generate_routes, resolved_items, resolve_log in *.
    destruct (String.eqb (router_mode env) "hash"); simpl.
    - injection Hr as <-. unfold ret. rewrite app_nil_r. now destruct st.
    - rewrite Hr. unfold try_catch, bind, emit, ret. simpl.
      now rewrite <- app_assoc. }
  rewrite Hres. set (routes := work_list env items). unfold bind at 1.
  match goal with
  | |- context [batch_loop env _ _ _ ?st] =>
      destruct (batch_loop_frame env (length routes) (schedule env) routes st
                  (le_n _)) as (es & evs & Hloop & Hshape)
  end.
  rewrite batches_chunks in Hshape by reflexivity.
  exists es, evs. split; [exact Hshape|].
  rewrite Hloop. 
  unfold bind, start_detached, get_errors, report_errors_found, report_log,
    report_outcome, extend.
  cbn [errors log pending initial app fst snd]. fold marker.
  destruct es as [|f es].
  - unfold ret. cbn [existsb]. now rewrite <- !app_assoc.
  - destruct (existsb stack_throws (f :: es));
      unfold ret, emit, throw; cbn [errors log pending app];
      rewrite <- ?app_assoc; cbn [app]; rewrite ?app_nil_r; reflexivity.
Qed.

(** A run either returns a report or throws: the loop never runs out of
    fuel. *)
Lemma run_total :
  (exists report st, run env doBuild = (Normal (Some report), st)) \/
  (exists e st, run env doBuild = (Throw e, st)).
Proof.
  destruct (resolved_items env) as [items|e] eqn:Hr.
  - destruct (run_resolved items Hr) as (es & evs & _ & Hrun).
    rewrite Hrun. unfold report_outcome.
    destruct (existsb stack_throws es); eauto.
  - right. unfold resolved_items in Hr.
    destruct (String.eqb (router_mode env) "hash") eqn:Hm; [discriminate|].
    rewrite (run_rejected e Hm Hr). eauto.
Qed.

End WholeRun.

(** ** What one route records and writes *)

Section RouteFacts.
Variable env : Env.

Ltac callback_cases r :=
  unfold callback, render_step, render_call, render_settled, minify_step,
    write_step, mkdirp_step, writeFile_step;
  unfold bind, emit, push_error, ret; simpl;
  destruct (renderRoute env (route r) (payload r)) as [res|err]; simpl;
  [destruct (truthy (res_error res)); simpl;
   (destruct (truthy (generate_minify env)); simpl;
    [destruct (minify env (html res) (generate_minify env)); simpl|])|];
  reflexivity.

Lemma route_errors_cases r :
  route_errors env r =
  match renderRoute env (route r) (payload r) with
  | Throw err => [Failure.mk unhandled (route r) err]
  | Normal res =>
      (if truthy (res_error res)
       then [Failure.mk handled (route r) (res_error res)] else [])
      ++ (if truthy (generate_minify env) then
            match minify env (html res) (generate_minify env) with
            | Throw _ =>
                [Failure.mk unhandled (route r) (JError (minify_message (html res)))]
            | Normal _ => []
            end
          else [])
  end.
Proof. unfold route_errors. callback_cases r. Qed.

Lemma route_log_cases n r :
  route_log env n r =
  Callback (route r) (WaitFor (Z.of_nat n * generate_interval env))
  :: Callback (route r) (RenderRoute (route r) (payload r))
  :: match renderRoute env (route r) (payload r) with
     | Throw _ => []
     | Normal res =>
         (if truthy (generate_minify env)
          then [Callback (route r) (Minify (html res))] else [])
         ++ [Callback (route r)
               (Await (Mkdirp (Path.dirname (output_path (distPath env) (route r)))));
             Callback (route r)
               (Await (WriteFile (output_path (distPath env) (route r))
                                 (final_html env res)))]
     end.
Proof. unfold route_log, final_html. callback_cases r. Qed.

Lemma route_log_steps n r :
  route_log env n r =
  Callback (route r) (WaitFor (Z.of_nat n * generate_interval env))
  :: route_steps env r.
Proof. unfold route_steps. now rewrite !route_log_cases. Qed.

Lemma route_steps_cases r :
  route_steps env r =
  Callback (route r) (RenderRoute (route r) (payload r))
  :: match renderRoute env (route r) (payload r) with
     | Throw _ => []
     | Normal res =>
         (if truthy (generate_minify env)
          then [Callback (route r) (Minify (html res))] else [])
         ++ [Callback (route r)
               (Await (Mkdirp (Path.dirname (output_path (distPath env) (route r)))));
             Callback (route r)
               (Await (WriteFile (output_path (distPath env) (route r))
                                 (final_html env res)))]
     end.
Proof. unfold route_steps. now rewrite route_log_cases. Qed.

Lemma route_errors_route r f :
  In f (route_errors env r) -> Failure.route f = route r.
Proof.
  rewrite route_errors_cases.
  destruct (renderRoute env (route r) (payload r)) as [res|err].
  - destruct (truthy (res_error res)), (truthy (generate_minify env));
      try destruct (minify env (html res) (generate_minify env));
      simpl; intros H;
      repeat (destruct H as [H|H]; [subst f; reflexivity|]);
      contradiction.
  - intros [<-|[]]. reflexivity.
Qed.

Lemma route_steps_tag r ev :
  In ev (route_steps env r) -> exists e, ev = Callback (route r) e.
Proof.
  rewrite route_steps_cases.
  destruct (renderRoute env (route r) (payload r)) as [res|err].
  - destruct (truthy (generate_minify env)); simpl; intros H;
      repeat (destruct H as [H|H]; [subst ev; eexists; reflexivity|]);
      contradiction.
  - intros [<-|[]]. eexists; reflexivity.
Qed.

Lemma route_log_tag n r ev :
  In ev (route_log env n r) -> exists e, ev = Callback (route r) e.
Proof.
  rewrite route_log_steps. intros [<-|H]; [eauto | now apply route_steps_tag in H].
Qed.

Lemma route_steps_no_wait r ev :
  In ev (route_steps env r) -> wait_of ev = [].
Proof.
  rewrite route_steps_cases.
  destruct (renderRoute env (route r) (payload r)) as [res|err].
  - destruct (truthy (generate_minify env)); simpl; intros H;
      repeat (destruct H as [H|H]; [subst ev; reflexivity|]);
      contradiction.
  - intros [<-|[]]. reflexivity.
Qed.

End RouteFacts.

(** ** Batches *)

Lemma chunks_concat {A} fuel : forall l : list A,
  length l <= fuel -> concat (chunks batch_size fuel l) = l.
Proof.
  induction fuel as [|fuel IH]; intros l Hlen.
  - destruct l; [reflexivity | simpl in Hlen; lia].
  - destruct l as [|x r]; [reflexivity|].
    rewrite chunks_step. cbn [concat]. rewrite IH; [apply firstn_skipn|].
    rewrite length_skipn. simpl in *. unfold batch_size. lia.
Qed.

Lemma batches_concat {A} (l : list A) : concat (batches l) = l.
Proof. apply chunks_concat. reflexivity. Qed.

Lemma chunks_length {A} fuel : forall l : list A,
  length l <= fuel ->
  length (chunks batch_size fuel l) = (length l + batch_size - 1) / batch_size.
Proof.
  assert (Hk : 0 < batch_size) by (unfold batch_size; lia).
  induction fuel as [|fuel IH]; intros l Hlen.
  - destruct l; [|simpl in Hlen; lia]. cbn [chunks length].
    symmetry. apply Nat.div_small. lia.
  - destruct l as [|x r].
    + cbn [chunks length]. symmetry. apply Nat.div_small. lia.
    + rewrite chunks_step. cbn [length].
      rewrite IH; rewrite length_skipn; cbn [length] in *; [|lia].
      set (n := length r) in *.
      replace (S n + batch_size - 1) with (n + 1 * batch_size) by lia.
      rewrite Nat.div_add by lia.
      destruct (le_lt_dec (S n) batch_size) as [Hle|Hgt].
      * replace (S n - batch_size + batch_size - 1) with (batch_size - 1) by lia.
        rewrite !Nat.div_small by lia. reflexivity.
      * replace (S n - batch_size + batch_size - 1) with n by lia. lia.
Qed.

Lemma chunks_sizes {A} fuel : forall l : list A,
  Forall (fun b => 1 <= length b <= batch_size) (chunks batch_size fuel l).
Proof.
  assert (Hk : 0 < batch_size) by (unfold batch_size; lia).
  induction fuel as [|fuel IH]; intros l.
  - destruct l; constructor.
  - destruct l as [|x r]; [constructor|].
    rewrite chunks_step. constructor; [|apply IH].
    rewrite length_firstn. cbn [length]. lia.
Qed.

Lemma concat_NoDup (bs : list (list RouteSpec)) :
  NoDup (map route (concat bs)) -> Forall (fun b => NoDup (map route b)) bs.
Proof.
  induction bs as [|b bs IH]; simpl; intros H; constructor;
    rewrite map_app in H.
  - now apply NoDup_app_remove_r in H.
  - apply IH. now apply NoDup_app_remove_l in H.
Qed.

Lemma batches_NoDup (l : list RouteSpec) :
  NoDup (map route l) -> Forall (fun b => NoDup (map route b)) (batches l).
Proof. intros H. apply concat_NoDup. now rewrite batches_concat. Qed.

(** ** The run in which the callbacks follow one another *)

Section Sequential.
Variable env : Env.
Context {B : Type} (f : Event -> list B).
Hypothesis f_wait : forall p ms, f (Callback p (WaitFor ms)) = [].

Lemma batch_log_proj n batch :
  flat_map f (batch_log env n batch) =
  flat_map (fun r => flat_map f (route_steps env r)) batch.
Proof.
  revert n. induction batch as [|r rest IH]; intros n; simpl; [reflexivity|].
  rewrite flat_map_app, IH, route_log_steps. simpl. now rewrite f_wait.
Qed.

Hypothesis f_main : forall e, f (Main e) = [].

Lemma main_proj l : forallb is_main l = true -> flat_map f l = [].
Proof.
  intros H. apply flat_map_nil. intros ev Hev.
  rewrite forallb_forall in H. specialize (H ev Hev).
  destruct ev; [apply f_main | discriminate].
Qed.

Lemma loop_log_proj routes :
  flat_map f (loop_log env routes) =
  flat_map (fun r => flat_map f (route_steps env r)) routes.
Proof.
  unfold loop_log. rewrite flat_map_nested.
  rewrite (flat_map_ext _ (fun b => flat_map (fun r => flat_map f (route_steps env r)) b)).
  - rewrite <- flat_map_nested.
    replace (flat_map (fun b : list RouteSpec => b) (batches routes))
      with (concat (batches routes)).
    + now rewrite batches_concat.
    + rewrite flat_map_concat_map. now rewrite map_id.
  - intros b. rewrite flat_map_app, batch_log_proj. simpl.
    now rewrite f_main, app_nil_r.
Qed.

End Sequential.

Section MainEvents.
Variable env : Env.

Lemma prepare_log_main doBuild : forallb is_main (prepare_log env doBuild) = true.
Proof.
  unfold prepare_log, prepare, bind, emit, ret.
  now destruct (has_builder env && doBuild), (static_exists env).
Qed.

Lemma resolve_log_main : forallb is_main (resolve_log env) = true.
Proof. unfold resolve_log. now destruct (String.eqb _ _). Qed.

Lemma report_log_main errs : forallb is_main (report_log errs) = true.
Proof.
  unfold report_log. destruct errs; [reflexivity|].
  now destruct (existsb _ _).
Qed.

Lemma prepare_log_events doBuild ev :
  In ev (prepare_log env doBuild) ->
  ev = Main NuxtReady \/ ev = Main BuilderBuild \/
  (exists p, ev = Main (Await (Remove p))) \/
  (exists src dst, ev = Main (Await (Copy src dst))).
Proof.
  unfold prepare_log, prepare, bind, emit, ret.
  destruct (has_builder env && doBuild), (static_exists env); simpl;
    intros H; repeat (destruct H as [<-|H]); try contradiction; eauto 6.
Qed.

Lemma report_log_events errs ev :
  In ev (report_log errs) -> ev = Main (ErrorReport errs).
Proof.
  unfold report_log. destruct errs as [|x errs]; [intros []|].
  destruct (existsb stack_throws (x :: errs)); [intros []|].
  intros [<-|[]]. reflexivity.
Qed.

Lemma sequential_log_proj {B} (f : Event -> list B) doBuild routes errs :
  (forall p ms, f (Callback p (WaitFor ms)) = []) ->
  (forall e, f (Main e) = []) ->
  flat_map f (sequential_log env doBuild routes errs) =
  flat_map (fun r => flat_map f (route_steps env r)) routes.
Proof.
  intros f_wait f_main. unfold sequential_log.
  rewrite !flat_map_app, (loop_log_proj env f f_wait f_main).
  rewrite (main_proj f f_main (prepare_log env doBuild) (prepare_log_main _)).
  rewrite (main_proj f f_main (resolve_log env) resolve_log_main).
  rewrite (main_proj f f_main (report_log errs) (report_log_main _)).
  simpl. now rewrite f_main, !app_nil_r.
Qed.

End MainEvents.

(** ** The interleaved run against the sequential one *)

Lemma schedule_In {A} (ls : list (list A)) out x :
  Schedule ls out -> In x out -> exists l, In l ls /\ In x l.
Proof.
  intros Hs Hx. apply schedule_perm in Hs.
  apply (Permutation_in _ Hs) in Hx. apply in_concat in Hx.
  destruct Hx as (l & Hl & Hx). eauto.
Qed.

Section Interleaved.
Variable env : Env.

Lemma batch_waits_tag n batch ev :
  In ev (batch_waits env n batch) ->
  exists r ms, In r batch /\ ev = Callback (route r) (WaitFor ms).
Proof.
  revert n. induction batch as [|r rest IH]; intros n; simpl; [tauto|].
  intros [<-|H]; [eauto|].
  destruct (IH _ H) as (r' & ms & Hin & ->). eauto.
Qed.

Lemma steps_schedule_tag batch evs ev :
  Schedule (map (route_steps env) batch) evs -> In ev evs ->
  exists r e, In r batch /\ ev = Callback (route r) e /\ wait_of ev = [].
Proof.
  intros Hs Hev. destruct (schedule_In _ _ _ Hs Hev) as (l & Hl & Hin).
  apply in_map_iff in Hl as (r & <- & Hr).
  pose proof (route_steps_no_wait env r ev Hin) as Hw.
  apply route_steps_tag in Hin as (e & ->). eauto.
Qed.

Lemma batch_perm batch evs : forall n,
  Permutation evs (concat (map (route_steps env) batch)) ->
  Permutation (batch_waits env n batch ++ evs) (batch_log env n batch).
Proof.
  revert evs. induction batch as [|r rest IH]; intros evs n Hp; simpl in *.
  - now rewrite Hp.
  - rewrite route_log_steps. simpl. constructor.
    rewrite Hp, Permutation_app_swap_app.
    apply Permutation_app_head. now apply IH.
Qed.

Lemma loop_perm bs es evs :
  LoopRun env bs es evs ->
  Permutation evs (flat_map (fun b => batch_log env 0 b ++ [Main AwaitAll]) bs) /\
  Permutation es (flat_map (route_errors env) (concat bs)).
Proof.
  induction 1 as [|b bs es evs es' evs' Hes Hevs _ [IHl IHe]];
    [split; constructor|].
  split.
  - simpl. rewrite <- app_assoc.
    replace (batch_waits env 0 b ++ evs ++ Main AwaitAll :: evs')
      with ((batch_waits env 0 b ++ evs) ++ [Main AwaitAll] ++ evs')
      by now rewrite <- app_assoc.
    apply Permutation_app; [apply batch_perm, schedule_perm, Hevs|].
    now apply Permutation_app_head.
  - simpl. rewrite flat_map_app. apply Permutation_app; [|exact IHe].
    apply schedule_perm in Hes. now rewrite Hes, flat_map_concat_map.
Qed.

(** Projections that only see the callback of route [p]. *)
Section Local.
Context {B : Type} (f : Event -> list B) (p : string).
Hypothesis f_local : forall q e, q <> p -> f (Callback q e) = [].

Lemma steps_local r : route r <> p -> flat_map f (route_steps env r) = [].
Proof.
  intros Hne. apply flat_map_nil. intros ev Hev.
  apply route_steps_tag in Hev as (e & ->). now apply f_local.
Qed.

Lemma waits_local batch : forall n,
  ~ In p (map route batch) -> flat_map f (batch_waits env n batch) = [].
Proof.
  intros n Hp. apply flat_map_nil. intros ev Hev.
  apply batch_waits_tag in Hev as (r & ms & Hr & ->).
  apply f_local. intros E. apply Hp. rewrite <- E. now apply in_map.
Qed.

Lemma batch_log_local batch : forall n,
  ~ In p (map route batch) -> flat_map f (batch_log env n batch) = [].
Proof.
  induction batch as [|r rest IH]; intros n Hp; simpl; [reflexivity|].
  simpl in Hp. rewrite flat_map_app, IH by tauto.
  rewrite app_nil_r. apply flat_map_nil. intros ev Hev.
  apply route_log_tag in Hev as (e & ->). apply f_local. tauto.
Qed.

Lemma waits_steps_local batch : forall n,
  NoDup (map route batch) ->
  flat_map f (batch_waits env n batch)
  ++ flat_map f (flat_map (route_steps env) batch)
  = flat_map f (batch_log env n batch).
Proof.
  induction batch as [|r rest IH]; intros n Hnd; simpl; [reflexivity|].
  simpl in Hnd. inversion_clear Hnd as [|? ? Hr Hrest].
  rewrite route_log_steps. simpl. rewrite !flat_map_app, <- !app_assoc.
  f_equal. rewrite <- (IH (S n) Hrest).
  destruct (string_dec (route r) p) as [Hp|Hp].
  - rewrite waits_local by now rewrite <- Hp. reflexivity.
  - rewrite steps_local by assumption. reflexivity.
Qed.

Lemma batch_local batch evs n :
  NoDup (map route batch) ->
  Schedule (map (route_steps env) batch) evs ->
  flat_map f (batch_waits env n batch ++ evs) = flat_map f (batch_log env n batch).
Proof.
  intros Hnd Hs. rewrite flat_map_app.
  rewrite (schedule_local (route_steps env) f p steps_local batch evs Hnd Hs).
  now apply waits_steps_local.
Qed.

Lemma loop_local bs es evs :
  LoopRun env bs es evs ->
  Forall (fun b => NoDup (map route b)) bs ->
  flat_map f evs
  = flat_map f (flat_map (fun b => batch_log env 0 b ++ [Main AwaitAll]) bs).
Proof.
  induction 1 as [|b bs es evs es' evs' Hes Hevs _ IH]; intros Hnd;
    [reflexivity|].
  inversion_clear Hnd as [|? ? Hb Hbs].
  replace (batch_waits env 0 b ++ evs ++ Main AwaitAll :: evs')
    with ((batch_waits env 0 b ++ evs) ++ [Main AwaitAll] ++ evs')
    by now rewrite <- app_assoc.
  pose proof (batch_local b evs 0 Hb Hevs) as Hbatch.
  rewrite flat_map_app in Hbatch.
  cbn [flat_map]. rewrite !flat_map_app, Hbatch, IH by assumption.
  now rewrite <- app_assoc.
Qed.

End Local.

(** The same for what is pushed to [errors]. *)
Lemma loop_errors_local {B} (g : Failure.t -> list B) (p : string) bs es evs :
  (forall x, Failure.route x <> p -> g x = []) ->
  LoopRun env bs es evs ->
  Forall (fun b => NoDup (map route b)) bs ->
  flat_map g es = flat_map g (flat_map (route_errors env) (concat bs)).
Proof.
  intros g_local.
  assert (Hlocal : forall r, route r <> p -> flat_map g (route_errors env r) = []).
  { intros r Hne. apply flat_map_nil. intros x Hx. apply g_local.
    now rewrite (route_errors_route env r x Hx). }
  induction 1 as [|b bs es evs es' evs' Hes Hevs _ IH]; intros Hnd;
    [reflexivity|].
  inversion_clear Hnd as [|? ? Hb Hbs].
  simpl. rewrite !flat_map_app, IH by assumption. f_equal.
  apply (schedule_local (route_errors env) g p Hlocal b es Hb Hes).
Qed.

End Interleaved.

(** ** The outcome of a run whose routes resolve *)

Section RunOutcome.
Variable env : Env.
Variable doBuild : bool.
Variable items : list DynamicRouteItem.
Hypothesis resolved : resolved_items env = Normal items.

Lemma work_list_NoDup : NoDup (map route (work_list env items)).
Proof. unfold work_list. apply decorate_NoDup. Qed.

Lemma run_outcome :
  fst (run env doBuild) = report_outcome env (errors (snd (run env doBuild))).
Proof.
  destruct (run_resolved env doBuild items resolved) as (es & evs & _ & Hrun).
  now rewrite Hrun.
Qed.

Lemma run_pending :
  pending (snd (run env doBuild)) = [WriteFile (nojekyllPath env) ""].
Proof.
  destruct (run_resolved env doBuild items resolved) as (es & evs & _ & Hrun).
  now rewrite Hrun.
Qed.

Lemma run_log_perm :
  Permutation (log (snd (run env doBuild)))
    (sequential_log env doBuild (work_list env items)
       (errors (snd (run env doBuild)))).
Proof.
  destruct (run_resolved env doBuild items resolved) as (es & evs & Hloop & Hrun).
  rewrite Hrun. cbn [snd log errors]. unfold sequential_log, loop_log.
  apply loop_perm in Hloop as [Hl _].
  apply Permutation_app_head, Permutation_app_head.
  now apply Permutation_app_tail.
Qed.

Lemma run_errors_perm :
  Permutation (errors (snd (run env doBuild)))
    (flat_map (route_errors env) (work_list env items)).
Proof.
  destruct (run_resolved env doBuild items resolved) as (es & evs & Hloop & Hrun).
  rewrite Hrun. cbn [snd errors].
  apply loop_perm in Hloop as [_ He]. now rewrite batches_concat in He.
Qed.

Lemma run_log_local {B} (f : Event -> list B) (p : string) :
  (forall q e, q <> p -> f (Callback q e) = []) ->
  flat_map f (log (snd (run env doBuild)))
  = flat_map f (sequential_log env doBuild (work_list env items)
                  (errors (snd (run env doBuild)))).
Proof.
  intros f_local.
  destruct (run_resolved env doBuild items resolved) as (es & evs & Hloop & Hrun).
  rewrite Hrun. cbn [snd log errors]. unfold sequential_log, loop_log.
  rewrite !flat_map_app. do 2 f_equal.
  rewrite (loop_local env f p f_local _ _ _ Hloop); [reflexivity|].
  apply batches_NoDup, work_list_NoDup.
Qed.

Lemma run_errors_local {B} (g : Failure.t -> list B) (p : string) :
  (forall x, Failure.route x <> p -> g x = []) ->
  flat_map g (errors (snd (run env doBuild)))
  = flat_map g (flat_map (route_errors env) (work_list env items)).
Proof.
  intros g_local.
  destruct (run_resolved env doBuild items resolved) as (es & evs & Hloop & Hrun).
  rewrite Hrun. cbn [snd errors].
  rewrite (loop_errors_local env g p _ _ _ g_local Hloop).
  - now rewrite batches_concat.
  - apply batches_NoDup, work_list_NoDup.
Qed.

Lemma run_failures_of r :
  In r (work_list env items) ->
  failures_of (route r) (errors (snd (run env doBuild))) = route_errors env r.
Proof.
  intros Hin. unfold failures_of. rewrite filter_as_flat_map.
  rewrite (run_errors_local _ (route r)).
  - rewrite flat_map_nested.
    rewrite (flat_map_only route _ _ r work_list_NoDup Hin).
    + rewrite <- filter_as_flat_map. apply forallb_filter_id.
      apply forallb_forall. intros x Hx. apply String.eqb_eq.
      now apply (route_errors_route env).
    + intros x Hne. apply flat_map_nil. intros g Hg.
      apply (route_errors_route env) in Hg.
      destruct (String.eqb (Failure.route g) (route r)) eqn:E; [|reflexivity].
      apply String.eqb_eq in E. congruence.
  - intros x Hne. apply String.eqb_neq in Hne. now rewrite Hne.
Qed.

Lemma run_failures_absent p :
  ~ In p (map route (work_list env items)) ->
  failures_of p (errors (snd (run env doBuild))) = [].
Proof.
  intros Hp. unfold failures_of. rewrite filter_as_flat_map.
  rewrite (run_errors_local _ p).
  - rewrite flat_map_nested. apply flat_map_nil. intros r Hr.
    apply flat_map_nil. intros x Hx.
    apply (route_errors_route env) in Hx.
    destruct (String.eqb (Failure.route x) p) eqn:E; [|reflexivity].
    apply String.eqb_eq in E. exfalso. apply Hp. rewrite <- E, Hx.
    now apply in_map.
  - intros x Hne. apply String.eqb_neq in Hne. now rewrite Hne.
Qed.

Lemma write_of_local p q e : q <> p -> write_of p (Callback q e) = [].
Proof.
  intros Hne. simpl. destruct e; try reflexivity. destruct op; try reflexivity.
  apply String.eqb_neq in Hne. now rewrite Hne.
Qed.

Lemma run_written_by r :
  In r (work_list env items) ->
  written_by (route r) (log (snd (run env doBuild))) =
  written_by (route r) (route_steps env r).
Proof.
  intros Hin. unfold written_by.
  rewrite (run_log_local _ (route r) (write_of_local (route r))).
  rewrite sequential_log_proj; try reflexivity.
  apply (flat_map_only route
           (fun x => flat_map (write_of (route r)) (route_steps env x))
           _ r work_list_NoDup Hin).
  intros x Hne. apply flat_map_nil. intros ev Hev.
  apply route_steps_tag in Hev as [e ->]. now apply write_of_local.
Qed.

Lemma run_written_absent p :
  ~ In p (map route (work_list env items)) ->
  written_by p (log (snd (run env doBuild))) = [].
Proof.
  intros Hp. unfold written_by.
  rewrite (run_log_local _ p (write_of_local p)).
  rewrite sequential_log_proj; try reflexivity.
  apply flat_map_nil. intros r Hr. apply flat_map_nil. intros ev Hev.
  apply route_steps_tag in Hev as [e ->]. apply write_of_local.
  intros E. apply Hp. rewrite <- E. now apply in_map.
Qed.

Lemma run_render_calls :
  Permutation (render_calls (log (snd (run env doBuild))))
              (map (fun r => (route r, payload r)) (work_list env items)).
Proof.
  unfold render_calls. rewrite run_log_perm.
  rewrite sequential_log_proj; try reflexivity.
  induction (work_list env items) as [|r rest IH]; simpl; [constructor|].
  rewrite route_steps_cases. simpl.
  destruct (renderRoute env (route r) (payload r)) as [res|err];
    [destruct (truthy (generate_minify env))|]; simpl;
    now constructor.
Qed.

End RunOutcome.

(** ** Failures of one route in a run *)

Lemma written_by_steps (env : Env) (r : RouteSpec) :
  written_by (route r) (route_steps env r) =
  match renderRoute env (route r) (payload r) with
  | Throw _ => []
  | Normal res => [(output_path (distPath env) (route r), final_html env res)]
  end.
Proof.
  rewrite route_steps_cases. unfold written_by.
  destruct (renderRoute env (route r) (payload r)) as [res|err]; [|reflexivity].
  destruct (truthy (generate_minify env)); simpl;
    now rewrite String.eqb_refl.
Qed.

Lemma failures_of_In p errs f : In f (failures_of p errs) -> In f errs.
Proof. unfold failures_of. intros H. now apply filter_In in H. Qed.

Lemma report_outcome_throws env errs f :
  In f errs -> stack_throws f = true -> report_outcome env errs = Throw type_error.
Proof.
  intros Hin Hf. unfold report_outcome.
  replace (existsb stack_throws errs) with true; [reflexivity|].
  symmetry. apply existsb_exists. eauto.
Qed.

(** C5. When the render call of a route of the work list throws, the run
    records exactly one failure for that route, of type [unhandled] and with
    the thrown error; the callback of that route writes no file; and every
    route of the work list whose render call returns has its file written,
    at its own output path and with its own markup, however the callbacks
    are interleaved.  [generate] then returns the report with the recorded
    failures, unless printing them throws: it does when the thrown error is
    [null] or [undefined]. *)
Theorem render_throw_is_isolated
        (env : Env) (doBuild : bool) (items : list DynamicRouteItem)
        (r : RouteSpec) (err : JsValue) :
  resolved_items env = Normal items ->
  In r (work_list env items) ->
  renderRoute env (route r) (payload r) = Throw err ->
  let st := snd (run env doBuild) in
  failures_of (route r) (errors st) = [Failure.mk unhandled (route r) err] /\
  written_by (route r) (log st) = [] /\
  (forall r' res,
      In r' (work_list env items) ->
      renderRoute env (route r') (payload r') = Normal res ->
      written_by (route r') (log st)
      = [(output_path (distPath env) (route r'), final_html env res)]) /\
  fst (run env doBuild) = report_outcome env (errors st) /\
  (is_nullish err = true -> fst (run env doBuild) = Throw type_error).
Proof.
  intros Hr Hin Hthrow st.
  pose proof (run_failures_of env doBuild items Hr r Hin) as Hf.
  pose proof (run_written_by env doBuild items Hr) as Hw.
  pose proof (run_outcome env doBuild items Hr) as Hout.
  fold st in Hf, Hw, Hout.
  rewrite route_errors_cases, Hthrow in Hf.
  split; [exact Hf|]. split; [|split; [|split; [exact Hout|]]].
  - now rewrite (Hw r Hin), written_by_steps, Hthrow.
  - intros r' res Hin' Hok. now rewrite (Hw r' Hin'), written_by_steps, Hok.
  - intros Hnull. rewrite Hout.
    apply report_outcome_throws with (f := Failure.mk unhandled (route r) err);
      [|exact Hnull].
    apply (failures_of_In (route r)). rewrite Hf. now left.
Qed.

Lemma render_throw_is_isolated_witness :
  failures_of "/x" (errors (snd (run sample_site true)))
  = [Failure.mk unhandled "/x" (JError "render failed")] /\
  written_by "/x" (log (snd (run sample_site true))) = [] /\
  written_by "/" (log (snd (run sample_site true)))
  = [("/site/dist/index.html", "min:<p>page</p>")] /\
  fst (run rejecting_site true) = Throw type_error.
Proof.
  destruct (render_throw_is_isolated sample_site true sample_items
              (mkRouteSpec "/x" JNull) (JError "render failed"))
    as (Hf & Hw & Hothers & _).
  - reflexivity.
  - vm_compute. tauto.
  - reflexivity.
  - split; [exact Hf|]. split; [exact Hw|]. split.
    + apply (Hothers (mkRouteSpec "/" JNull) (mkRenderResult "<p>page</p>" JNull)).
      * vm_compute. tauto.
      * reflexivity.
    + destruct (render_throw_is_isolated rejecting_site true []
                  (mkRouteSpec "/x" JNull) JUndefined)
        as (_ & _ & _ & _ & Hthrows).
      * reflexivity.
      * vm_compute. tauto.
      * reflexivity.
      * now apply Hthrows.
Defined.

(** C6. When the render call of a route returns with a truthy [error], the
    run records exactly one [handled] failure for that route, carrying that
    error, and the callback goes on: the returned markup goes through the
    minification step and the result is written to the output file of the
    route.  [generate] then returns the report with the recorded failures,
    unless printing them throws. *)
Theorem in_band_error_is_written
        (env : Env) (doBuild : bool) (items : list DynamicRouteItem)
        (r : RouteSpec) (res : RenderResult) :
  resolved_items env = Normal items ->
  In r (work_list env items) ->
  renderRoute env (route r) (payload r) = Normal res ->
  truthy (res_error res) = true ->
  let st := snd (run env doBuild) in
  filter (is_type handled) (failures_of (route r) (errors st))
  = [Failure.mk handled (route r) (res_error res)] /\
  written_by (route r) (log st)
  = [(output_path (distPath env) (route r),
      if truthy (generate_minify env) then
        match minify env (html res) (generate_minify env) with
        | Normal html' => html'
        | Throw _ => html res
        end
      else html res)] /\
  fst (run env doBuild) = report_outcome env (errors st).
Proof.
  intros Hr Hin Hok Herror st.
  pose proof (run_failures_of env doBuild items Hr r Hin) as Hf.
  pose proof (run_written_by env doBuild items Hr r Hin) as Hw.
  pose proof (run_outcome env doBuild items Hr) as Hout.
  fold st in Hf, Hw, Hout.
  rewrite Hf, Hw, route_errors_cases, written_by_steps, Hok, Herror.
  split; [|split; [reflexivity | exact Hout]].
  destruct (truthy (generate_minify env));
    [destruct (minify env (html res) (generate_minify env))|]; reflexivity.
Qed.

Lemma in_band_error_is_written_witness :
  filter (is_type handled)
         (failures_of "/y" (errors (snd (run sample_site true))))
  = [Failure.mk handled "/y" (JObject [("statusCode", JNum 500)])] /\
  written_by "/y" (log (snd (run sample_site true)))
  = [("/site/dist/y/index.html", "<y>")] /\
  exists report, fst (run sample_site true) = Normal (Some report).
Proof.
  destruct (in_band_error_is_written sample_site true sample_items
              (mkRouteSpec "/y" (JNum 3))
              (mkRenderResult "<y>" (JObject [("statusCode", JNum 500)])))
    as (Hf & Hw & Hout).
  - reflexivity.
  - vm_compute. tauto.
  - reflexivity.
  - reflexivity.
  - split; [exact Hf|]. split; [exact Hw|].
    rewrite Hout. eexists. reflexivity.
Defined.

(** C2, as stated, fails: the minifier throws on the markup of [/z], and the
    callback still writes the file of [/z]; the message of the recorded
    error does not contain the path [/z]. *)
Lemma minify_throw_still_writes :
  sample_minify "<z>" (generate_minify sample_site)
  = Throw (JError "Parse Error") /\
  written_by "/z" (log (snd (run sample_site true)))
  = [("/site/dist/z/index.html", "<z>")] /\
  failures_of "/z" (errors (snd (run sample_site true)))
  = [Failure.mk unhandled "/z" (JError (minify_message "<z>"))] /\
  includes "/z" (minify_message "<z>") = false.
Proof.
  repeat split; reflexivity.
Qed.

Lemma string_app_assoc (a b c : string) :
  ((a ++ b) ++ c = a ++ (b ++ c))%string.
Proof. induction a as [|x a IH]; simpl; [reflexivity | now rewrite IH]. Qed.

(** C2, amended. When the render call of a route returns and the minifier
    throws on its markup, the run records exactly one [unhandled] failure
    for that route, whose [route] is the path of the route and whose error
    message ends with the un-minified markup; the callback then goes on and
    writes the un-minified markup to the output file of the route.
    [generate] then returns the report with the recorded failures, unless
    printing them throws. *)
Theorem minify_throw_is_recorded
        (env : Env) (doBuild : bool) (items : list DynamicRouteItem)
        (r : RouteSpec) (res : RenderResult) (e : JsValue) :
  resolved_items env = Normal items ->
  In r (work_list env items) ->
  renderRoute env (route r) (payload r) = Normal res ->
  truthy (generate_minify env) = true ->
  minify env (html res) (generate_minify env) = Throw e ->
  let st := snd (run env doBuild) in
  filter (is_type unhandled) (failures_of (route r) (errors st))
  = [Failure.mk unhandled (route r) (JError (minify_message (html res)))] /\
  (exists before, minify_message (html res) = (before ++ html res)%string) /\
  written_by (route r) (log st)
  = [(output_path (distPath env) (route r), html res)] /\
  fst (run env doBuild) = report_outcome env (errors st).
Proof.
  intros Hr Hin Hok Hcfg Hmin st.
  pose proof (run_failures_of env doBuild items Hr r Hin) as Hf.
  pose proof (run_written_by env doBuild items Hr r Hin) as Hw.
  pose proof (run_outcome env doBuild items Hr) as Hout.
  fold st in Hf, Hw, Hout.
  rewrite Hf, Hw, route_errors_cases, written_by_steps, Hok, Hcfg, Hmin.
  unfold final_html. rewrite Hcfg, Hmin.
  split; [now destruct (truthy (res_error res))|].
  split; [|split; [reflexivity | exact Hout]].
  eexists (String.append _ (String (ascii_of_nat 10) " ")).
  unfold minify_message. rewrite string_app_assoc. reflexivity.
Qed.

Lemma minify_throw_is_recorded_witness :
  filter (is_type unhandled)
         (failures_of "/z" (errors (snd (run sample_site true))))
  = [Failure.mk unhandled "/z" (JError (minify_message "<z>"))] /\
  written_by "/z" (log (snd (run sample_site true)))
  = [("/site/dist/z/index.html", "<z>")] /\
  exists report, fst (run sample_site true) = Normal (Some report).
Proof.
  destruct (minify_throw_is_recorded sample_site true sample_items
              (mkRouteSpec "/z" JNull) (mkRenderResult "<z>" JNull)
              (JError "Parse Error"))
    as (Hf & _ & Hw & Hout).
  - reflexivity.
  - vm_compute. tauto.
  - reflexivity.
  - reflexivity.
  - reflexivity.
  - split; [exact Hf|]. split; [exact Hw|].
    rewrite Hout. eexists. reflexivity.
Defined.

(** C3, as stated, fails: for [/y] the renderer reports an in-band error and
    the minifier then throws, and the run records two failures for [/y]. *)
Lemma two_failures_for_one_route :
  failures_of "/y" (errors (snd (run sample_site true)))
  = [Failure.mk handled "/y" (JObject [("statusCode", JNum 500)]);
     Failure.mk unhandled "/y" (JError (minify_message "<y>"))] /\
  ~ (length (failures_of "/y" (errors (snd (run sample_site true)))) <= 1).
Proof.
  split; [reflexivity|]. vm_compute. lia.
Qed.

(** C3, amended. For every route of the work list the run records at most
    one [handled] failure, when the render call returns with a truthy error,
    and at most one [unhandled] failure, when the render call throws or the
    minifier throws.  A render throw is the only failure of its route; a
    route has two failures exactly when its render call returns an in-band
    error and the minifier then throws.  The failures of a route are
    recorded in the order of its callback, however the callbacks are
    interleaved, and no failure is recorded for a path that is not in the
    work list. *)
Theorem failures_per_route
        (env : Env) (doBuild : bool) (items : list DynamicRouteItem)
        (r : RouteSpec) :
  resolved_items env = Normal items ->
  In r (work_list env items) ->
  let st := snd (run env doBuild) in
  let recorded := failures_of (route r) (errors st) in
  length (filter (is_type handled) recorded) <= 1 /\
  length (filter (is_type unhandled) recorded) <= 1 /\
  (forall err, renderRoute env (route r) (payload r) = Throw err ->
               recorded = [Failure.mk unhandled (route r) err]) /\
  (length recorded = 2 <->
   exists res e,
     renderRoute env (route r) (payload r) = Normal res /\
     truthy (res_error res) = true /\
     truthy (generate_minify env) = true /\
     minify env (html res) (generate_minify env) = Throw e) /\
  (forall p, ~ In p (map route (work_list env items)) ->
             failures_of p (errors st) = []) /\
  fst (run env doBuild) = report_outcome env (errors st).
Proof.
  intros Hr Hin st recorded.
  pose proof (run_failures_of env doBuild items Hr r Hin) as Hf.
  pose proof (run_outcome env doBuild items Hr) as Hout.
  fold st in Hf, Hout. fold recorded in Hf.
  assert (Habsent : forall p, ~ In p (map route (work_list env items)) ->
                              failures_of p (errors st) = [])
    by (intros p; apply run_failures_absent; assumption).
  revert Hf. generalize recorded. clear recorded. intros recorded ->.
  rewrite route_errors_cases.
  destruct (renderRoute env (route r) (payload r)) as [res|err].
  - destruct (truthy (res_error res)) eqn:Herror,
             (truthy (generate_minify env)) eqn:Hcfg;
      [destruct (minify env (html res) (generate_minify env)) as [m|e] eqn:Hmin| |
       destruct (minify env (html res) (generate_minify env)) as [m|e] eqn:Hmin|];
      simpl; (split; [lia|]); (split; [lia|]); (split; [discriminate|]);
      (split; [|split; assumption]);
      (split; [try discriminate | intros (res' & e' & [= <-] & H1 & H2 & H3);
                                  congruence]).
    intros _. exists res, e. auto.
  - simpl. split; [lia|]. split; [lia|]. split; [now intros ? [= <-]|].
    split; [|split; assumption].
    split; [discriminate | intros (? & ? & ? & _); discriminate].
Qed.

Lemma failures_per_route_witness :
  length (failures_of "/y" (errors (snd (run sample_site true)))) = 2.
Proof.
  destruct (failures_per_route sample_site true sample_items
              (mkRouteSpec "/y" (JNum 3)))
    as (_ & _ & _ & Htwo & _).
  - reflexivity.
  - vm_compute. tauto.
  - apply Htwo.
    exists (mkRenderResult "<y>" (JObject [("statusCode", JNum 500)])),
           (JError "Parse Error").
    repeat split.
Defined.

(** ** Batches of a run *)

Section BatchEvents.
Variable env : Env.

Lemma batch_events_main cur l rest :
  forallb is_main l = true -> ~ In (Main AwaitAll) l ->
  batch_events cur (l ++ rest) = batch_events cur rest.
Proof.
  induction l as [|ev l IH]; simpl; [reflexivity|].
  rewrite andb_true_iff. intros [Hm Hl] Hno.
  destruct ev as [e|p e]; [|discriminate].
  destruct e; try (apply IH; tauto). tauto.
Qed.

Lemma batch_events_callbacks l : forall cur rest,
  Forall (fun ev => is_main ev = false) l ->
  batch_events cur (l ++ Main AwaitAll :: rest)
  = (rev cur ++ l) :: batch_events [] rest.
Proof.
  induction l as [|ev l IH]; intros cur rest Hall; simpl.
  - now rewrite app_nil_r.
  - inversion_clear Hall as [|? ? Hev Hl].
    destruct ev as [e|p e]; [discriminate|].
    rewrite IH by assumption. simpl. now rewrite <- app_assoc.
Qed.

Lemma batch_callbacks batch evs n :
  Schedule (map (route_steps env) batch) evs ->
  Forall (fun ev => is_main ev = false) (batch_waits env n batch ++ evs).
Proof.
  intros Hs. apply Forall_forall. intros ev Hev.
  apply in_app_iff in Hev as [Hev|Hev].
  - apply batch_waits_tag in Hev as (r & ms & _ & ->). reflexivity.
  - destruct (steps_schedule_tag env _ _ _ Hs Hev) as (r & e & _ & -> & _).
    reflexivity.
Qed.

Lemma batch_events_loop bs es evs rest :
  LoopRun env bs es evs ->
  exists segs,
    batch_events [] (evs ++ rest) = segs ++ batch_events [] rest /\
    Forall2 (fun seg b => Permutation seg (batch_log env 0 b)) segs bs.
Proof.
  induction 1 as [|b bs es evs es' evs' Hes Hevs _ (segs & IHe & IHf)].
  - exists []. split; [reflexivity | constructor].
  - exists ((batch_waits env 0 b ++ evs) :: segs).
    replace ((batch_waits env 0 b ++ evs ++ Main AwaitAll :: evs') ++ rest)
      with ((batch_waits env 0 b ++ evs) ++ Main AwaitAll :: (evs' ++ rest))
      by (rewrite <- !app_assoc; reflexivity).
    rewrite batch_events_callbacks, IHe.
    + split; [reflexivity|]. constructor; [|exact IHf].
      apply batch_perm, schedule_perm, Hevs.
    + now apply batch_callbacks.
Qed.

Lemma render_calls_batch_log batch n :
  render_calls (batch_log env n batch)
  = map (fun r => (route r, payload r)) batch.
Proof.
  unfold render_calls. rewrite batch_log_proj by reflexivity.
  induction batch as [|r rest IH]; simpl; [reflexivity|].
  rewrite IH, route_steps_cases. simpl.
  destruct (renderRoute env (route r) (payload r)) as [res|err]; [|reflexivity].
  destruct (truthy (generate_minify env)); reflexivity.
Qed.

Lemma batch_events_run doBuild items :
  resolved_items env = Normal items ->
  Forall2 (fun seg b => Permutation seg (batch_log env 0 b))
          (batch_events [] (log (snd (run env doBuild))))
          (batches (work_list env items)).
Proof.
  intros Hr.
  destruct (run_resolved env doBuild items Hr) as (es & evs & Hloop & Hrun).
  rewrite Hrun. cbn [snd log].
  rewrite batch_events_main;
    [|apply prepare_log_main|
     intros H; apply prepare_log_events in H
       as [H|[H|[(p & H)|(src & dst & H)]]]; discriminate].
  rewrite batch_events_main;
    [|apply resolve_log_main|
     unfold resolve_log; destruct (String.eqb _ _); simpl;
     intros H; repeat (destruct H as [H|H]; [discriminate|]); contradiction].
  destruct (batch_events_loop _ _ _
              ([Main (Detach (WriteFile (nojekyllPath env) ""))] ++ report_log es)
              Hloop) as (segs & He & Hf).
  rewrite He.
  rewrite <- (app_nil_r (_ ++ report_log es)), batch_events_main.
  - simpl. now rewrite app_nil_r.
  - simpl. apply report_log_main.
  - simpl. intros [H|H]; [discriminate|].
    apply report_log_events in H. discriminate.
Qed.

End BatchEvents.

(** C7. In a run whose routes resolve, the loop works through the work list
    in [ceil(n / 500)] batches, the successive slices of at most 500 routes
    in list order.  What the callbacks of a batch do, from their wait to
    their write, lies between the [Promise.all] of the batch before and
    their own: it is an interleaving of what these callbacks do, and holds
    one call of [renderRoute] for each route of the batch.  Over the run
    [renderRoute] is called exactly once for every route of the work list,
    whose paths are pairwise distinct. *)
Theorem batch_loop_batches
        (env : Env) (doBuild : bool) (items : list DynamicRouteItem) :
  resolved_items env = Normal items ->
  let routes := work_list env items in
  let st := snd (run env doBuild) in
  Forall2 (fun seg b => Permutation seg (batch_log env 0 b))
          (batch_events [] (log st)) (batches routes) /\
  Forall2 (fun seg b => Permutation (render_calls seg)
                          (map (fun r => (route r, payload r)) b))
          (batch_events [] (log st)) (batches routes) /\
  length (batch_events [] (log st)) = (length routes + batch_size - 1) / batch_size /\
  concat (batches routes) = routes /\
  Forall (fun b => 1 <= length b <= batch_size) (batches routes) /\
  Permutation (render_calls (log st))
              (map (fun r => (route r, payload r)) routes) /\
  NoDup (map route routes).
Proof.
  intros Hr routes st.
  pose proof (batch_events_run env doBuild items Hr) as Hb.
  fold routes in Hb. fold st in Hb.
  split; [exact Hb|].
  split.
  { clear -Hb. induction Hb as [|seg b segs bs Hp _ IH]; constructor;
      [|exact IH].
    unfold render_calls at 1. rewrite Hp. apply Permutation_refl'.
    apply render_calls_batch_log. }
  split.
  { rewrite (Forall2_length Hb). apply chunks_length. reflexivity. }
  split; [apply batches_concat|].
  split; [apply chunks_sizes|].
  split; [now apply run_render_calls | apply work_list_NoDup].
Qed.

Lemma batch_loop_batches_witness :
  map (fun seg => map fst (render_calls seg))
      (batch_events [] (log (snd (run sample_site true))))
  = [["/"; "/x"; "/y"; "/z"; "/w"]] /\
  length (batch_events [] (log (snd (run sample_site true)))) = 1.
Proof.
  destruct (batch_loop_batches sample_site true sample_items)
    as (_ & _ & Hlen & _).
  - reflexivity.
  - split; [reflexivity | exact Hlen].
Defined.

Example large_site_batches :
  map (fun seg => length (render_calls seg))
      (batch_events [] (log (snd (run large_site true))))
  = [500; 500; 1].
Proof. vm_compute. reflexivity. Qed.

(** ** Route resolution and the marker file *)

Section SequentialMain.
Variable env : Env.

Lemma batch_log_callbacks n batch ev :
  In ev (batch_log env n batch) -> is_main ev = false.
Proof.
  revert n. induction batch as [|r b IH]; intros n; simpl; [tauto|].
  rewrite in_app_iff. intros [H|H]; [|now apply IH in H].
  now apply route_log_tag in H as [e ->].
Qed.

Lemma loop_log_main routes e :
  In (Main e) (loop_log env routes) -> e = AwaitAll.
Proof.
  unfold loop_log. rewrite in_flat_map. intros (b & _ & H).
  apply in_app_iff in H as [H|[H|[]]].
  - apply batch_log_callbacks in H. discriminate.
  - congruence.
Qed.

Lemma sequential_log_fs doBuild routes errs op :
  In (Main (Await op)) (sequential_log env doBuild routes errs) ->
  (exists p, op = Remove p) \/ (exists src dst, op = Copy src dst).
Proof.
  unfold sequential_log. rewrite !in_app_iff. intros [H|[H|[H|[H|H]]]].
  - apply prepare_log_events in H
      as [H|[H|[(p & H)|(src & dst & H)]]]; try discriminate;
      injection H as ->; eauto.
  - unfold resolve_log in H. destruct (String.eqb _ _); simpl in H;
      [contradiction | destruct H as [H|[H|[]]]; discriminate].
  - apply loop_log_main in H. discriminate.
  - destruct H as [H|[]]. discriminate.
  - apply report_log_events in H. discriminate.
Qed.

Lemma sequential_log_promisify doBuild routes errs :
  In (Main PromisifyRoute) (sequential_log env doBuild routes errs) <->
  String.eqb (router_mode env) "hash" = false.
Proof.
  unfold sequential_log, resolve_log. rewrite !in_app_iff. split.
  - intros [H|[H|[H|[H|H]]]].
    + apply prepare_log_events in H
        as [H|[H|[(p & H)|(src & dst & H)]]]; discriminate.
    + now destruct (String.eqb _ _).
    + apply loop_log_main in H. discriminate.
    + destruct H as [H|[]]. discriminate.
    + apply report_log_events in H. discriminate.
  - intros ->. right. left. simpl. tauto.
Qed.

End SequentialMain.

Lemma decorate_calls items static p v :
  In (p, v) (map (fun r => (route r, payload r))
                 (decorateWithPayloads items static)) <->
  (In p static \/ In p (map item_path items)) /\
  p <> "__proto__" /\
  v = merged_payload items p.
Proof.
  rewrite in_map_iff. split.
  - intros (r & [= <- <-] & Hin).
    pose proof (decorate_payload r items static Hin) as Hpay.
    apply decorate_In_get in Hin.
    assert (Hp : route r <> "__proto__").
    { apply get_In in Hin.
      pose proof (route_map_keyed items static) as Hk.
      rewrite Forall_forall in Hk. now destruct (Hk _ Hin). }
    split; [|split; assumption].
    rewrite route_map_get in Hin by assumption.
    destruct (last_item (route r) items) as [it|] eqn:L.
    + right. rewrite <- (last_item_path _ _ _ L).
      apply in_map. now apply last_item_In in L.
    + left. destruct (mem (route r) static) eqn:M; [|discriminate].
      now apply mem_In.
  - intros (Hin & Hp & ->).
    exists (mkRouteSpec p (merged_payload items p)). split; [reflexivity|].
    apply decorate_In_get. cbn [route]. rewrite route_map_get by assumption.
    unfold merged_payload.
    destruct (last_item p items) as [it|] eqn:L; [reflexivity|].
    apply last_item_None in L.
    destruct Hin as [Hin|Hin]; [|contradiction].
    apply mem_In in Hin. now rewrite Hin.
Qed.

(** C9. In hash mode the run never calls [promisifyRoute], whatever it would
    resolve to changes nothing, and the only route rendered is [/] with a
    [null] payload.  In any other mode [promisifyRoute] is called.  When it
    resolves, the routes rendered are those of [decorateWithPayloads]
    applied to the resolved items and the flattened static routes, each
    once: a path is rendered exactly when it is a static route or the path
    of a resolved item and is not [__proto__], and the payload passed is
    [payload || null] of the last item naming it, [null] without such an
    item.  When it rejects, [generate] throws the same error, no route has
    been rendered, nothing was recorded or written by a callback. *)
Theorem work_list_by_mode (env : Env) (doBuild : bool) :
  let st := snd (run env doBuild) in
  if String.eqb (router_mode env) "hash" then
    render_calls (log st) = [("/", JNull)] /\
    ~ In (Main PromisifyRoute) (log st) /\
    (forall dynamic, run (with_dynamic env dynamic) doBuild = run env doBuild) /\
    fst (run env doBuild) = report_outcome env (errors st)
  else
    match promisify_routes env with
    | Normal items =>
        In (Main PromisifyRoute) (log st) /\
        Permutation (render_calls (log st))
                    (map (fun r => (route r, payload r))
                         (decorateWithPayloads items (flat_routes env))) /\
        (forall p v,
            In (p, v) (render_calls (log st)) <->
            (In p (flat_routes env) \/ In p (map item_path items)) /\
            p <> "__proto__" /\
            v = merged_payload items p) /\
        NoDup (map fst (render_calls (log st))) /\
        fst (run env doBuild) = report_outcome env (errors st)
    | Throw e =>
        fst (run env doBuild) = Throw e /\
        In (Main PromisifyRoute) (log st) /\
        forallb is_main (log st) = true /\
        render_calls (log st) = [] /\
        errors st = [] /\
        awaited (log st) = awaited (prepare_log env doBuild)
    end.
Proof.
  intros st. destruct (String.eqb (router_mode env) "hash") eqn:Hmode.
  - assert (Hr : resolved_items env = Normal [])
      by (unfold resolved_items; now rewrite Hmode).
    pose proof (run_render_calls env doBuild [] Hr) as Hc.
    pose proof (run_log_perm env doBuild [] Hr) as Hl.
    fold st in Hc, Hl.
    split; [|split; [|split]].
    + unfold work_list in Hc. rewrite Hmode in Hc. simpl in Hc.
      apply Permutation_sym, Permutation_length_1_inv in Hc. exact Hc.
    + intros H. apply (Permutation_in _ Hl) in H.
      apply sequential_log_promisify in H. congruence.
    + intros dynamic. unfold run, generate, resolve_generate_routes, work_list.
      cbn [router_mode with_dynamic schedule]. rewrite Hmode. reflexivity.
    + apply (run_outcome env doBuild [] Hr).
  - destruct (promisify_routes env) as [items|e] eqn:Hp.
    + assert (Hr : resolved_items env = Normal items)
        by (unfold resolved_items; now rewrite Hmode).
      pose proof (run_render_calls env doBuild items Hr) as Hc.
      pose proof (run_log_perm env doBuild items Hr) as Hl.
      fold st in Hc, Hl.
      unfold work_list in Hc. rewrite Hmode in Hc.
      split; [|split; [exact Hc|split; [|split]]].
      * apply (Permutation_in _ (Permutation_sym Hl)).
        now apply sequential_log_promisify.
      * intros p v. rewrite <- decorate_calls. split; apply Permutation_in;
          [exact Hc | apply Permutation_sym, Hc].
      * apply (Permutation_map fst) in Hc. rewrite map_map in Hc. simpl in Hc.
        apply (Permutation_NoDup (Permutation_sym Hc)). apply decorate_NoDup.
      * apply (run_outcome env doBuild items Hr).
    + subst st. rewrite (run_rejected env doBuild e Hmode Hp).
      cbn [fst snd log errors].
      split; [reflexivity|].
      split; [rewrite in_app_iff; right; simpl; tauto|].
      pose proof (prepare_log_main env doBuild) as Hmain.
      split; [now rewrite forallb_app, Hmain|].
      split; [|split; [reflexivity|]].
      * unfold render_calls. rewrite flat_map_app. simpl.
        rewrite app_nil_r. apply main_proj; [reflexivity | exact Hmain].
      * unfold awaited. rewrite flat_map_app. simpl. apply app_nil_r.
Qed.

Lemma work_list_by_mode_witness :
  render_calls
    (log (snd (run (sample_env "hash" (Throw (JError "unreachable"))) true)))
  = [("/", JNull)] /\
  In ("/y", JNum 3) (render_calls (log (snd (run sample_site true)))) /\
  In ("/w", JNull) (render_calls (log (snd (run sample_site true)))) /\
  fst (run (sample_env "history" (Throw (JError "no routes"))) true)
  = Throw (JError "no routes").
Proof.
  split; [|split; [|split]].
  - destruct (work_list_by_mode
                (sample_env "hash" (Throw (JError "unreachable"))) true)
      as (Hc & _). exact Hc.
  - destruct (work_list_by_mode sample_site true) as (_ & _ & Hspec & _).
    apply Hspec. vm_compute. split; [tauto|]. split; [discriminate | reflexivity].
  - destruct (work_list_by_mode sample_site true) as (_ & _ & Hspec & _).
    apply Hspec. vm_compute. split; [tauto|]. split; [discriminate | reflexivity].
  - destruct (work_list_by_mode
                (sample_env "history" (Throw (JError "no routes"))) true)
      as (Hrun & _). exact Hrun.
Defined.

(** C10. In a run whose routes resolve, the write of the empty file
    [.nojekyll] under [distPath] is started and never awaited: it is still
    pending when [generate] is over, nothing is awaited after it is started,
    and the report, when [generate] returns one, is the duration and the
    [errors] array as they are at that point. *)
Theorem marker_write_not_awaited
        (env : Env) (doBuild : bool) (items : list DynamicRouteItem) :
  resolved_items env = Normal items ->
  let marker := WriteFile (nojekyllPath env) "" in
  let st := snd (run env doBuild) in
  (exists before after,
      log st = before ++ Main (Detach marker) :: after /\
      awaited after = [] /\
      ~ In (Main (Detach marker)) before) /\
  ~ In (Main (Await marker)) (log st) /\
  pending st = [marker] /\
  fst (run env doBuild) = report_outcome env (errors st) /\
  (forall report,
      fst (run env doBuild) = Normal (Some report) ->
      report = mkReport (duration_of (now_start env) (now_end env)) (errors st)).
Proof.
  intros Hr marker st.
  pose proof (run_outcome env doBuild items Hr) as Hout.
  pose proof (run_log_perm env doBuild items Hr) as Hl.
  pose proof (run_pending env doBuild items Hr) as Hpend.
  fold st in Hout, Hl, Hpend.
  split; [|split; [|split; [exact Hpend|split; [exact Hout|]]]].
  - destruct (run_resolved env doBuild items Hr) as (es & evs & Hloop & Hrun).
    subst st. rewrite Hrun. cbn [snd log].
    exists (prepare_log env doBuild ++ resolve_log env ++ evs), (report_log es).
    split; [now rewrite <- !app_assoc|].
    split.
    + unfold report_log. destruct es as [|x es]; [reflexivity|].
      now destruct (existsb stack_throws (x :: es)).
    + rewrite !in_app_iff. intros [H|[H|H]].
      * apply prepare_log_events in H
          as [H|[H|[(p & H)|(src & dst & H)]]]; discriminate.
      * unfold resolve_log in H. destruct (String.eqb _ _); simpl in H;
          [contradiction | destruct H as [H|[H|[]]]; discriminate].
      * apply loop_perm in Hloop as [Hp _].
        apply (Permutation_in _ Hp) in H.
        apply (loop_log_main env (work_list env items)) in H. discriminate.
  - intros H. apply (Permutation_in _ Hl) in H.
    apply sequential_log_fs in H as [(p & H)|(src & dst & H)]; discriminate.
  - intros report Hrep. rewrite Hout in Hrep. unfold report_outcome in Hrep.
    destruct (existsb stack_throws (errors st)); [discriminate|].
    now injection Hrep as <-.
Qed.

Lemma marker_write_not_awaited_witness :
  pending (snd (run sample_site true)) = [WriteFile "/site/dist/.nojekyll" ""] /\
  fst (run sample_site true)
  = Normal (Some (mkReport 14%Z (errors (snd (run sample_site true))))).
Proof.
  destruct (marker_write_not_awaited sample_site true sample_items)
    as (_ & _ & Hp & Hout & _).
  - reflexivity.
  - split; [exact Hp|]. rewrite Hout. reflexivity.
Defined.

(** ** Paths *)

Section PathFacts.
Import Path.
Local Open Scope string_scope.

Lemma split_not_nil s : split s <> []%list.
Proof.
  destruct s as [|c r]; simpl; [discriminate|].
  destruct (Ascii.eqb c slash); [discriminate|].
  destruct (split r); discriminate.
Qed.

Lemma split_slash a b : split (a ++ String slash b) = (split a ++ split b)%list.
Proof.
  induction a as [|c a IH]; simpl; [reflexivity|].
  destruct (Ascii.eqb c slash); [now rewrite IH|].
  rewrite IH. pose proof (split_not_nil a) as Hne.
  destruct (split a); [contradiction | reflexivity].
Qed.

Lemma split_slash_free s : slash_free s = true -> split s = [s]%list.
Proof.
  induction s as [|c r IH]; simpl; [reflexivity|].
  rewrite andb_true_iff, negb_true_iff. intros [-> Hr].
  now rewrite IH.
Qed.

Lemma split_segments s : Forall (fun x => slash_free x = true) (split s).
Proof.
  induction s as [|c r IH]; simpl; [repeat constructor|].
  destruct (Ascii.eqb c slash) eqn:E; [now constructor|].
  destruct (split r) as [|x xs]; [repeat constructor; simpl; now rewrite E|].
  inversion_clear IH as [|? ? Hx Hxs]. constructor; [|assumption].
  simpl. now rewrite E, Hx.
Qed.

Lemma split_intercalate segs :
  segs <> []%list ->
  Forall (fun x => slash_free x = true) segs ->
  split (intercalate segs) = segs.
Proof.
  induction segs as [|x r IH]; [contradiction|].
  intros _ H. inversion_clear H as [|? ? Hx Hr].
  destruct r as [|y r']; [now apply split_slash_free|].
  change (intercalate (x :: y :: r')) with (x ++ String slash (intercalate (y :: r'))).
  rewrite split_slash, split_slash_free by assumption.
  rewrite IH; [reflexivity | discriminate | assumption].
Qed.

Lemma intercalate_snoc l x :
  intercalate (l ++ [x]) =
  match l with
  | []%list => x
  | _ => intercalate l ++ String slash x
  end.
Proof.
  induction l as [|y r IH]; [reflexivity|].
  destruct r as [|z r']; [reflexivity|].
  change (intercalate ((y :: z :: r') ++ [x]))
    with (y ++ String slash (intercalate ((z :: r') ++ [x]))).
  rewrite IH.
  change (intercalate (y :: z :: r')) with (y ++ String slash (intercalate (z :: r'))).
  now rewrite string_app_assoc.
Qed.

Lemma append_not_empty a b : b <> "" -> a ++ b <> "".
Proof. destruct a; simpl; [tauto | discriminate]. Qed.

Lemma intercalate_snoc_not_empty l x : x <> "" -> intercalate (l ++ [x]) <> "".
Proof.
  intros Hx. rewrite intercalate_snoc.
  destruct l; [assumption | apply append_not_empty; discriminate].
Qed.

Lemma ends_with_slash_app a b :
  b <> "" -> ends_with_slash (a ++ b) = ends_with_slash b.
Proof.
  intros Hb. induction a as [|c a IH]; [reflexivity|].
  simpl. rewrite IH.
  pose proof (append_not_empty a b Hb).
  destruct (a ++ b); [contradiction | reflexivity].
Qed.

Lemma is_absolute_app a b : a <> "" -> is_absolute (a ++ b) = is_absolute a.
Proof. destruct a; [contradiction | reflexivity]. Qed.

Lemma step_blank a res : step a res "" = res.
Proof. reflexivity. Qed.

Lemma step_index a res : step a res "index.html" = ("index.html" :: res)%list.
Proof. reflexivity. Qed.

Lemma fold_step_kept a segs : forall res,
  forallb (fun s => negb (String.eqb s "..")) segs = true ->
  fold_left (step a) segs res = (rev (kept segs) ++ res)%list.
Proof.
  induction segs as [|s r IH]; intros res; simpl; [reflexivity|].
  rewrite andb_true_iff, negb_true_iff. intros [Hs Hr].
  rewrite IH by assumption. unfold step. rewrite Hs.
  destruct (String.eqb s "" || String.eqb s "."); simpl; [reflexivity|].
  now rewrite <- app_assoc.
Qed.

Lemma fold_step_segments a segs : forall res,
  Forall (fun s => segment s = true) segs ->
  fold_left (step a) segs res = (rev segs ++ res)%list.
Proof.
  induction segs as [|s r IH]; intros res H; simpl; [reflexivity|].
  inversion_clear H as [|? ? Hs Hr]. rewrite IH by assumption.
  unfold segment in Hs. rewrite !andb_true_iff, !negb_true_iff in Hs.
  destruct Hs as [[[H1 H2] H3] _]. unfold step. rewrite H1, H2, H3. simpl.
  now rewrite <- app_assoc.
Qed.

(** [normalize] on a path whose last segment is kept. *)
Lemma normalize_file p x stack :
  p <> "" ->
  ends_with_slash p = false ->
  fold_left (step (negb (is_absolute p))) (split p) [] = (x :: stack)%list ->
  x <> "" ->
  normalize p =
  (if is_absolute p then "/" else "") ++ intercalate (rev stack ++ [x]).
Proof.
  intros Hp Ht Hfold Hx. unfold normalize, normalizeString, normalizeSegments.
  apply String.eqb_neq in Hp. rewrite Hp, Ht, Hfold. simpl rev.
  pose proof (intercalate_snoc_not_empty (rev stack) x Hx) as Hq.
  apply String.eqb_neq in Hq. rewrite Hq.
  now destruct (is_absolute p).
Qed.

End PathFacts.

Section JoinFacts.
Import Path.
Local Open Scope string_scope.

Lemma normalize_slash p X x stack :
  p <> "" -> X <> "" ->
  ends_with_slash X = false ->
  fold_left (step (negb (is_absolute p))) (split X)
    (fold_left (step (negb (is_absolute p))) (split p) []) = (x :: stack)%list ->
  x <> "" ->
  normalize (p ++ String slash X) = root_prefix p ++ intercalate (rev stack ++ [x]).
Proof.
  intros Hp HX Ht Hfold Hx. unfold root_prefix.
  rewrite <- (is_absolute_app p (String slash X) Hp).
  apply normalize_file; try assumption.
  - apply append_not_empty. discriminate.
  - rewrite ends_with_slash_app by discriminate.
    simpl. destruct X; [contradiction | exact Ht].
  - rewrite is_absolute_app by assumption.
    now rewrite split_slash, fold_left_app.
Qed.

Lemma join_two a b :
  a <> "" -> b <> "" -> join [a; b] = normalize (a ++ String slash b).
Proof.
  intros Ha Hb. unfold join. simpl.
  apply String.eqb_neq in Ha, Hb. now rewrite Ha, Hb.
Qed.

Lemma join_three a b c :
  a <> "" -> b <> "" -> c <> "" ->
  join [a; b; c] = normalize (a ++ String slash (b ++ String slash c)).
Proof.
  intros Ha Hb Hc. unfold join. simpl.
  apply String.eqb_neq in Ha, Hb, Hc. now rewrite Ha, Hb, Hc.
Qed.

Lemma join_skip_middle a c :
  a <> "" -> c <> "" -> join [a; ""; c] = normalize (a ++ String slash c).
Proof.
  intros Ha Hc. unfold join. simpl.
  apply String.eqb_neq in Ha, Hc. now rewrite Ha, Hc.
Qed.

(** The inner [join(route, sep, 'index.html')] of the writer. *)
Lemma inner_join route :
  route <> "" ->
  join [route; sep; "index.html"] =
  root_prefix route
  ++ intercalate
       (rev (fold_left (step (negb (is_absolute route))) (split route) [])
        ++ ["index.html"]).
Proof.
  intros Hr. rewrite join_three by (assumption || discriminate).
  change (route ++ String slash (sep ++ String slash "index.html"))
    with (route ++ String slash "//index.html").
  apply normalize_slash; try assumption; try discriminate; reflexivity.
Qed.

Lemma plain_join route :
  route <> "" ->
  join [route; "index.html"] =
  root_prefix route
  ++ intercalate
       (rev (fold_left (step (negb (is_absolute route))) (split route) [])
        ++ ["index.html"]).
Proof.
  intros Hr. rewrite join_two by (assumption || discriminate).
  apply normalize_slash; try assumption; try discriminate; reflexivity.
Qed.

Lemma inner_join_empty : join [""; sep; "index.html"] = "/index.html".
Proof. reflexivity. Qed.

Lemma kept_segments segs :
  forallb (fun s => negb (String.eqb s "..")) segs = true ->
  Forall (fun x => slash_free x = true) segs ->
  Forall (fun s => segment s = true) (kept segs).
Proof.
  intros Hd Hs. rewrite forallb_forall in Hd. rewrite Forall_forall in *.
  intros s Hin. unfold kept in Hin. apply filter_In in Hin as [Hin Hk].
  rewrite negb_true_iff, orb_false_iff in Hk. destruct Hk as [H1 H2].
  unfold segment. now rewrite H1, H2, (Hd s Hin), (Hs s Hin).
Qed.

Lemma segment_slash_free segs :
  Forall (fun s => segment s = true) segs ->
  Forall (fun x => slash_free x = true) segs.
Proof.
  apply Forall_impl. intros s H. unfold segment in H.
  now rewrite !andb_true_iff in H.
Qed.

(** Folding the segments of [prefix ++ segs.join('/') ++ '/index.html']. *)
Lemma fold_named a (absolute_form : bool) segs res :
  Forall (fun s => segment s = true) segs ->
  fold_left (step a)
    (split ((if absolute_form then "/" else "")
            ++ intercalate (segs ++ ["index.html"])))
    res = ("index.html" :: rev segs ++ res)%list.
Proof.
  intros Hs.
  assert (Hsplit : split (intercalate (segs ++ ["index.html"]))
                   = (segs ++ ["index.html"])%list).
  { apply split_intercalate; [now destruct segs|].
    apply Forall_app. split; [now apply segment_slash_free|].
    repeat constructor. }
  assert (Hfold : forall res', fold_left (step a) (segs ++ ["index.html"]) res'
                  = ("index.html" :: rev segs ++ res')%list).
  { intros res'. rewrite fold_left_app, (fold_step_segments a segs) by assumption.
    reflexivity. }
  destruct absolute_form.
  - change ("/" ++ intercalate (segs ++ ["index.html"]))
      with ("" ++ String slash (intercalate (segs ++ ["index.html"]))).
    rewrite split_slash, Hsplit. simpl split. cbn [app fold_left].
    rewrite step_blank. apply Hfold.
  - simpl append. rewrite Hsplit. apply Hfold.
Qed.

Lemma named_file_shape (absolute_form : bool) segs :
  let X := (if absolute_form then "/" else "")
           ++ intercalate (segs ++ ["index.html"]) in
  X <> "" /\ ends_with_slash X = false.
Proof.
  cbv zeta.
  assert (Hne : intercalate (segs ++ ["index.html"]) <> "")
    by (apply intercalate_snoc_not_empty; discriminate).
  split; [now apply append_not_empty|].
  rewrite ends_with_slash_app by assumption.
  rewrite intercalate_snoc. destruct segs; [reflexivity|].
  rewrite ends_with_slash_app by discriminate. reflexivity.
Qed.

(** The path computed by the writer, on a route without [..]. *)
Lemma output_path_segments dist route :
  dist <> "" ->
  no_dotdot route = true ->
  output_path dist route =
  root_prefix dist
  ++ intercalate
       (rev (fold_left (step (negb (is_absolute dist))) (split dist) [])
        ++ kept (split route) ++ ["index.html"]).
Proof.
  intros Hd Hnd. unfold output_path.
  destruct (string_dec route "") as [->|Hr].
  - rewrite inner_join_empty, join_two by (assumption || discriminate).
    rewrite (normalize_slash dist "/index.html" "index.html"
               (fold_left (step (negb (is_absolute dist))) (split dist) []));
      try assumption; try discriminate; reflexivity.
  - rewrite inner_join by assumption.
    unfold no_dotdot in Hnd. rewrite fold_step_kept by assumption.
    rewrite app_nil_r, rev_involutive.
    pose proof (kept_segments (split route) Hnd (split_segments route)) as Hk.
    destruct (named_file_shape (is_absolute route) (kept (split route)))
      as [Hne Hends].
    unfold root_prefix at 1.
    rewrite join_two by assumption.
    rewrite (normalize_slash dist _ "index.html"
               (rev (kept (split route))
                ++ fold_left (step (negb (is_absolute dist))) (split dist) []));
      try assumption; try discriminate.
    + now rewrite rev_app_distr, rev_involutive, <- app_assoc.
    + now apply fold_named.
Qed.

Lemma flat_join_segments dist route :
  dist <> "" ->
  no_dotdot route = true ->
  join [dist; route; "index.html"] =
  root_prefix dist
  ++ intercalate
       (rev (fold_left (step (negb (is_absolute dist))) (split dist) [])
        ++ kept (split route) ++ ["index.html"]).
Proof.
  intros Hd Hnd.
  destruct (string_dec route "") as [->|Hr].
  - rewrite join_skip_middle by (assumption || discriminate).
    rewrite (normalize_slash dist "index.html" "index.html"
               (fold_left (step (negb (is_absolute dist))) (split dist) []));
      try assumption; try discriminate; reflexivity.
  - rewrite join_three by (assumption || discriminate).
    rewrite (normalize_slash dist _ "index.html"
               (rev (kept (split route))
                ++ fold_left (step (negb (is_absolute dist))) (split dist) []));
      try assumption; try discriminate.
    + now rewrite rev_app_distr, rev_involutive, <- app_assoc.
    + apply append_not_empty. discriminate.
    + rewrite ends_with_slash_app by discriminate. reflexivity.
    + rewrite split_slash, fold_left_app.
      unfold no_dotdot in Hnd.
      now rewrite (fold_step_kept _ (split route)) by assumption.
Qed.

(** Whatever the route, the separator given to the inner [join] changes
    nothing. *)
Lemma output_path_nested dist route :
  dist <> "" ->
  output_path dist route = join [dist; join [route; "index.html"]].
Proof.
  intros Hd. unfold output_path.
  destruct (string_dec route "") as [->|Hr].
  - rewrite inner_join_empty.
    change (join [""; "index.html"]) with "index.html".
    rewrite !join_two by (assumption || discriminate).
    rewrite (normalize_slash dist "/index.html" "index.html"
               (fold_left (step (negb (is_absolute dist))) (split dist) []));
      try assumption; try discriminate; try reflexivity.
    rewrite (normalize_slash dist "index.html" "index.html"
               (fold_left (step (negb (is_absolute dist))) (split dist) []));
      try assumption; try discriminate; reflexivity.
  - now rewrite inner_join, plain_join.
Qed.

End JoinFacts.

Section ResolveFacts.
Import Path.
Local Open Scope string_scope.

Lemma resolve_scan_reaches_cwd c l : forall acc,
  is_absolute c = true ->
  exists p, resolve_scan (l ++ [c]) acc = (p, true).
Proof.
  intros acc Hc. revert acc.
  assert (Hne : String.eqb c "" = false) by now destruct c.
  induction l as [|a r IH]; intros acc; simpl.
  - rewrite Hne, Hc. eauto.
  - destruct (String.eqb a ""); [apply IH|].
    destruct (is_absolute a); [eauto | apply IH].
Qed.

Lemma step_keeps_segments res seg :
  slash_free seg = true ->
  Forall (fun s => segment s = true) res ->
  Forall (fun s => segment s = true) (step false res seg).
Proof.
  intros Hs Hres. unfold step.
  destruct (String.eqb seg "") eqn:E1; simpl; [assumption|].
  destruct (String.eqb seg ".") eqn:E2; simpl; [assumption|].
  destruct (String.eqb seg "..") eqn:E3.
  - destruct res as [|top below]; [constructor|].
    destruct (String.eqb top ".."); [assumption|].
    now inversion Hres.
  - constructor; [|assumption].
    unfold segment. now rewrite E1, E2, E3, Hs.
Qed.

Lemma fold_keeps_segments segs : forall res,
  Forall (fun x => slash_free x = true) segs ->
  Forall (fun s => segment s = true) res ->
  Forall (fun s => segment s = true) (fold_left (step false) segs res).
Proof.
  induction segs as [|s r IH]; intros res Hs Hres; simpl; [assumption|].
  inversion_clear Hs as [|? ? H1 H2].
  apply IH; [assumption | now apply step_keeps_segments].
Qed.

Lemma resolve_absolute c args :
  is_absolute c = true ->
  exists root,
    Forall (fun s => segment s = true) root /\ resolve c args = absolute root.
Proof.
  intros Hc. unfold resolve.
  change (rev (c :: args)) with (rev args ++ [c])%list.
  destruct (resolve_scan_reaches_cwd c (rev args) "" Hc) as [p ->].
  exists (normalizeSegments false (split p)). split; [|reflexivity].
  unfold normalizeSegments. apply Forall_rev.
  apply fold_keeps_segments; [apply split_segments | constructor].
Qed.

Lemma absolute_fold root :
  Forall (fun s => segment s = true) root ->
  fold_left (step (negb (is_absolute (absolute root)))) (split (absolute root)) []
  = rev root.
Proof.
  intros Hroot. unfold absolute.
  change ("/" ++ intercalate root) with ("" ++ String slash (intercalate root)).
  rewrite split_slash. simpl split. cbn [app fold_left is_absolute append].
  rewrite step_blank.
  destruct root as [|x r]; [reflexivity|].
  rewrite split_intercalate;
    [| discriminate | now apply segment_slash_free].
  rewrite fold_step_segments by assumption. apply app_nil_r.
Qed.

Lemma output_path_under_root root route :
  Forall (fun s => segment s = true) root ->
  no_dotdot route = true ->
  output_path (absolute root) route =
  absolute (root ++ kept (split route) ++ ["index.html"]).
Proof.
  intros Hroot Hnd.
  rewrite output_path_segments by (assumption || discriminate).
  rewrite absolute_fold by assumption.
  now rewrite rev_involutive.
Qed.

End ResolveFacts.

Example sample_output_paths :
  output_path (distPath sample_site) "/" = "/site/dist/index.html" /\
  output_path (distPath sample_site) "/about" = "/site/dist/about/index.html" /\
  output_path (distPath sample_site) "/about/" = "/site/dist/about/index.html".
Proof. repeat split; reflexivity. Qed.

(** ** Output paths *)

Section OutputPaths.
Import Path.
Local Open Scope string_scope.

Lemma segment_not_empty s : segment s = true -> s <> "".
Proof.
  unfold segment. rewrite !andb_true_iff, !negb_true_iff.
  intros [[[H _] _] _]. now apply String.eqb_neq.
Qed.

Lemma intercalate_segments_not_empty l :
  l <> []%list -> Forall (fun s => segment s = true) l -> intercalate l <> "".
Proof.
  destruct l as [|x r]; [contradiction|]. intros _ H.
  inversion_clear H as [|? ? Hx _]. apply segment_not_empty in Hx.
  destruct r; simpl; [assumption|].
  destruct x; [contradiction | discriminate].
Qed.

Lemma absolute_inj l1 l2 :
  Forall (fun s => segment s = true) l1 ->
  Forall (fun s => segment s = true) l2 ->
  absolute l1 = absolute l2 -> l1 = l2.
Proof.
  intros H1 H2 E. unfold absolute in E. simpl in E. injection E as E.
  destruct l1 as [|x1 r1], l2 as [|x2 r2]; [reflexivity| | |].
  - exfalso. symmetry in E. revert E.
    apply intercalate_segments_not_empty; [discriminate | assumption].
  - exfalso. revert E.
    apply intercalate_segments_not_empty; [discriminate | assumption].
  - rewrite <- (split_intercalate (x1 :: r1)), <- (split_intercalate (x2 :: r2));
      try discriminate; try (now apply segment_slash_free).
    now rewrite E.
Qed.

Lemma normalized_segments route :
  Forall (fun s => segment s = true) (normalizeSegments false (split route)).
Proof.
  unfold normalizeSegments. apply Forall_rev.
  apply fold_keeps_segments; [apply split_segments | constructor].
Qed.

(** The writer's path for a route with a leading slash, [..] included. *)
Lemma output_path_absolute_route root route :
  Forall (fun s => segment s = true) root ->
  is_absolute route = true ->
  output_path (absolute root) route =
  absolute (root ++ normalizeSegments false (split route) ++ ["index.html"]).
Proof.
  intros Hroot Habs.
  assert (Hr : route <> "") by (destruct route; [discriminate | discriminate]).
  unfold output_path. rewrite inner_join by assumption.
  unfold root_prefix at 1. rewrite Habs. cbn [negb].
  change (rev (fold_left (step false) (split route) []))
    with (normalizeSegments false (split route)).
  pose proof (normalized_segments route) as Hsegs.
  set (segs := normalizeSegments false (split route)) in *.
  destruct (named_file_shape true segs) as [Hne Hends].
  rewrite join_two by (assumption || discriminate).
  rewrite (normalize_slash (absolute root) _ "index.html" (rev segs ++ rev root));
    try assumption; try discriminate.
  - unfold absolute. rewrite rev_app_distr, !rev_involutive, <- app_assoc.
    reflexivity.
  - rewrite absolute_fold by assumption.
    now apply (fold_named _ true segs).
Qed.

Lemma chars_app a b :
  list_ascii_of_string (a ++ b)
  = (list_ascii_of_string a ++ list_ascii_of_string b)%list.
Proof. induction a as [|c a IH]; simpl; [reflexivity | now rewrite IH]. Qed.

Lemma slash_free_chars s :
  slash_free s = true ->
  Forall (fun c => Ascii.eqb c slash = false) (list_ascii_of_string s).
Proof.
  induction s as [|c r IH]; simpl; [constructor|].
  rewrite andb_true_iff, negb_true_iff. intros [Hc Hr].
  constructor; [assumption | now apply IH].
Qed.

Lemma drop_while_stops (f : ascii -> bool) l :
  match l with
  | []%list => True
  | (c :: _)%list => f c = false
  end -> drop_while f l = l.
Proof. destruct l as [|c r]; simpl; [reflexivity | now intros ->]. Qed.

Lemma drop_while_all (f : ascii -> bool) a b :
  Forall (fun c => f c = true) a ->
  drop_while f (a ++ b) = drop_while f b.
Proof.
  induction 1 as [|c a Hc _ IH]; simpl; [reflexivity | now rewrite Hc].
Qed.

(** [dirname] of a file directly under a list of directories. *)
Lemma dirname_of_file dirs name :
  Forall (fun s => segment s = true) dirs ->
  segment name = true ->
  dirname (absolute (dirs ++ [name])) = absolute dirs.
Proof.
  intros Hdirs Hname.
  assert (Hfree : Forall (fun c => Ascii.eqb c slash = false)
                         (rev (list_ascii_of_string name))).
  { apply Forall_rev, slash_free_chars. unfold segment in Hname.
    now rewrite !andb_true_iff in Hname. }
  assert (Hnot : Forall (fun c => negb (Ascii.eqb c slash) = true)
                        (rev (list_ascii_of_string name))).
  { eapply Forall_impl; [|exact Hfree]. simpl. now intros c ->. }
  assert (Hne : rev (list_ascii_of_string name) <> []%list).
  { apply segment_not_empty in Hname. destruct name; [contradiction|].
    simpl. intros E. apply app_eq_nil in E as [_ E]. discriminate. }
  unfold dirname, absolute. rewrite intercalate_snoc.
  destruct dirs as [|d ds].
  - cbn [append list_ascii_of_string]. simpl Ascii.eqb.
    rewrite (drop_while_stops (fun c => Ascii.eqb c slash)).
    + rewrite <- (app_nil_r (rev _)), drop_while_all by assumption.
      reflexivity.
    + destruct (rev (list_ascii_of_string name)) as [|c r]; [exact I|].
      now inversion Hfree.
  - set (dir := intercalate (d :: ds)).
    assert (Hdir : dir <> "")
      by (apply intercalate_segments_not_empty; [discriminate | assumption]).
    cbn [append list_ascii_of_string]. simpl Ascii.eqb.
    rewrite chars_app. cbn [list_ascii_of_string].
    rewrite rev_app_distr. cbn [rev]. rewrite <- app_assoc. cbn [app].
    rewrite (drop_while_stops (fun c => Ascii.eqb c slash)).
    + rewrite drop_while_all by assumption. cbn [drop_while]. simpl negb.
      destruct (rev (list_ascii_of_string dir)) as [|c r] eqn:E.
      * exfalso. apply Hdir.
        rewrite <- (string_of_list_ascii_of_string dir).
        rewrite <- (rev_involutive (list_ascii_of_string dir)), E. reflexivity.
      * rewrite <- E, rev_involutive. cbn [string_of_list_ascii].
        now rewrite string_of_list_ascii_of_string.
    + destruct (rev (list_ascii_of_string name)) as [|c r]; [contradiction|].
      now inversion Hfree.
Qed.

Lemma ends_with_slash_segment s :
  segment s = true -> ends_with_slash s = false.
Proof.
  unfold segment. rewrite !andb_true_iff. intros [_ Hfree].
  induction s as [|c r IH]; [reflexivity|].
  simpl in Hfree. rewrite andb_true_iff, negb_true_iff in Hfree.
  destruct Hfree as [Hc Hr]. simpl.
  destruct r; [assumption | now apply IH].
Qed.

(** [normalize] leaves an absolute path made of plain segments as it is. *)
Lemma normalize_absolute root :
  Forall (fun s => segment s = true) root ->
  normalize (absolute root) = absolute root.
Proof.
  intros Hroot.
  destruct (rev root) as [|x stack] eqn:E.
  - assert (root = []%list) as -> by (apply (f_equal (@rev _)) in E;
                                        now rewrite rev_involutive in E).
    reflexivity.
  - assert (Hrt : root = (rev stack ++ [x])%list).
    { apply (f_equal (@rev _)) in E. now rewrite rev_involutive in E. }
    assert (Hx : segment x = true).
    { rewrite Hrt in Hroot. apply Forall_app in Hroot as [_ H].
      now inversion H. }
    rewrite (normalize_file (absolute root) x stack).
    + unfold absolute at 1. cbn [append is_absolute]. simpl Ascii.eqb.
      cbv iota. now rewrite <- Hrt.
    + discriminate.
    + unfold absolute. rewrite ends_with_slash_app.
      * rewrite Hrt, intercalate_snoc.
        destruct (rev stack); [now apply ends_with_slash_segment|].
        rewrite ends_with_slash_app by discriminate.
        simpl. pose proof (ends_with_slash_segment x Hx) as H.
        destruct x; [apply segment_not_empty in Hx; contradiction | exact H].
      * now apply intercalate_segments_not_empty;
          [rewrite Hrt; destruct (rev stack) |].
    + now rewrite absolute_fold.
    + now apply segment_not_empty.
Qed.

End OutputPaths.

Lemma dist_root (env : Env) :
  exists root,
    Forall (fun s => segment s = true) root /\ distPath env = absolute root.
Proof. apply resolve_absolute. reflexivity. Qed.

(** ** Routes with [..] segments *)

Section InsideFacts.
Import Path.
Local Open Scope string_scope.

(** Segments that never climb above their start only touch the part of the
    stack they pushed themselves. *)
Lemma fold_step_inside a a' segs : forall top base,
  Forall (fun s => s <> "..") top ->
  inside (length top) segs = true ->
  fold_left (step a) segs (top ++ base)%list
  = (fold_left (step a') segs top ++ base)%list.
Proof.
  induction segs as [|s r IH]; intros top base Htop Hin; [reflexivity|].
  cbn [fold_left]. cbn [inside] in Hin. unfold step at 2 4.
  destruct (String.eqb s "" || String.eqb s "."); [now apply IH|].
  destruct (String.eqb s "..") eqn:E.
  - destruct top as [|t top']; [discriminate|].
    inversion_clear Htop as [|? ? Ht Htop'].
    apply String.eqb_neq in Ht. cbn [app]. rewrite Ht.
    now apply IH.
  - apply (IH (s :: top) base); [|exact Hin].
    constructor; [|assumption]. now apply String.eqb_neq.
Qed.

Lemma no_dotdot_inside segs : forall depth,
  forallb (fun s => negb (String.eqb s "..")) segs = true ->
  inside depth segs = true.
Proof.
  induction segs as [|s r IH]; intros depth; simpl; [reflexivity|].
  rewrite andb_true_iff, negb_true_iff. intros [-> Hr].
  destruct (String.eqb s "" || String.eqb s "."); now apply IH.
Qed.

Lemma no_dotdot_stays_inside route :
  no_dotdot route = true -> stays_inside route = true.
Proof. apply no_dotdot_inside. Qed.

Lemma no_dotdot_normalized route :
  no_dotdot route = true ->
  normalizeSegments false (split route) = kept (split route).
Proof.
  intros H. unfold normalizeSegments, no_dotdot in *.
  rewrite fold_step_kept by assumption.
  now rewrite app_nil_r, rev_involutive.
Qed.

(** The writer's path for a route that stays inside. *)
Lemma output_path_inside root route :
  Forall (fun s => segment s = true) root ->
  stays_inside route = true ->
  output_path (absolute root) route =
  absolute (root ++ normalizeSegments false (split route) ++ ["index.html"]).
Proof.
  intros Hroot Hin.
  destruct (string_dec route "") as [->|Hr].
  - rewrite output_path_under_root by (assumption || reflexivity). reflexivity.
  - unfold output_path. rewrite inner_join by assumption.
    assert (Hfold : fold_left (step (negb (is_absolute route))) (split route) []
                    = fold_left (step false) (split route) []).
    { pose proof (fold_step_inside (negb (is_absolute route)) false
                    (split route) [] [] (Forall_nil _) Hin) as H.
      cbn [app] in H. now rewrite app_nil_r in H. }
    rewrite Hfold.
    change (rev (fold_left (step false) (split route) []))
      with (normalizeSegments false (split route)).
    pose proof (normalized_segments route) as Hsegs.
    set (segs := normalizeSegments false (split route)) in *.
    destruct (named_file_shape (is_absolute route) segs) as [Hne Hends].
    unfold root_prefix at 1.
    rewrite join_two by (assumption || discriminate).
    rewrite (normalize_slash (absolute root) _ "index.html" (rev segs ++ rev root));
      try assumption; try discriminate.
    + unfold absolute. rewrite rev_app_distr, !rev_involutive, <- app_assoc.
      reflexivity.
    + rewrite absolute_fold by assumption.
      now apply (fold_named _ (is_absolute route) segs).
Qed.

(** The single [join] of the three parts, for such a route. *)
Lemma flat_join_inside root route :
  Forall (fun s => segment s = true) root ->
  stays_inside route = true ->
  join [absolute root; route; "index.html"] =
  absolute (root ++ normalizeSegments false (split route) ++ ["index.html"]).
Proof.
  intros Hroot Hin.
  destruct (string_dec route "") as [->|Hr].
  - rewrite flat_join_segments by (discriminate || reflexivity).
    rewrite absolute_fold by assumption. now rewrite rev_involutive.
  - rewrite join_three by (assumption || discriminate).
    set (segs := normalizeSegments false (split route)).
    rewrite (normalize_slash (absolute root) _ "index.html" (rev segs ++ rev root));
      try assumption; try discriminate.
    + unfold absolute. rewrite rev_app_distr, !rev_involutive, <- app_assoc.
      reflexivity.
    + apply append_not_empty. discriminate.
    + rewrite ends_with_slash_app by discriminate. reflexivity.
    + rewrite absolute_fold by assumption.
      rewrite split_slash, fold_left_app.
      pose proof (fold_step_inside
                    (negb (is_absolute (absolute root))) false
                    (split route) [] (rev root) (Forall_nil _) Hin) as H.
      cbn [app] in H. rewrite H. unfold segs, normalizeSegments.
      now rewrite rev_involutive.
Qed.

End InsideFacts.

(** C8, as stated, fails: for the route [/..] the writer computes the file
    [index.html] of the output directory, while the output directory joined
    with the route and [index.html] is a file of its parent directory. *)
Lemma climbing_route_is_clamped :
  output_path (distPath sample_site) "/.." = "/site/dist/index.html" /\
  Path.join [distPath sample_site; "/.."; "index.html"] = "/site/index.html" /\
  output_path (distPath sample_site) "/.."
  <> Path.join [distPath sample_site; "/.."; "index.html"].
Proof.
  split; [reflexivity|]. split; [reflexivity|]. discriminate.
Qed.

(** C8, amended. The output root [distPath] is an absolute, normalised
    path.  For every route whose [..] segments never climb above the place
    where the route starts, the path computed by the writer is the join of
    [distPath], the route and [index.html]: the segments of [distPath]
    followed by the segments that normalising the route leaves and by
    [index.html]; without any [..] segment these are the segments of the
    route other than the empty ones and [.].  Route [/] maps to
    [<distPath>/index.html] and route [/about] to
    [<distPath>/about/index.html]. *)
Theorem output_path_rule (env : Env) (route : string) :
  stays_inside route = true ->
  exists root : list string,
    Forall (fun s => segment s = true) root /\
    distPath env = absolute root /\
    output_path (distPath env) route
    = Path.join [distPath env; route; "index.html"] /\
    output_path (distPath env) route
    = absolute (root ++ Path.normalizeSegments false (Path.split route)
                     ++ ["index.html"]) /\
    (no_dotdot route = true ->
     Path.normalizeSegments false (Path.split route) = kept (Path.split route)) /\
    output_path (distPath env) "/" = absolute (root ++ ["index.html"]) /\
    output_path (distPath env) "/about"
    = absolute (root ++ ["about"; "index.html"]).
Proof.
  intros Hin. unfold distPath.
  destruct (resolve_absolute (cwd env) [rootDir env; generate_dir env] eq_refl)
    as (root & Hroot & ->).
  exists root. split; [assumption|]. split; [reflexivity|].
  split; [|split; [|split]].
  - now rewrite output_path_inside, flat_join_inside.
  - now apply output_path_inside.
  - apply no_dotdot_normalized.
  - split; now apply output_path_under_root.
Qed.

Lemma output_path_rule_witness :
  output_path (distPath sample_site) "/a/../b"
  = Path.join [distPath sample_site; "/a/../b"; "index.html"] /\
  exists root : list string,
    distPath sample_site = absolute root /\
    output_path (distPath sample_site) "/" = absolute (root ++ ["index.html"]) /\
    output_path (distPath sample_site) "/about"
    = absolute (root ++ ["about"; "index.html"]).
Proof.
  destruct (output_path_rule sample_site "/a/../b")
    as (root & _ & Hdist & Hflat & _ & _ & Hhome & Habout).
  - reflexivity.
  - split; [exact Hflat|].
    exists root. repeat split; assumption.
Defined.

(** ** The events of one callback in a run *)

Lemma NoDup_app_disjoint {A} (l l' : list A) x :
  NoDup (l ++ l') -> In x l -> ~ In x l'.
Proof.
  induction l as [|y l IH]; simpl; [tauto|].
  intros Hnd [->|Hin] Hx.
  - inversion_clear Hnd as [|? ? Hy _]. apply Hy, in_or_app. now right.
  - inversion_clear Hnd as [|? ? _ Hl]. now apply (IH Hl Hin).
Qed.

Section EventsOf.
Variable env : Env.

Lemma events_of_main p l : forallb is_main l = true -> events_of p l = [].
Proof.
  intros H. unfold events_of.
  induction l as [|ev l IH]; [reflexivity|].
  simpl in H. apply andb_true_iff in H as [Hev Hl].
  destruct ev; [|discriminate]. simpl. now apply IH.
Qed.

Lemma events_of_own n r : events_of (route r) (route_log env n r) = route_log env n r.
Proof.
  unfold events_of. apply forallb_filter_id, forallb_forall.
  intros ev Hev. apply route_log_tag in Hev as (e & ->).
  simpl. apply String.eqb_refl.
Qed.

Lemma events_of_other p n r : route r <> p -> events_of p (route_log env n r) = [].
Proof.
  intros Hne. unfold events_of.
  rewrite filter_as_flat_map. apply flat_map_nil.
  intros ev Hev. apply route_log_tag in Hev as (e & ->).
  simpl. apply String.eqb_neq in Hne. now rewrite Hne.
Qed.

Lemma events_of_app p l l' :
  events_of p (l ++ l') = events_of p l ++ events_of p l'.
Proof. apply filter_app. Qed.

Lemma events_of_batch_absent p batch : forall n,
  ~ In p (map route batch) -> events_of p (batch_log env n batch) = [].
Proof.
  induction batch as [|r rest IH]; intros n Hp; [reflexivity|].
  simpl in *. rewrite events_of_app, events_of_other, IH by tauto.
  reflexivity.
Qed.

Lemma events_of_batch batch : forall n i r,
  NoDup (map route batch) ->
  nth_error batch i = Some r ->
  events_of (route r) (batch_log env n batch) = route_log env (n + i) r.
Proof.
  induction batch as [|r0 rest IH]; intros n i r Hnd Hi;
    [now destruct i|].
  simpl in Hnd. inversion_clear Hnd as [|? ? Hr0 Hrest].
  cbn [batch_log]. rewrite events_of_app.
  destruct i as [|i]; simpl in Hi.
  - injection Hi as ->. rewrite events_of_own, events_of_batch_absent by assumption.
    now rewrite app_nil_r, Nat.add_0_r.
  - rewrite events_of_other, (IH (S n) i r Hrest Hi).
    + simpl. f_equal. lia.
    + intros E. apply Hr0. rewrite E. apply in_map. now apply nth_error_In in Hi.
Qed.

Lemma events_of_loop_absent p bs :
  ~ In p (map route (concat bs)) ->
  events_of p (flat_map (fun b => batch_log env 0 b ++ [Main AwaitAll]) bs) = [].
Proof.
  induction bs as [|b bs IH]; intros Hp; [reflexivity|].
  simpl in *. rewrite map_app, in_app_iff in Hp.
  rewrite !events_of_app, events_of_batch_absent, IH by tauto. reflexivity.
Qed.

Lemma events_of_loop bs : forall b i r,
  NoDup (map route (concat bs)) ->
  In b bs ->
  nth_error b i = Some r ->
  events_of (route r) (flat_map (fun b => batch_log env 0 b ++ [Main AwaitAll]) bs)
  = route_log env i r.
Proof.
  induction bs as [|b0 bs IH]; intros b i r Hnd Hb Hi; [contradiction|].
  simpl in Hnd. rewrite map_app in Hnd.
  cbn [flat_map]. rewrite !events_of_app.
  change (events_of (route r) [Main AwaitAll]) with (@nil Event).
  destruct Hb as [->|Hb].
  - rewrite (events_of_batch b 0 i r) by
      (assumption || now apply NoDup_app_remove_r in Hnd).
    rewrite events_of_loop_absent; [now rewrite !app_nil_r|].
    apply (NoDup_app_disjoint _ _ _ Hnd).
    apply in_map. now apply nth_error_In in Hi.
  - rewrite events_of_batch_absent, (IH b i r); try assumption.
    + reflexivity.
    + now apply NoDup_app_remove_l in Hnd.
    + intros Hin. apply (NoDup_app_disjoint _ _ _ Hnd Hin).
      apply in_map, in_concat. exists b. split; [assumption|].
      now apply nth_error_In in Hi.
Qed.

Lemma events_of_sequential p doBuild routes errs :
  events_of p (sequential_log env doBuild routes errs)
  = events_of p (loop_log env routes).
Proof.
  unfold sequential_log. rewrite !events_of_app.
  rewrite (events_of_main p _ (prepare_log_main env doBuild)).
  rewrite (events_of_main p _ (resolve_log_main env)).
  rewrite (events_of_main p _ (report_log_main errs)).
  simpl. now rewrite app_nil_r.
Qed.

End EventsOf.

Section RunEvents.
Variable env : Env.
Variable doBuild : bool.
Variable items : list DynamicRouteItem.
Hypothesis resolved : resolved_items env = Normal items.

Lemma of_route_local p q e :
  q <> p -> (if of_route p (Callback q e) then [Callback q e] else []) = [].
Proof. intros Hne. simpl. apply String.eqb_neq in Hne. now rewrite Hne. Qed.

Lemma run_events_sequential p :
  events_of p (log (snd (run env doBuild)))
  = events_of p (loop_log env (work_list env items)).
Proof.
  unfold events_of at 1. rewrite filter_as_flat_map.
  rewrite (run_log_local env doBuild items resolved _ p (of_route_local p)).
  rewrite <- filter_as_flat_map. apply events_of_sequential.
Qed.

(** The callback of a route runs as written, whatever happens between its
    steps. *)
Lemma run_events_of b i r :
  In b (batches (work_list env items)) ->
  nth_error b i = Some r ->
  events_of (route r) (log (snd (run env doBuild))) = route_log env i r.
Proof.
  intros Hb Hi. rewrite run_events_sequential. unfold loop_log.
  apply (events_of_loop env _ b i r); try assumption.
  rewrite batches_concat. apply work_list_NoDup.
Qed.

Lemma run_events_absent p :
  ~ In p (map route (work_list env items)) ->
  events_of p (log (snd (run env doBuild))) = [].
Proof.
  intros Hp. rewrite run_events_sequential. unfold loop_log.
  apply events_of_loop_absent. now rewrite batches_concat.
Qed.

Lemma work_list_position r :
  In r (work_list env items) ->
  exists b i, In b (batches (work_list env items)) /\ nth_error b i = Some r
              /\ i < batch_size.
Proof.
  intros Hin. rewrite <- (batches_concat (work_list env items)) in Hin.
  apply in_concat in Hin as (b & Hb & Hr).
  apply In_nth_error in Hr as (i & Hi).
  exists b, i. split; [assumption|]. split; [assumption|].
  pose proof (chunks_sizes (length (work_list env items)) (work_list env items))
    as Hsizes.
  rewrite Forall_forall in Hsizes. specialize (Hsizes b Hb).
  assert (i < length b) by (apply nth_error_Some; congruence). lia.
Qed.

End RunEvents.

(** * Further properties of [generate] *)

(** ** The report *)

Lemma duration_of_bounds (s now : Z) :
  (100 * duration_of s now - 50 <= now - s < 100 * duration_of s now + 50)%Z.
Proof.
  unfold duration_of.
  pose proof (Z.div_mod (now - s + 50) 100 ltac:(lia)) as Hdm.
  pose proof (Z.mod_pos_bound (now - s + 50) 100 ltac:(lia)) as Hb.
  lia.
Qed.

Lemma returned_report (env : Env) (doBuild : bool) (report : Report) :
  fst (run env doBuild) = Normal (Some report) ->
  report = mkReport (duration_of (now_start env) (now_end env))
                    (errors (snd (run env doBuild))).
Proof.
  intros Hrun. destruct (resolved_items env) as [items|e] eqn:Hr.
  - rewrite (run_outcome env doBuild items Hr) in Hrun.
    unfold report_outcome in Hrun.
    destruct (existsb stack_throws _); [discriminate|].
    now injection Hrun as <-.
  - unfold resolved_items in Hr.
    destruct (String.eqb (router_mode env) "hash") eqn:Hm; [discriminate|].
    rewrite (run_rejected env doBuild e Hm Hr) in Hrun. discriminate.
Qed.

(** X1. The duration of the report is the elapsed time rounded to the
    nearest tenth of a second, halves up: it is within 50 ms of the elapsed
    time, and it is not negative when the clock did not go back. *)
Theorem report_duration_is_rounded
        (env : Env) (doBuild : bool) (report : Report) (st : State) :
  run env doBuild = (Normal (Some report), st) ->
  let elapsed := (now_end env - now_start env)%Z in
  (100 * duration_tenths report - 50 <= elapsed
   < 100 * duration_tenths report + 50)%Z /\
  (0 <= elapsed -> 0 <= duration_tenths report)%Z.
Proof.
  intros Hrun elapsed.
  assert (Hd : duration_tenths report = duration_of (now_start env) (now_end env)).
  { rewrite (returned_report env doBuild report); [reflexivity|].
    now rewrite Hrun. }
  rewrite Hd. pose proof (duration_of_bounds (now_start env) (now_end env)).
  subst elapsed. split; lia.
Qed.

Lemma report_duration_is_rounded_witness :
  exists report st,
    run sample_site true = (Normal (Some report), st) /\
    (100 * duration_tenths report - 50 <= 1449
     < 100 * duration_tenths report + 50)%Z.
Proof.
  destruct (run sample_site true) as [c st] eqn:Hrun.
  destruct c as [[report|]|e]; try (vm_compute in Hrun; discriminate).
  exists report, st. split; [reflexivity|].
  exact (proj1 (report_duration_is_rounded sample_site true report st Hrun)).
Defined.

Lemma route_errors_clean (env : Env) (r : RouteSpec) :
  route_errors env r = [] <-> route_clean env r = true.
Proof.
  rewrite route_errors_cases. unfold route_clean.
  destruct (renderRoute env (route r) (payload r)) as [res|err];
    [|split; discriminate].
  destruct (truthy (res_error res)); simpl; [split; discriminate|].
  destruct (truthy (generate_minify env)); [|tauto].
  destruct (minify env (html res) (generate_minify env)); [tauto|].
  split; discriminate.
Qed.

Lemma flat_map_empty_iff {A B} (f : A -> list B) (l : list A) :
  flat_map f l = [] <-> forall x, In x l -> f x = [].
Proof.
  split; [|apply flat_map_nil].
  induction l as [|x r IH]; simpl; [tauto|].
  intros H. apply app_eq_nil in H as [Hx Hr].
  intros y [<-|Hy]; [assumption | now apply IH].
Qed.

(** X2. The run of a site whose routes resolve records no failure exactly
    when every route of the work list rendered without throwing and without
    an in-band error, and its minification, when configured, did not throw;
    [generate] then returns a report without errors.  Whenever [generate]
    returns a report, its errors are the failures recorded. *)
Theorem report_is_clean_iff
        (env : Env) (doBuild : bool) (items : list DynamicRouteItem) :
  resolved_items env = Normal items ->
  let st := snd (run env doBuild) in
  (errors st = [] <->
   forallb (route_clean env) (work_list env items) = true) /\
  (forallb (route_clean env) (work_list env items) = true ->
   fst (run env doBuild)
   = Normal (Some (mkReport (duration_of (now_start env) (now_end env)) []))) /\
  (forall report,
      fst (run env doBuild) = Normal (Some report) ->
      report_errors report = errors st).
Proof.
  intros Hr st.
  pose proof (run_errors_perm env doBuild items Hr) as Hp. fold st in Hp.
  pose proof (run_outcome env doBuild items Hr) as Hout. fold st in Hout.
  assert (Hiff : errors st = [] <->
                 forallb (route_clean env) (work_list env items) = true).
  { rewrite forallb_forall. split.
    - intros E r Hin. apply route_errors_clean.
      rewrite E in Hp. apply Permutation_nil in Hp.
      now apply (proj1 (flat_map_empty_iff _ _) Hp).
    - intros H. apply Permutation_nil, Permutation_sym.
      rewrite Hp. apply Permutation_refl'.
      apply flat_map_nil. intros r Hin. apply route_errors_clean. now apply H. }
  split; [exact Hiff|]. split.
  - intros H. apply Hiff in H. rewrite Hout, H. reflexivity.
  - intros report Hrep. apply returned_report in Hrep. now rewrite Hrep.
Qed.

Lemma report_is_clean_iff_witness :
  errors (snd (run large_site true)) = [] /\
  fst (run large_site true) = Normal (Some (mkReport 0%Z [])).
Proof.
  destruct (report_is_clean_iff large_site true [] eq_refl)
    as (Hiff & Hrep & _).
  split.
  - apply Hiff. vm_compute. reflexivity.
  - apply Hrep. vm_compute. reflexivity.
Defined.



(** ** The file system *)

Section AwaitedOps.
Variable env : Env.

Lemma awaited_prepare doBuild :
  awaited (prepare_log env doBuild) =
  Remove (distPath env)
  :: (if static_exists env
      then [Copy (srcStaticPath env) (distPath env)] else [])
  ++ [Copy (srcBuiltPath env) (distNuxtPath env)].
Proof.
  unfold prepare_log, prepare, bind, emit, ret.
  now destruct (has_builder env && doBuild), (static_exists env).
Qed.

Lemma awaited_route_steps r :
  awaited (route_steps env r) = route_fs_ops env r.
Proof.
  rewrite route_steps_cases. unfold route_fs_ops, awaited.
  destruct (renderRoute env (route r) (payload r)) as [res|err]; [|reflexivity].
  now destruct (truthy (generate_minify env)).
Qed.

Lemma loop_log_proj_batches {B} (f : Event -> list B) routes :
  (forall p ms, f (Callback p (WaitFor ms)) = []) ->
  f (Main AwaitAll) = [] ->
  flat_map f (loop_log env routes) =
  flat_map (fun r => flat_map f (route_steps env r)) routes.
Proof.
  intros Hwait Hall. unfold loop_log. rewrite flat_map_nested.
  rewrite (flat_map_ext _ (fun b => flat_map (fun r => flat_map f (route_steps env r)) b)).
  - rewrite <- flat_map_nested.
    replace (flat_map (fun b : list RouteSpec => b) (batches routes))
      with (concat (batches routes)).
    + now rewrite batches_concat.
    + rewrite flat_map_concat_map. now rewrite map_id.
  - intros b. rewrite flat_map_app, (batch_log_proj env f Hwait). simpl.
    now rewrite Hall, app_nil_r.
Qed.

Lemma awaited_report_log errs : awaited (report_log errs) = [].
Proof.
  unfold report_log. destruct errs as [|x l]; [reflexivity|].
  now destruct (existsb stack_throws (x :: l)).
Qed.

Lemma awaited_resolve_log : awaited (resolve_log env) = [].
Proof. unfold resolve_log. now destruct (String.eqb _ _). Qed.

(** The awaited calls of a run: those of the preparation, then those of the
    callbacks in the order in which they were resumed. *)
Lemma awaited_of_run doBuild items :
  resolved_items env = Normal items ->
  exists ops,
    awaited (log (snd (run env doBuild))) = awaited (prepare_log env doBuild) ++ ops /\
    Permutation ops (flat_map (route_fs_ops env) (work_list env items)).
Proof.
  intros Hr.
  destruct (run_resolved env doBuild items Hr) as (es & evs & Hloop & Hrun).
  rewrite Hrun. cbn [snd log]. exists (awaited evs). split.
  - unfold awaited. rewrite !flat_map_app.
    fold (awaited (resolve_log env)). fold (awaited (report_log es)).
    rewrite awaited_resolve_log, awaited_report_log. simpl.
    now rewrite app_nil_r.
  - apply loop_perm in Hloop as [Hp _]. unfold awaited at 1. rewrite Hp.
    fold (loop_log env (work_list env items)).
    rewrite loop_log_proj_batches by reflexivity.
    apply Permutation_refl'. apply flat_map_ext. intros r.
    apply awaited_route_steps.
Qed.

Lemma awaited_events_of doBuild items r :
  resolved_items env = Normal items ->
  In r (work_list env items) ->
  awaited (events_of (route r) (log (snd (run env doBuild)))) = route_fs_ops env r.
Proof.
  intros Hr Hin.
  destruct (work_list_position env items r Hin) as (b & i & Hb & Hi & _).
  rewrite (run_events_of env doBuild items Hr b i r Hb Hi).
  rewrite route_log_steps. apply awaited_route_steps.
Qed.

End AwaitedOps.

(** X4. The file-system calls a run awaits are, first and in this order,
    the removal of the output directory, the copy of the static directory
    when it exists and the copy of the built files; then the calls of the
    callbacks: for every route of the work list whose render call returned,
    the creation of the directory of its file and then the write of its
    file, and nothing for a route whose render call threw.  The calls of
    different callbacks come in the order in which the callbacks were
    resumed. *)
Theorem awaited_calls_of_a_run
        (env : Env) (doBuild : bool) (items : list DynamicRouteItem) :
  resolved_items env = Normal items ->
  let st := snd (run env doBuild) in
  exists ops,
    awaited (log st) =
    Remove (distPath env)
    :: (if static_exists env
        then [Copy (srcStaticPath env) (distPath env)] else [])
    ++ Copy (srcBuiltPath env) (distNuxtPath env) :: ops /\
    Permutation ops (flat_map (route_fs_ops env) (work_list env items)) /\
    (forall r, In r (work_list env items) ->
               awaited (events_of (route r) (log st)) = route_fs_ops env r).
Proof.
  intros Hr st.
  destruct (awaited_of_run env doBuild items Hr) as (ops & Hops & Hperm).
  exists ops. fold st in Hops. split; [|split; [exact Hperm|]].
  - rewrite Hops, awaited_prepare. simpl. now rewrite <- app_assoc.
  - intros r Hin. now apply awaited_events_of with (items := items).
Qed.

Lemma awaited_calls_of_a_run_witness :
  awaited (log (snd (run sample_site true))) =
  [Remove "/site/dist"; Copy "/site/static" "/site/dist";
   Copy "/site/.nuxt/dist" "/site/dist/_nuxt/";
   Mkdirp "/site/dist"; Mkdirp "/site/dist/y"; Mkdirp "/site/dist/z";
   Mkdirp "/site/dist/w";
   WriteFile "/site/dist/index.html" "min:<p>page</p>";
   WriteFile "/site/dist/y/index.html" "<y>";
   WriteFile "/site/dist/z/index.html" "<z>";
   WriteFile "/site/dist/w/index.html" "min:<p>page</p>"] /\
  awaited (events_of "/z" (log (snd (run sample_site true))))
  = [Mkdirp "/site/dist/z"; WriteFile "/site/dist/z/index.html" "<z>"].
Proof.
  destruct (awaited_calls_of_a_run sample_site true sample_items eq_refl)
    as (ops & _ & _ & Hroute).
  split; [vm_compute; reflexivity|].
  apply (Hroute (mkRouteSpec "/z" JNull)). vm_compute. tauto.
Defined.

(** X5. Whatever the outcome of a run, its first effect is the wait for
    [nuxt.ready()], and the builder is run exactly when there is a builder
    and [doBuild] is set. *)
Theorem build_only_when_asked (env : Env) (doBuild : bool) :
  (exists rest, log (snd (run env doBuild)) = Main NuxtReady :: rest) /\
  (In (Main BuilderBuild) (log (snd (run env doBuild))) <->
   has_builder env && doBuild = true).
Proof.
  assert (Hshape : exists tail,
            log (snd (run env doBuild)) = prepare_log env doBuild ++ tail /\
            ~ In (Main BuilderBuild) tail).
  { destruct (resolved_items env) as [items|e] eqn:Hr.
    - destruct (run_resolved env doBuild items Hr) as (es & evs & Hloop & Hrun).
      rewrite Hrun. cbn [snd log].
      eexists. split; [reflexivity|].
      rewrite !in_app_iff. intros [H|[H|[H|H]]].
      + unfold resolve_log in H. destruct (String.eqb _ _); simpl in H;
          [contradiction | destruct H as [H|[H|[]]]; discriminate].
      + apply loop_perm in Hloop as [Hp _].
        apply (Permutation_in _ Hp) in H.
        apply (loop_log_main env (work_list env items)) in H. discriminate.
      + destruct H as [H|[]]. discriminate.
      + apply report_log_events in H. discriminate.
    - unfold resolved_items in Hr.
      destruct (String.eqb (router_mode env) "hash") eqn:Hm; [discriminate|].
      rewrite (run_rejected env doBuild e Hm Hr). cbn [snd log].
      eexists. split; [reflexivity|]. simpl.
      intros [H|[H|[H|[H|[]]]]]; discriminate. }
  destruct Hshape as (tail & -> & Htail).
  unfold prepare_log, prepare, bind, emit, ret.
  split.
  - destruct (has_builder env && doBuild), (static_exists env);
      simpl; eexists; reflexivity.
  - rewrite in_app_iff.
    destruct (has_builder env && doBuild), (static_exists env); simpl;
      split; intros H; try reflexivity; try tauto;
      repeat (destruct H as [H|H]; try discriminate H); try contradiction;
      discriminate.
Qed.

(** ** Output paths *)

(** A relative route with [..] is where the writer leaves the output
    directory. *)
Example relative_dotdot_route_escapes :
  output_path "/site/dist" "../x" = "/site/x/index.html".
Proof. reflexivity. Qed.

(** X6. A route with a leading slash is always written under the output
    directory, whatever its segments: the path of its file is made of the
    segments of [distPath], then of the segments that normalising the route
    as an absolute path leaves, then of [index.html]; the [..] segments of
    the route never climb above [distPath]. *)
Theorem absolute_route_stays_under_dist (env : Env) (route : string) :
  Path.is_absolute route = true ->
  let dirs := Path.normalizeSegments false (Path.split route) in
  Forall (fun s => segment s = true) dirs /\
  exists root,
    Forall (fun s => segment s = true) root /\
    distPath env = absolute root /\
    output_path (distPath env) route = absolute (root ++ dirs ++ ["index.html"]).
Proof.
  intros Habs dirs. split; [apply normalized_segments|].
  destruct (dist_root env) as (root & Hroot & ->).
  exists root. split; [assumption|]. split; [reflexivity|].
  now apply output_path_absolute_route.
Qed.

Lemma absolute_route_stays_under_dist_witness :
  Path.normalizeSegments false (Path.split "/a/../../b") = ["b"] /\
  exists root,
    distPath sample_site = absolute root /\
    output_path (distPath sample_site) "/a/../../b"
    = absolute (root ++ ["b"] ++ ["index.html"]).
Proof.
  destruct (absolute_route_stays_under_dist sample_site "/a/../../b" eq_refl)
    as (_ & root & _ & Hd & Hp).
  split; [reflexivity|]. exists root. split; assumption.
Defined.

(** X7. For a route with a leading slash, the directory that the callback
    creates before writing is the parent of the file it writes: it lies
    under [distPath], and joining it with [index.html] gives the path of the
    file. *)
Theorem created_directory_holds_the_file (env : Env) (route : string) :
  Path.is_absolute route = true ->
  let file := output_path (distPath env) route in
  exists root dirs,
    Forall (fun s => segment s = true) (root ++ dirs) /\
    distPath env = absolute root /\
    Path.dirname file = absolute (root ++ dirs) /\
    Path.join [Path.dirname file; "index.html"] = file.
Proof.
  intros Habs file. subst file.
  destruct (dist_root env) as (root & Hroot & ->).
  pose proof (normalized_segments route) as Hdirs.
  set (dirs := Path.normalizeSegments false (Path.split route)) in *.
  assert (Hall : Forall (fun s => segment s = true) (root ++ dirs))
    by (apply Forall_app; now split).
  exists root, dirs. split; [assumption|]. split; [reflexivity|].
  rewrite (output_path_absolute_route root route Hroot Habs). fold dirs.
  rewrite app_assoc, dirname_of_file by (assumption || reflexivity).
  split; [reflexivity|].
  rewrite join_two by discriminate.
  rewrite (normalize_slash (absolute (root ++ dirs)) "index.html" "index.html"
             (rev (root ++ dirs))); try discriminate; try reflexivity.
  - now rewrite rev_involutive.
  - now rewrite absolute_fold.
Qed.

Lemma created_directory_holds_the_file_witness :
  Path.dirname (output_path (distPath sample_site) "/about/team")
  = "/site/dist/about/team" /\
  Path.join [Path.dirname (output_path (distPath sample_site) "/about/team");
             "index.html"]
  = output_path (distPath sample_site) "/about/team".
Proof.
  destruct (created_directory_holds_the_file sample_site "/about/team" eq_refl)
    as (root & dirs & _ & _ & _ & Hjoin).
  split; [reflexivity | exact Hjoin].
Defined.

Lemma nojekyll_under_root (env : Env) root :
  Forall (fun s => segment s = true) root ->
  distPath env = absolute root ->
  nojekyllPath env = absolute (root ++ [".nojekyll"]).
Proof.
  intros Hroot Hd. unfold nojekyllPath. rewrite Hd.
  unfold Path.resolve. cbn [rev app Path.resolve_scan].
  change (String.eqb ".nojekyll" "") with false.
  change (Path.is_absolute ".nojekyll") with false.
  change (String.eqb (absolute root) "") with false.
  change (Path.is_absolute (absolute root)) with true.
  cbv iota. unfold Path.normalizeString, Path.normalizeSegments.
  change (".nojekyll" ++ "/" ++ "")%string with ".nojekyll/".
  change (absolute root ++ "/" ++ ".nojekyll/")%string
    with (absolute root ++ String Path.slash ".nojekyll/")%string.
  rewrite split_slash, fold_left_app.
  pose proof (absolute_fold root Hroot) as Hfold.
  change (negb (Path.is_absolute (absolute root))) with false in Hfold.
  cbn [negb]. rewrite Hfold.
  change (Path.split ".nojekyll/") with [".nojekyll"; ""].
  cbn [fold_left]. rewrite step_blank.
  change (Path.step false (rev root) ".nojekyll") with (".nojekyll" :: rev root).
  cbn [rev]. now rewrite rev_involutive.
Qed.

(** X8. The marker file is [.nojekyll] directly under [distPath], and no
    route with a leading slash has it as its output file. *)
Theorem marker_is_not_a_route_file (env : Env) (route : string) :
  Path.is_absolute route = true ->
  exists root,
    distPath env = absolute root /\
    nojekyllPath env = absolute (root ++ [".nojekyll"]) /\
    output_path (distPath env) route <> nojekyllPath env.
Proof.
  intros Habs. destruct (dist_root env) as (root & Hroot & Hd).
  exists root. split; [assumption|].
  pose proof (nojekyll_under_root env root Hroot Hd) as Hn.
  split; [assumption|].
  rewrite Hn, Hd, (output_path_absolute_route root route Hroot Habs).
  intros E. apply absolute_inj in E.
  - apply app_inv_head in E.
    apply (f_equal (@rev _)) in E. rewrite rev_app_distr in E.
    simpl in E. discriminate.
  - apply Forall_app. split; [assumption|].
    apply Forall_app. split; [apply normalized_segments | repeat constructor].
  - apply Forall_app. split; [assumption | repeat constructor].
Qed.

Lemma marker_is_not_a_route_file_witness :
  nojekyllPath sample_site = "/site/dist/.nojekyll" /\
  output_path (distPath sample_site) "/.nojekyll" <> nojekyllPath sample_site.
Proof.
  destruct (marker_is_not_a_route_file sample_site "/.nojekyll" eq_refl)
    as (root & _ & _ & Hne).
  split; [reflexivity | exact Hne].
Defined.

(** X9. When [build.publicPath] is a URL, the built files are copied into
    [distPath] itself. *)
Theorem built_files_land_in_dist (env : Env) :
  isUrl_publicPath env = true ->
  distNuxtPath env = distPath env.
Proof.
  intros Hurl. unfold distNuxtPath. rewrite Hurl.
  destruct (dist_root env) as (root & Hroot & ->).
  unfold Path.join. cbn [filter].
  change (String.eqb (absolute root) "") with false.
  change (String.eqb "" "") with true. cbn [negb Path.intercalate].
  now apply normalize_absolute.
Qed.

Lemma built_files_land_in_dist_witness :
  distNuxtPath cdn_site = "/site/dist".
Proof.
  rewrite (built_files_land_in_dist cdn_site eq_refl). reflexivity.
Defined.

(** ** Hash mode *)



(** ** Delays *)

Section Delays.
Variable env : Env.

Lemma wait_route_log n r :
  flat_map wait_of (route_log env n r) =
  [(route r, (Z.of_nat n * generate_interval env)%Z)].
Proof.
  rewrite route_log_cases. cbn [flat_map wait_of app]. f_equal.
  destruct (renderRoute env (route r) (payload r)) as [res|err]; [|reflexivity].
  now destruct (truthy (generate_minify env)).
Qed.

Lemma wait_batch_log batch : forall n,
  flat_map wait_of (batch_log env n batch) =
  combine (map route batch)
          (map (fun i => (Z.of_nat i * generate_interval env)%Z)
               (seq n (length batch))).
Proof.
  induction batch as [|r rest IH]; intros n; [reflexivity|].
  cbn [batch_log]. rewrite flat_map_app, wait_route_log, IH. reflexivity.
Qed.

Lemma wait_loop_log routes :
  flat_map wait_of (loop_log env routes) =
  flat_map (batch_delays env) (batches routes).
Proof.
  unfold loop_log. rewrite flat_map_nested. apply flat_map_ext. intros b.
  rewrite flat_map_app, wait_batch_log. cbn [flat_map wait_of app].
  apply app_nil_r.
Qed.

End Delays.

Section RunDelays.
Variable env : Env.

Lemma wait_batch_waits batch : forall n,
  wait_calls (batch_waits env n batch) =
  combine (map route batch)
          (map (fun i => (Z.of_nat i * generate_interval env)%Z)
               (seq n (length batch))).
Proof.
  induction batch as [|r rest IH]; intros n; [reflexivity|].
  simpl. unfold wait_calls in IH. now rewrite IH.
Qed.

Lemma wait_steps_schedule batch evs :
  Schedule (map (route_steps env) batch) evs -> wait_calls evs = [].
Proof.
  intros Hs. apply flat_map_nil. intros ev Hev.
  now destruct (steps_schedule_tag env _ _ _ Hs Hev) as (r & e & _ & _ & Hw).
Qed.

Lemma wait_loop bs es evs :
  LoopRun env bs es evs ->
  wait_calls evs = flat_map (batch_delays env) bs.
Proof.
  induction 1 as [|b bs es evs es' evs' Hes Hevs _ IH]; [reflexivity|].
  unfold wait_calls in *. rewrite !flat_map_app.
  fold (wait_calls (batch_waits env 0 b)). fold (wait_calls evs).
  rewrite wait_batch_waits, (wait_steps_schedule b evs Hevs).
  cbn [flat_map wait_of app]. now rewrite IH.
Qed.

Lemma wait_calls_of_run doBuild items :
  resolved_items env = Normal items ->
  wait_calls (log (snd (run env doBuild)))
  = flat_map (batch_delays env) (batches (work_list env items)).
Proof.
  intros Hr.
  destruct (run_resolved env doBuild items Hr) as (es & evs & Hloop & Hrun).
  rewrite Hrun. cbn [snd log]. unfold wait_calls. rewrite !flat_map_app.
  rewrite (main_proj wait_of (fun _ => eq_refl) _ (prepare_log_main env doBuild)),
          (main_proj wait_of (fun _ => eq_refl) _ (resolve_log_main env)),
          (main_proj wait_of (fun _ => eq_refl) _ (report_log_main es)).
  fold (wait_calls evs). rewrite (wait_loop _ _ _ Hloop).
  simpl. now rewrite app_nil_r.
Qed.

Lemma route_steps_first r :
  exists rest,
    route_steps env r
    = Callback (route r) (RenderRoute (route r) (payload r)) :: rest /\
    wait_calls rest = [] /\ render_calls rest = [].
Proof.
  rewrite route_steps_cases. eexists. split; [reflexivity|].
  destruct (renderRoute env (route r) (payload r)) as [res|err];
    [destruct (truthy (generate_minify env))|]; split; reflexivity.
Qed.

End RunDelays.

(** X11. Every callback first waits for its position in its batch times
    [generate.interval], and calls [renderRoute] only after that wait; it
    waits once and renders once.  The waits of a batch are started in list
    order, and the counter starts again at zero with every batch, so the
    first route of a batch does not wait and no delay exceeds 499
    intervals. *)
Theorem delays_restart_with_each_batch
        (env : Env) (doBuild : bool) (items : list DynamicRouteItem) :
  resolved_items env = Normal items ->
  let st := snd (run env doBuild) in
  wait_calls (log st) =
  flat_map (batch_delays env) (batches (work_list env items)) /\
  (forall p ms, In (p, ms) (wait_calls (log st)) ->
     exists i, i < batch_size /\ ms = (Z.of_nat i * generate_interval env)%Z) /\
  (forall b i r,
      In b (batches (work_list env items)) ->
      nth_error b i = Some r ->
      exists rest,
        events_of (route r) (log st)
        = Callback (route r) (WaitFor (Z.of_nat i * generate_interval env))
          :: Callback (route r) (RenderRoute (route r) (payload r))
          :: rest /\
        wait_calls rest = [] /\ render_calls rest = []).
Proof.
  intros Hr st.
  pose proof (wait_calls_of_run env doBuild items Hr) as Hw. fold st in Hw.
  split; [exact Hw|]. split.
  - intros p ms Hin. rewrite Hw in Hin.
    apply in_flat_map in Hin as (b & Hb & Hin).
    unfold batch_delays in Hin. apply in_combine_r in Hin.
    apply in_map_iff in Hin as (i & <- & Hi). apply in_seq in Hi.
    exists i. split; [|reflexivity].
    pose proof (chunks_sizes (length (work_list env items)) (work_list env items))
      as Hsizes.
    rewrite Forall_forall in Hsizes. specialize (Hsizes b Hb). lia.
  - intros b i r Hb Hi. subst st.
    rewrite (run_events_of env doBuild items Hr b i r Hb Hi), route_log_steps.
    destruct (route_steps_first env r) as (rest & -> & Hrest).
    exists rest. split; [reflexivity | exact Hrest].
Qed.

Lemma delays_restart_with_each_batch_witness :
  wait_calls (log (snd (run sample_site true)))
  = [("/", 0%Z); ("/x", 10%Z); ("/y", 20%Z); ("/z", 30%Z); ("/w", 40%Z)] /\
  exists rest,
    events_of "/y" (log (snd (run sample_site true)))
    = Callback "/y" (WaitFor 20) :: Callback "/y" (RenderRoute "/y" (JNum 3))
      :: rest.
Proof.
  destruct (delays_restart_with_each_batch sample_site true sample_items eq_refl)
    as (Hw & _ & Hfirst).
  split; [rewrite Hw; vm_compute; reflexivity|].
  destruct (Hfirst (work_list sample_site sample_items) 2
                   (mkRouteSpec "/y" (JNum 3)))
    as (rest & Hev & _).
  - vm_compute. tauto.
  - vm_compute. reflexivity.
  - exists rest. exact Hev.
Defined.

(** With an interval of 10 ms, route 500 of 1001 opens the second batch and
    does not wait. *)
Example second_batch_starts_without_delay :
  nth 500 (flat_map (batch_delays sample_site)
             (batches (map (fun p => mkRouteSpec p JNull)
                           (map numbered_page (seq 0 1001)))))
      ("", 0%Z)
  = ("/p/500", 0%Z).
Proof. vm_compute. reflexivity. Qed.

(** ** The merged list, whatever the keys *)

Lemma mem_filter (f : string -> bool) p l :
  mem p (filter f l) = mem p l && f p.
Proof.
  apply eq_true_iff_eq. rewrite andb_true_iff, !mem_In, filter_In. tauto.
Qed.

Section FoldSetAny.
Context {A V : Type} (key : A -> string) (val : A -> V).

Lemma fold_upsert_keys_any (l : list A) : forall o : JsObject.t V,
  map fst (fold_left (upsert key val) l o) =
  map fst o
  ++ dedup (filter (fun p => negb (mem p (map fst o))
                             && negb (String.eqb p "__proto__"))
                   (map key l)).
Proof.
  induction l as [|a r IH]; intros o; simpl.
  - now rewrite app_nil_r.
  - rewrite IH.
    assert (Hs : map fst (upsert key val o a) =
                 if String.eqb (key a) "__proto__" || JsObject.has (key a) o
                 then map fst o else map fst o ++ [key a])
      by (unfold upsert; apply set_keys).
    rewrite Hs, <- has_mem.
    destruct (String.eqb (key a) "__proto__") eqn:Hp; simpl.
    { now rewrite andb_false_r. }
    destruct (JsObject.has (key a) o) eqn:H; simpl; [reflexivity|].
    rewrite <- app_assoc. simpl. do 2 f_equal.
    rewrite filter_dedup, filter_both. f_equal.
    apply filter_ext. intros p.
    rewrite mem_app. simpl. rewrite orb_false_r, negb_orb.
    destruct (negb (mem p (map fst o))), (String.eqb p "__proto__"),
             (String.eqb p (key a)); reflexivity.
Qed.

End FoldSetAny.

Lemma route_map_keys_any static items :
  map fst (route_map items static) =
  filter (fun p => negb (String.eqb p "__proto__")) (merged_paths static items).
Proof.
  unfold route_map, fill_generated, fill_known, merged_paths.
  change (fun m it => JsObject.set (item_path it)
                        (mkRouteSpec (item_path it) (item_payload it)) m)
    with (upsert item_path (fun it => mkRouteSpec (item_path it) (item_payload it))).
  change (fun m r => JsObject.set r (mkRouteSpec r JNull) m)
    with (upsert (fun r : string => r) (fun r => mkRouteSpec r JNull)).
  rewrite !fold_upsert_keys_any. simpl map. rewrite map_id. cbn [app].
  rewrite filter_app, !filter_dedup. apply f_equal2.
  - apply (f_equal dedup). apply filter_ext. intros p. reflexivity.
  - apply (f_equal dedup). rewrite filter_both. apply filter_ext. intros p.
    rewrite mem_dedup, mem_filter.
    destruct (mem p static), (String.eqb p "__proto__"); reflexivity.
Qed.

(** X12. Whatever the strings used as paths, the merged list holds every
    path of the two inputs exactly once, except the path [__proto__], which
    it never holds; it is never longer than the two inputs together. *)
Theorem merged_list_has_each_path_once
        (static : list string) (items : list DynamicRouteItem) :
  let merged := decorateWithPayloads items static in
  NoDup (map route merged) /\
  (forall p, In p (map route merged) <->
             (In p static \/ In p (map item_path items)) /\ p <> "__proto__") /\
  length merged <= length static + length items.
Proof.
  intros merged.
  assert (Hin : forall p, In p (map route merged) <->
             (In p static \/ In p (map item_path items)) /\ p <> "__proto__").
  { intros p. unfold merged. rewrite decorate_routes. unfold JsObject.keys.
    assert (Hperm : Permutation (map fst (JsObject.entries (route_map items static)))
                                (map fst (route_map items static)))
      by apply Permutation_map, entries_perm.
    split.
    - intros H. apply (Permutation_in _ Hperm) in H.
      rewrite route_map_keys_any in H. apply filter_In in H as [H Hp].
      unfold merged_paths in H.
      rewrite in_app_iff, !In_dedup, filter_In in H.
      rewrite negb_true_iff in Hp. apply String.eqb_neq in Hp. tauto.
    - intros [H Hp]. apply (Permutation_in _ (Permutation_sym Hperm)).
      rewrite route_map_keys_any. apply filter_In. split.
      + unfold merged_paths.
        rewrite in_app_iff, !In_dedup, filter_In, negb_true_iff.
        destruct (mem p static) eqn:M; [apply mem_In in M; tauto|].
        destruct H as [H|H]; [apply mem_In in H; congruence | tauto].
      + apply negb_true_iff. now apply String.eqb_neq. }
  split; [apply decorate_NoDup|]. split; [exact Hin|].
  rewrite <- (length_map route merged), <- (length_map item_path items),
          <- length_app.
  apply NoDup_incl_length; [apply decorate_NoDup|].
  intros p Hp. apply Hin in Hp as [Hp _]. now apply in_app_iff.
Qed.

Section IndexKeys.
Context {V : Type}.
Implicit Types (o : JsObject.t V).

Lemma insert_sorted_sorted i (p : string * V) l :
  StronglySorted by_index l ->
  StronglySorted by_index (JsObject.insert_sorted i p l).
Proof.
  induction 1 as [|[j q] r Hr IH Hall]; simpl; [repeat constructor|].
  destruct (i <=? j)%N eqn:E.
  - apply N.leb_le in E. constructor; [now constructor|].
    constructor; [exact E|].
    eapply Forall_impl; [|exact Hall]. unfold by_index. simpl. lia.
  - apply N.leb_gt in E. constructor; [assumption|].
    eapply Permutation_Forall; [apply Permutation_sym, insert_sorted_perm|].
    constructor; [unfold by_index; simpl; lia | assumption].
Qed.

Lemma index_props_sorted o : StronglySorted by_index (JsObject.index_props o).
Proof.
  induction o as [|[k v] r IH]; simpl; [constructor|].
  destruct (JsObject.array_index k); [now apply insert_sorted_sorted | assumption].
Qed.

Lemma index_props_indexed o :
  Forall (fun e => JsObject.array_index (fst (snd e)) = Some (fst e))
         (JsObject.index_props o).
Proof.
  induction o as [|[k v] r IH]; simpl; [constructor|].
  destruct (JsObject.array_index k) as [i|] eqn:E; [|assumption].
  eapply Permutation_Forall; [apply Permutation_sym, insert_sorted_perm|].
  now constructor.
Qed.

Lemma index_props_keys o :
  Permutation (map (fun e => fst (snd e)) (JsObject.index_props o))
              (filter JsObject.is_array_index (map fst o)).
Proof.
  induction o as [|[k v] r IH]; simpl; [constructor|].
  unfold JsObject.is_array_index at 1.
  destruct (JsObject.array_index k) as [i|]; [|assumption].
  rewrite insert_sorted_perm. simpl. now constructor.
Qed.

Lemma string_props_keys o :
  map fst (JsObject.string_props o) =
  filter (fun k => negb (JsObject.is_array_index k)) (map fst o).
Proof.
  unfold JsObject.string_props.
  induction o as [|[k v] r IH]; simpl; [reflexivity|].
  destruct (JsObject.is_array_index k); simpl; now rewrite IH.
Qed.

Lemma index_keys_sorted o :
  StronglySorted (fun a b => (index_of a <= index_of b)%N)
                 (map (fun e => fst (snd e)) (JsObject.index_props o)).
Proof.
  pose proof (index_props_sorted o) as Hs.
  pose proof (index_props_indexed o) as Hi.
  induction Hs as [|e l Hl IH Hall]; simpl; [constructor|].
  inversion_clear Hi as [|? ? He Hrest].
  constructor; [now apply IH|].
  rewrite Forall_map. rewrite Forall_forall in *.
  intros e' Hin. unfold index_of. rewrite He, (Hrest e' Hin).
  apply (Hall e' Hin).
Qed.

End IndexKeys.

(** X13. Whatever the strings used as paths, [_.values] lists the merged
    routes in two groups: first the paths that are array indices, in
    ascending numeric order whatever the order in which they were given,
    then all the other paths in the order of their first occurrence (static
    paths before dynamic ones), [__proto__] left out. *)
Theorem index_paths_are_listed_first
        (static : list string) (items : list DynamicRouteItem) :
  exists indices,
    map route (decorateWithPayloads items static)
    = indices ++ filter JsObject.ordinary_key (merged_paths static items) /\
    Permutation indices
      (filter JsObject.is_array_index (merged_paths static items)) /\
    StronglySorted (fun a b => (index_of a <= index_of b)%N) indices.
Proof.
  set (o := route_map items static).
  exists (map (fun e => fst (snd e)) (JsObject.index_props o)).
  split; [|split].
  - rewrite decorate_routes. fold o. unfold JsObject.keys, JsObject.entries.
    rewrite map_app, map_map, string_props_keys. f_equal.
    unfold o. rewrite route_map_keys_any, filter_both.
    apply filter_ext. intros p. unfold JsObject.ordinary_key.
    apply andb_comm.
  - rewrite index_props_keys. unfold o.
    rewrite route_map_keys_any, filter_both.
    replace (filter (fun x => negb (String.eqb x "__proto__")
                              && JsObject.is_array_index x)
                    (merged_paths static items))
      with (filter JsObject.is_array_index (merged_paths static items));
      [reflexivity|].
    apply filter_ext. intros p.
    destruct (String.eqb p "__proto__") eqn:E; [|reflexivity].
    apply String.eqb_eq in E. now subst p.
  - apply index_keys_sorted.
Qed.

(** X14. Outside hash mode, every path of the static routes or of the
    resolved dynamic routes, [__proto__] apart, is rendered exactly once,
    with the payload that the merge gives it: [payload || null] of the last
    dynamic item naming it, [null] when no dynamic item names it. *)
Theorem declared_payload_reaches_renderer
        (env : Env) (doBuild : bool) (items : list DynamicRouteItem)
        (p : string) :
  String.eqb (router_mode env) "hash" = false ->
  promisify_routes env = Normal items ->
  p <> "__proto__" ->
  In p (flat_routes env) \/ In p (map item_path items) ->
  let st := snd (run env doBuild) in
  filter (fun c => String.eqb (fst c) p) (render_calls (log st))
  = [(p, merged_payload items p)].
Proof.
  intros Hmode Hres Hp Hin st.
  assert (Hr : resolved_items env = Normal items)
    by (unfold resolved_items; now rewrite Hmode).
  pose proof (run_render_calls env doBuild items Hr) as Hc. fold st in Hc.
  unfold work_list in Hc. rewrite Hmode in Hc.
  set (r := mkRouteSpec p (merged_payload items p)).
  assert (Hrin : In r (decorateWithPayloads items (flat_routes env))).
  { assert (H : In (p, merged_payload items p)
                   (map (fun r => (route r, payload r))
                        (decorateWithPayloads items (flat_routes env))))
      by (apply decorate_calls; auto).
    apply in_map_iff in H as (r' & [= E1 E2] & H).
    destruct r' as [p' v']. simpl in E1, E2. subst p' v'. exact H. }
  apply Permutation_length_1_inv, Permutation_sym.
  rewrite !filter_as_flat_map, Hc, flat_map_concat_map, map_map.
  rewrite <- flat_map_concat_map.
  rewrite (flat_map_only route _ _ r (decorate_NoDup items (flat_routes env)) Hrin).
  - simpl. now rewrite String.eqb_refl.
  - intros x Hne. simpl in *. apply String.eqb_neq in Hne. now rewrite Hne.
Qed.

Lemma declared_payload_reaches_renderer_witness :
  filter (fun c => String.eqb (fst c) "/y")
         (render_calls (log (snd (run sample_site true))))
  = [("/y", JNum 3)].
Proof.
  apply (declared_payload_reaches_renderer sample_site true sample_items "/y").
  - reflexivity.
  - reflexivity.
  - discriminate.
  - left. simpl. tauto.
Defined.

(** ** Schedules *)

Section AnySchedule.
Variable env : Env.
Variable doBuild : bool.
Variable sched : list (list nat).

Lemma route_errors_with_schedule r :
  route_errors (with_schedule env sched) r = route_errors env r.
Proof. now rewrite !route_errors_cases. Qed.

Lemma route_steps_with_schedule r :
  route_steps (with_schedule env sched) r = route_steps env r.
Proof. now rewrite !route_steps_cases. Qed.

Lemma rejected_with_schedule e :
  resolved_items env = Throw e ->
  snd (run (with_schedule env sched) doBuild) = snd (run env doBuild).
Proof.
  intros Hr. unfold resolved_items in Hr.
  destruct (String.eqb (router_mode env) "hash") eqn:Hm; [discriminate|].
  rewrite (run_rejected env doBuild e Hm Hr).
  rewrite (run_rejected (with_schedule env sched) doBuild e Hm Hr).
  reflexivity.
Qed.

End AnySchedule.

(** X15. The files written by the callback of a route do not depend on the
    order in which the callbacks of a batch are resumed: for every path,
    two runs that differ only by their schedule write the same files, with
    the same content. *)
Theorem written_by_any_schedule
        (env : Env) (doBuild : bool) (sched : list (list nat)) (p : string) :
  written_by p (log (snd (run (with_schedule env sched) doBuild)))
  = written_by p (log (snd (run env doBuild))).
Proof.
  destruct (resolved_items env) as [items|e] eqn:Hr;
    [|now rewrite (rejected_with_schedule env doBuild sched e Hr)].
  assert (Hr' : resolved_items (with_schedule env sched) = Normal items)
    by exact Hr.
  destruct (in_dec string_dec p (map route (work_list env items))) as [Hin|Hout].
  - apply in_map_iff in Hin as (r & <- & Hin).
    rewrite (run_written_by env doBuild items Hr r Hin).
    rewrite (run_written_by (with_schedule env sched) doBuild items Hr' r Hin).
    now rewrite route_steps_with_schedule.
  - rewrite (run_written_absent env doBuild items Hr p Hout).
    now rewrite (run_written_absent (with_schedule env sched) doBuild items Hr' p Hout).
Qed.

Lemma written_by_any_schedule_witness :
  written_by "/y"
    (log (snd (run (with_schedule sample_site [[2; 2; 2; 2]]) true)))
  = [("/site/dist/y/index.html", "<y>")].
Proof.
  rewrite (written_by_any_schedule sample_site true [[2; 2; 2; 2]] "/y").
  vm_compute. reflexivity.
Defined.

(** The schedule is observable: when [/y] is resumed to its end before the
    other callbacks leave their wait, its file is the first one written and
    its failures are the first ones recorded. *)
Example schedule_changes_the_order :
  map fst (written_files (log (snd (run sample_site true))))
  = ["/site/dist/index.html"; "/site/dist/y/index.html";
     "/site/dist/z/index.html"; "/site/dist/w/index.html"] /\
  map fst (written_files
             (log (snd (run (with_schedule sample_site [[2; 2; 2; 2]]) true))))
  = ["/site/dist/y/index.html"; "/site/dist/index.html";
     "/site/dist/z/index.html"; "/site/dist/w/index.html"] /\
  map Failure.route (errors (snd (run sample_site true)))
  = ["/x"; "/y"; "/y"; "/z"] /\
  map Failure.route
      (errors (snd (run (with_schedule sample_site [[2; 2; 2; 2]]) true)))
  = ["/y"; "/y"; "/x"; "/z"].
Proof. vm_compute. repeat split. Qed.

(** X16. The failures recorded for a route do not depend on the order in
    which the callbacks of a batch are resumed: for every path, two runs
    that differ only by their schedule record the same failures for it, in
    the same order; their [errors] arrays hold the same entries, possibly in
    another order, and [generate] throws the TypeError of the error report
    in both runs or in neither. *)
Theorem failures_of_any_schedule
        (env : Env) (doBuild : bool) (sched : list (list nat)) (p : string) :
  let st := snd (run env doBuild) in
  let st' := snd (run (with_schedule env sched) doBuild) in
  failures_of p (errors st') = failures_of p (errors st) /\
  Permutation (errors st') (errors st) /\
  (fst (run (with_schedule env sched) doBuild) = Throw type_error <->
   fst (run env doBuild) = Throw type_error).
Proof.
  intros st st'.
  destruct (resolved_items env) as [items|e] eqn:Hr.
  - assert (Hr' : resolved_items (with_schedule env sched) = Normal items)
      by exact Hr.
    assert (Hperm : Permutation (errors st') (errors st)).
    { subst st st'.
      rewrite (run_errors_perm env doBuild items Hr).
      rewrite (run_errors_perm (with_schedule env sched) doBuild items Hr').
      apply Permutation_refl'. apply flat_map_ext. intros r.
      apply route_errors_with_schedule. }
    split; [|split; [exact Hperm|]].
    + subst st st'.
      destruct (in_dec string_dec p (map route (work_list env items)))
        as [Hin|Hout].
      * apply in_map_iff in Hin as (r & <- & Hin).
        rewrite (run_failures_of env doBuild items Hr r Hin).
        rewrite (run_failures_of (with_schedule env sched) doBuild items Hr' r Hin).
        apply route_errors_with_schedule.
      * rewrite (run_failures_absent env doBuild items Hr p Hout).
        now rewrite (run_failures_absent (with_schedule env sched) doBuild
                       items Hr' p Hout).
    + rewrite (run_outcome env doBuild items Hr).
      rewrite (run_outcome (with_schedule env sched) doBuild items Hr').
      fold st st'. unfold report_outcome.
      assert (Hex : existsb stack_throws (errors st')
                    = existsb stack_throws (errors st)).
      { apply eq_true_iff_eq. rewrite !existsb_exists.
        split; intros (x & Hx & Hs); exists x; split; try assumption;
          [apply (Permutation_in _ Hperm) |
           apply (Permutation_in _ (Permutation_sym Hperm))]; assumption. }
      rewrite Hex. destruct (existsb stack_throws (errors st)); split;
        intros H; (reflexivity || discriminate).
  - subst st st'. unfold resolved_items in Hr.
    destruct (String.eqb (router_mode env) "hash") eqn:Hm; [discriminate|].
    rewrite (run_rejected env doBuild e Hm Hr).
    rewrite (run_rejected (with_schedule env sched) doBuild e Hm Hr).
    cbn [fst snd errors]. split; [reflexivity|]. split; [constructor|].
    reflexivity.
Qed.

Lemma failures_of_any_schedule_witness :
  failures_of "/y"
    (errors (snd (run (with_schedule sample_site [[2; 2; 2; 2]]) true)))
  = [Failure.mk handled "/y" (JObject [("statusCode", JNum 500)]);
     Failure.mk unhandled "/y" (JError (minify_message "<y>"))].
Proof.
  destruct (failures_of_any_schedule sample_site true [[2; 2; 2; 2]] "/y")
    as (Hsame & _).
  rewrite Hsame. vm_compute. reflexivity.
Defined.

(** ** Routes that share a file *)

Lemma split_trailing_slash route :
  Path.split (route ++ "/")%string = Path.split route ++ [""%string].
Proof.
  change (route ++ "/")%string with (route ++ String Path.slash "")%string.
  now rewrite split_slash.
Qed.

(** X17. A trailing slash does not change the file of a route: a route
    without [..] segment and the same route followed by a slash are written
    to the same path, so when both are in the work list the one written last
    replaces the other. *)
Theorem trailing_slash_shares_the_file (env : Env) (route : string) :
  no_dotdot route = true ->
  output_path (distPath env) (route ++ "/") = output_path (distPath env) route.
Proof.
  intros Hnd. destruct (dist_root env) as (root & Hroot & ->).
  assert (Hnd' : no_dotdot (route ++ "/") = true).
  { unfold no_dotdot in *. rewrite split_trailing_slash, forallb_app, Hnd.
    reflexivity. }
  rewrite !output_path_segments by (assumption || discriminate).
  rewrite split_trailing_slash. unfold kept. rewrite filter_app.
  cbn [filter]. change (String.eqb "" "") with true. cbn [orb negb].
  now rewrite app_nil_r.
Qed.

Lemma trailing_slash_shares_the_file_witness :
  output_path (distPath sample_site) "/about/" = "/site/dist/about/index.html".
Proof.
  exact (eq_trans (trailing_slash_shares_the_file sample_site "/about" eq_refl)
                  eq_refl).
Defined.
